(** * The export pipeline of openscreen: VideoExporter

    A shallow embedding of [VideoExporter] (the class that drives
    decode -> render -> encode -> mux) and of the properties its
    specification states about it, followed by the [VideoFileDecoder] it
    loads the source with and the audio frame its processor builds.

    JavaScript numbers are IEEE 754 binary64 values.  The exporter is
    modelled on Rocq's primitive floats ([Binary64] below), which compute
    what the program computes, rounding included.  Only [TimeMapper], the
    first module, takes times and trim regions as exact quantities, over
    the rationals [Q]: it states how [mapEffectiveToSourceTime] walks the
    trim regions and in what order its results come. *)

From Stdlib Require Import QArith Qpower ZArith List Bool Lia Lqa.
From Stdlib Require Import Permutation Sorted String Floats.
From Stdlib Require Uint63.
Import ListNotations.

(** A decimal literal stands for the nearest binary64 value, as it does
    in JavaScript. *)
Set Warnings "-inexact-float".

Local Open Scope Q_scope.

(** ** Numbers *)

(** [a < b] on JavaScript numbers, as a boolean. *)
Definition Qlt_bool (x y : Q) : bool := negb (Qle_bool y x).

(** ** TimeMapper *)

Module TimeMapper.

(** [TrimRegion]: a source-timeline interval removed from the output. *)
Record TrimRegion : Set := mkTrim { startMs : Q; endMs : Q }.


(** [region.endMs - region.startMs] *)
Definition trimDuration (trim : TrimRegion) : Q := endMs trim - startMs trim.

(** [this.config.trimRegions || []] *)
Definition or_empty (trimRegions : option (list TrimRegion)) : list TrimRegion :=
  match trimRegions with
  | Some l => l
  | None => []
  end.

(** [[...trimRegions].sort((a, b) => a.startMs - b.startMs)].
    [Array.prototype.sort] is stable, so its result is the one ascending
    arrangement that keeps regions of equal [startMs] in their original
    order; insertion from the right computes exactly that arrangement. *)
Fixpoint insert (a : TrimRegion) (sorted : list TrimRegion) : list TrimRegion :=
  match sorted with
  | [] => [a]
  | b :: rest =>
      if Qle_bool (startMs a) (startMs b) then a :: b :: rest
      else b :: insert a rest
  end.

Definition sort_by_startMs (trimRegions : list TrimRegion) : list TrimRegion :=
  fold_right insert [] trimRegions.

(** The [for (const trim of sortedTrims)] loop of
    [mapEffectiveToSourceTime]: [break] as soon as
    [sourceTimeMs < trim.startMs], otherwise add the trim's duration. *)
Fixpoint walk (sortedTrims : list TrimRegion) (sourceTimeMs : Q) : Q :=
  match sortedTrims with
  | [] => sourceTimeMs
  | trim :: rest =>
      if Qlt_bool sourceTimeMs (startMs trim) then sourceTimeMs
      else walk rest (sourceTimeMs + trimDuration trim)
  end.

Definition mapEffectiveToSourceTime
    (trimRegions : option (list TrimRegion)) (effectiveTimeMs : Q) : Q :=
  let trimRegions := or_empty trimRegions in
  let sortedTrims := sort_by_startMs trimRegions in
  walk sortedTrims effectiveTimeMs.


(** Ascending by [startMs]. *)
Definition ascending (l : list TrimRegion) : Prop :=
  StronglySorted (fun a b => startMs a <= startMs b) l.

End TimeMapper.

Import TimeMapper.


(** ** Numbers as the program has them *)

Module Binary64.

Local Open Scope float_scope.

(** The Number of an integer; exact up to [2^53] in magnitude. *)
Definition of_Z (n : Z) : float :=
  if (0 <=? n)%Z then of_uint63 (Uint63.of_Z n)
  else - of_uint63 (Uint63.of_Z (- n)).

Definition of_nat (n : nat) : float := of_Z (Z.of_nat n).

(** The least integer not below a finite number. *)
Definition ceiling (x : float) : option Z :=
  match Prim2SF x with
  | S754_zero _ => Some 0%Z
  | S754_finite negative m e =>
      Some (if (0 <=? e)%Z then
              if negative then (- (Z.pos m * 2 ^ e))%Z else (Z.pos m * 2 ^ e)%Z
            else
              if negative then (- (Z.pos m / 2 ^ (- e)))%Z
              else (- (Z.neg m / 2 ^ (- e)))%Z)
  | _ => None
  end.

(** [Math.ceil(x)]: [NaN], the infinities, the zeros and the numbers that
    are integers already are returned as they are; a number between [-1]
    and [0] gives [-0]. *)
Definition Math_ceil (x : float) : float :=
  match Prim2SF x with
  | S754_finite negative _ e =>
      if (0 <=? e)%Z then x
      else
        match ceiling x with
        | Some n =>
            if (n =? 0)%Z then (if negative then neg_zero else zero)
            else of_Z n
        | None => x
        end
  | _ => x
  end.

(** [Math.max(a, b)]: [NaN] if either is [NaN], and [+0] above [-0]. *)
Definition Math_max (a b : float) : float :=
  if is_nan a || is_nan b then nan
  else if ltb a b then b
  else if ltb b a then a
  else if eqb a 0 then a + b
  else a.

(** The exact value of a finite number. *)
Definition value (x : float) : option Q :=
  match Prim2SF x with
  | S754_zero _ => Some 0%Q
  | S754_finite negative m e =>
      Some (inject_Z (if negative then Z.neg m else Z.pos m) * (2 # 1) ^ e)%Q
  | _ => None
  end.

Record TrimRegion : Set := mkTrim { startMs : float; endMs : float }.

(** [this.config.trimRegions || []] *)
Definition or_empty (trimRegions : option (list TrimRegion)) : list TrimRegion :=
  match trimRegions with
  | Some l => l
  | None => []
  end.

(** [getEffectiveDuration]: a left-to-right [reduce] from [0] that adds
    [(region.endMs - region.startMs) / 1000] per region, subtracted from
    the source duration (seconds). *)
Definition getEffectiveDuration
    (trimRegions : option (list TrimRegion)) (totalDuration : float) : float :=
  let trimRegions := or_empty trimRegions in
  let totalTrimDuration :=
    fold_left (fun sum region => sum + (endMs region - startMs region) / 1000)
              trimRegions 0 in
  totalDuration - totalTrimDuration.

(** [[...trimRegions].sort((a, b) => a.startMs - b.startMs)]: the stable
    sort puts [b] before [a] only when the comparator is positive. *)
Fixpoint insert (a : TrimRegion) (sorted : list TrimRegion) : list TrimRegion :=
  match sorted with
  | [] => [a]
  | b :: rest =>
      if ltb 0 (startMs a - startMs b) then b :: insert a rest
      else a :: b :: rest
  end.

Definition sort_by_startMs (trimRegions : list TrimRegion) : list TrimRegion :=
  fold_right insert [] trimRegions.

(** The [for (const trim of sortedTrims)] loop of
    [mapEffectiveToSourceTime]. *)
Fixpoint walk (sortedTrims : list TrimRegion) (sourceTimeMs : float) : float :=
  match sortedTrims with
  | [] => sourceTimeMs
  | trim :: rest =>
      if ltb sourceTimeMs (startMs trim) then sourceTimeMs
      else
        let trimDuration := endMs trim - startMs trim in
        walk rest (sourceTimeMs + trimDuration)
  end.

Definition mapEffectiveToSourceTime
    (trimRegions : option (list TrimRegion)) (effectiveTimeMs : float) : float :=
  let trimRegions := or_empty trimRegions in
  let sortedTrims := sort_by_startMs trimRegions in
  walk sortedTrims effectiveTimeMs.

(** [Math.ceil(effectiveDuration * this.config.frameRate)] *)
Definition totalFrames (effectiveDuration frameRate : float) : float :=
  Math_ceil (effectiveDuration * frameRate).

(** How often [while (frameIndex < totalFrames)] lets a loop run that
    counts [frameIndex] up from [0] by [frameIndex++]: not at all below
    [0] and at [NaN], without end at [Infinity] and above [2^53], where
    the increment no longer changes the counter. *)
Variant Iterations : Set := runs (n : nat) | endless.

Definition iterations (totalFrames : float) : Iterations :=
  match ceiling totalFrames with
  | Some n =>
      if (n <=? 2 ^ 53)%Z then runs (Z.to_nat n) else endless
  | None => if ltb 0 totalFrames then endless else runs 0
  end.

End Binary64.

(** ** VideoExporter: collaborators, state and effects *)

Module Exporter.

(** *** Values that cross the collaborators' boundaries *)

(** Codec description bytes and colour-space records are opaque tokens. *)
Definition Description : Set := nat.
Definition ColorSpace : Set := nat.

(** [{primaries: 'bt709', transfer: 'iec61966-2-1', matrix: 'rgb',
     fullRange: true}], the default of the first chunk's metadata. *)
Definition bt709 : ColorSpace := 0%nat.

(** The [state] of a WebCodecs encoder. *)
Variant CodecState : Set := unconfigured | configured | closed.

Definition is_configured (s : CodecState) : bool :=
  match s with configured => true | _ => false end.

(** [encoderConfig.hardwareAcceleration] *)
Variant HardwareAcceleration : Set := prefer_hardware | prefer_software.

(** [meta?.decoderConfig], with the two members the exporter reads. *)
Record DecoderConfig : Set := mkDecoderConfig {
  description : option Description;
  colorSpace : option ColorSpace
}.

(** A thrown value: an [Error] object (a [TypeError] is one), or any other
    value, kept as the text [String(error)] gives. *)
Variant Exn : Set :=
  | ErrorObject (message : string)
  | TypeError (message : string)
  | Thrown (text : string).

(** [error instanceof Error ? error.message : String(error)] *)
Definition error_message (error : Exn) : string :=
  match error with
  | ErrorObject m => m
  | TypeError m => m
  | Thrown t => t
  end.

(** [DecodedVideoInfo], the members [export] reads. *)
Record DecodedVideoInfo : Set := mkInfo {
  duration : float;
  hasAudio : bool
}.

(** What the container holds: the chunks whose write succeeded, in the
    order of the calls.  A video chunk comes with the decoder
    configuration the exporter builds for the first chunk, or with the
    metadata of the encoder passed through. *)
Variant ChunkMetadata : Set :=
  | BuiltConfig (description : Description) (colorSpace : ColorSpace)
  | EncoderMetadata (meta : option DecoderConfig).

Variant WrittenChunk : Set :=
  | VideoChunk (index : nat) (metadata : ChunkMetadata)
  | AudioChunk (index : nat).

Definition Blob : Set := list WrittenChunk.

Record ExportProgress : Set := mkProgress {
  currentFrame : nat;
  progressTotalFrames : float;
  percentage : float;
  estimatedTimeRemaining : float
}.

Record ExportResult : Set := mkResult {
  success : bool;
  blob : option Blob;
  error : option string
}.

(** *** The collaborators' objects *)

(** [VideoFileDecoder]: [videoElement] is set once [loadVideo] has run. *)
Record VideoFileDecoder : Set := mkDecoder { videoElement : bool }.

Variant FrameRenderer : Set := TheRenderer.
Variant AudioContext : Set := TheAudioContext.
Variant MediaStreamAudioSourceNode : Set := TheAudioSource.
Variant ScriptProcessorNode : Set := TheAudioProcessor.

(** A WebCodecs [VideoEncoder]: its [state], the number of frames it was
    given and has not yet answered with a chunk, and the variable
    [videoDescription] that its output callback closes over. *)
Record VideoEncoder : Set := mkVideoEncoder {
  state : CodecState;
  pending : nat;
  capturedDescription : option Description
}.

Record AudioEncoder : Set := mkAudioEncoder {
  audioState : CodecState;
  audioPending : nat
}.

Record VideoMuxer : Set := mkMuxer {
  muxerHasAudio : bool;
  written : list WrittenChunk
}.

(** A settled promise of the list [muxingPromises]. *)
Variant Promise : Set := fulfilled | rejected (reason : Exn).

(** *** Observable calls *)

Variant Console : Set := console_log | console_warn | console_error.

(** The calls the exporter makes on its collaborators, as a trace. *)
Variant Event : Set :=
  | E_loadVideo
  | E_rendererInitialize
  | E_isConfigSupported (hw : HardwareAcceleration)
  | E_configure (hw : HardwareAcceleration)
  | E_encode (frame : nat) (keyFrame : bool)
  | E_flush
  | E_encoderClose
  | E_newAudioContext
  | E_newAudioEncoder
  | E_audioIsConfigSupported
  | E_audioConfigure
  | E_audioEncode
  | E_audioFlush
  | E_audioEncoderClose
  | E_createScriptProcessor
  | E_play
  | E_muxerInitialize (withAudio : bool)
  | E_addVideoChunk (index : nat) (metadata : ChunkMetadata)
  | E_addAudioChunk (index : nat)
  | E_finalize
  | E_seek (videoTime : float)
  | E_requestVideoFrameCallback
  | E_renderFrame (frame : nat) (sourceTimestamp : float)
  | E_onProgress (progress : ExportProgress)
  | E_console (level : Console) (text : string)
  | E_processorDisconnect
  | E_sourceDisconnect
  | E_audioContextClose
  | E_decoderDestroy
  | E_rendererDestroy.

(** What may happen while the exporter is suspended at an [await]: a
    callback of an encoder or of the audio graph runs, or a caller invokes
    [cancel()]. *)
Variant AsyncEvent : Set :=
  | VideoChunkReady
  | VideoEncoderFailure
  | AudioChunkReady
  | AudioEncoderFailure
  | AudioProcess
  | CancelCalled.

(** The teardown calls of [cleanup], each inside its own [try]. *)
Variant Teardown : Set :=
  | processor_disconnect
  | source_disconnect
  | audioEncoder_close
  | encoder_close
  | decoder_destroy
  | renderer_destroy.

(** *** The environment

    The behaviour of the collaborators (decoder, renderer, WebCodecs
    encoders, audio graph, muxer) and of the scheduler, as an oracle. *)
Record Env : Type := mkEnv {
  (** [decoder.loadVideo(url)]: resolves with the info or rejects *)
  loadVideo : Exn + DecodedVideoInfo;
  (** [decoder.getAudioStream()] is not [null] *)
  audioStream : bool;
  (** [renderer.initialize()] *)
  rendererInitialize : option Exn;
  (** [VideoEncoder.isConfigSupported(config).supported] *)
  isConfigSupported : HardwareAcceleration -> bool;
  (** [new AudioContext] and [createMediaStreamSource] *)
  createAudioGraph : option Exn;
  (** [AudioEncoder.isConfigSupported(audioConfig).supported] *)
  audioIsConfigSupported : bool;
  (** [muxer.initialize()] *)
  muxerInitialize : option Exn;
  (** [Math.abs(videoElement.currentTime - videoTime) > 0.001], per frame *)
  needsSeek : nat -> bool;
  (** [new VideoFrame(videoElement, ...)], per frame *)
  newVideoFrame : nat -> option Exn;
  (** [renderer.renderFrame], per frame *)
  renderFrame : nat -> option Exn;
  (** [new VideoFrame(canvas, ...)], per frame *)
  newExportFrame : nat -> option Exn;
  (** [videoElement.play()] of the audio pass over an untrimmed source *)
  play : option Exn;
  (** metadata the video encoder hands out with its [n]-th chunk *)
  videoMetadata : nat -> option DecoderConfig;
  (** [muxer.addVideoChunk] and [muxer.addAudioChunk], per chunk *)
  addVideoChunk : nat -> option Exn;
  addAudioChunk : nat -> option Exn;
  (** [muxer.finalize()] *)
  finalize : option Exn;
  (** a teardown call throws *)
  teardownThrows : Teardown -> bool;
  (** the callbacks and [cancel()] calls that run during the [n]-th await *)
  schedule : nat -> list AsyncEvent
}.

(** [VideoExporterConfig], the members the orchestration reads. *)
Record VideoExporterConfig : Type := mkConfig {
  frameRate : float;
  trimRegions : option (list Binary64.TrimRegion);
  (** whether [onProgress] is given *)
  onProgress : bool
}.

(** The fields of [class VideoExporter] ([config] is a parameter of the
    model, [MAX_ENCODE_QUEUE] a constant). *)
Record VideoExporter : Type := mkExporter {
  decoder : option VideoFileDecoder;
  renderer : option FrameRenderer;
  encoder : option VideoEncoder;
  audioEncoder : option AudioEncoder;
  audioContext : option AudioContext;
  audioSource : option MediaStreamAudioSourceNode;
  audioProcessor : option ScriptProcessorNode;
  muxer : option VideoMuxer;
  cancelled : bool;
  encodeQueue : Z;
  videoDescription : option Description;
  videoColorSpace : option ColorSpace;
  muxingPromises : list Promise;
  chunkCount : nat;
  audioChunkCount : nat
}.

(** Field assignments [this.f = v], one per field. *)
Definition set_decoder (v : option VideoFileDecoder) (this : VideoExporter) :
  VideoExporter :=
  {| decoder := v; renderer := renderer this; encoder := encoder this;
     audioEncoder := audioEncoder this; audioContext := audioContext this;
     audioSource := audioSource this; audioProcessor := audioProcessor this;
     muxer := muxer this; cancelled := cancelled this;
     encodeQueue := encodeQueue this;
     videoDescription := videoDescription this;
     videoColorSpace := videoColorSpace this;
     muxingPromises := muxingPromises this; chunkCount := chunkCount this;
     audioChunkCount := audioChunkCount this |}.

Definition set_renderer (v : option FrameRenderer) (this : VideoExporter) :
  VideoExporter :=
  {| decoder := decoder this; renderer := v; encoder := encoder this;
     audioEncoder := audioEncoder this; audioContext := audioContext this;
     audioSource := audioSource this; audioProcessor := audioProcessor this;
     muxer := muxer this; cancelled := cancelled this;
     encodeQueue := encodeQueue this;
     videoDescription := videoDescription this;
     videoColorSpace := videoColorSpace this;
     muxingPromises := muxingPromises this; chunkCount := chunkCount this;
     audioChunkCount := audioChunkCount this |}.

Definition set_encoder (v : option VideoEncoder) (this : VideoExporter) :
  VideoExporter :=
  {| decoder := decoder this; renderer := renderer this; encoder := v;
     audioEncoder := audioEncoder this; audioContext := audioContext this;
     audioSource := audioSource this; audioProcessor := audioProcessor this;
     muxer := muxer this; cancelled := cancelled this;
     encodeQueue := encodeQueue this;
     videoDescription := videoDescription this;
     videoColorSpace := videoColorSpace this;
     muxingPromises := muxingPromises this; chunkCount := chunkCount this;
     audioChunkCount := audioChunkCount this |}.

Definition set_audioEncoder (v : option AudioEncoder) (this : VideoExporter) :
  VideoExporter :=
  {| decoder := decoder this; renderer := renderer this;
     encoder := encoder this; audioEncoder := v;
     audioContext := audioContext this; audioSource := audioSource this;
     audioProcessor := audioProcessor this; muxer := muxer this;
     cancelled := cancelled this; encodeQueue := encodeQueue this;
     videoDescription := videoDescription this;
     videoColorSpace := videoColorSpace this;
     muxingPromises := muxingPromises this; chunkCount := chunkCount this;
     audioChunkCount := audioChunkCount this |}.

Definition set_audioContext (v : option AudioContext) (this : VideoExporter) :
  VideoExporter :=
  {| decoder := decoder this; renderer := renderer this;
     encoder := encoder this; audioEncoder := audioEncoder this;
     audioContext := v; audioSource := audioSource this;
     audioProcessor := audioProcessor this; muxer := muxer this;
     cancelled := cancelled this; encodeQueue := encodeQueue this;
     videoDescription := videoDescription this;
     videoColorSpace := videoColorSpace this;
     muxingPromises := muxingPromises this; chunkCount := chunkCount this;
     audioChunkCount := audioChunkCount this |}.

Definition set_audioSource (v : option MediaStreamAudioSourceNode) (this : VideoExporter) :
  VideoExporter :=
  {| decoder := decoder this; renderer := renderer this;
     encoder := encoder this; audioEncoder := audioEncoder this;
     audioContext := audioContext this; audioSource := v;
     audioProcessor := audioProcessor this; muxer := muxer this;
     cancelled := cancelled this; encodeQueue := encodeQueue this;
     videoDescription := videoDescription this;
     videoColorSpace := videoColorSpace this;
     muxingPromises := muxingPromises this; chunkCount := chunkCount this;
     audioChunkCount := audioChunkCount this |}.

Definition set_audioProcessor (v : option ScriptProcessorNode) (this : VideoExporter) :
  VideoExporter :=
  {| decoder := decoder this; renderer := renderer this;
     encoder := encoder this; audioEncoder := audioEncoder this;
     audioContext := audioContext this; audioSource := audioSource this;
     audioProcessor := v; muxer := muxer this; cancelled := cancelled this;
     encodeQueue := encodeQueue this;
     videoDescription := videoDescription this;
     videoColorSpace := videoColorSpace this;
     muxingPromises := muxingPromises this; chunkCount := chunkCount this;
     audioChunkCount := audioChunkCount this |}.

Definition set_muxer (v : option VideoMuxer) (this : VideoExporter) :
  VideoExporter :=
  {| decoder := decoder this; renderer := renderer this;
     encoder := encoder this; audioEncoder := audioEncoder this;
     audioContext := audioContext this; audioSource := audioSource this;
     audioProcessor := audioProcessor this; muxer := v;
     cancelled := cancelled this; encodeQueue := encodeQueue this;
     videoDescription := videoDescription this;
     videoColorSpace := videoColorSpace this;
     muxingPromises := muxingPromises this; chunkCount := chunkCount this;
     audioChunkCount := audioChunkCount this |}.

Definition set_cancelled (v : bool) (this : VideoExporter) :
  VideoExporter :=
  {| decoder := decoder this; renderer := renderer this;
     encoder := encoder this; audioEncoder := audioEncoder this;
     audioContext := audioContext this; audioSource := audioSource this;
     audioProcessor := audioProcessor this; muxer := muxer this;
     cancelled := v; encodeQueue := encodeQueue this;
     videoDescription := videoDescription this;
     videoColorSpace := videoColorSpace this;
     muxingPromises := muxingPromises this; chunkCount := chunkCount this;
     audioChunkCount := audioChunkCount this |}.

Definition set_encodeQueue (v : Z) (this : VideoExporter) :
  VideoExporter :=
  {| decoder := decoder this; renderer := renderer this;
     encoder := encoder this; audioEncoder := audioEncoder this;
     audioContext := audioContext this; audioSource := audioSource this;
     audioProcessor := audioProcessor this; muxer := muxer this;
     cancelled := cancelled this; encodeQueue := v;
     videoDescription := videoDescription this;
     videoColorSpace := videoColorSpace this;
     muxingPromises := muxingPromises this; chunkCount := chunkCount this;
     audioChunkCount := audioChunkCount this |}.

Definition set_videoDescription (v : option Description) (this : VideoExporter) :
  VideoExporter :=
  {| decoder := decoder this; renderer := renderer this;
     encoder := encoder this; audioEncoder := audioEncoder this;
     audioContext := audioContext this; audioSource := audioSource this;
     audioProcessor := audioProcessor this; muxer := muxer this;
     cancelled := cancelled this; encodeQueue := encodeQueue this;
     videoDescription := v; videoColorSpace := videoColorSpace this;
     muxingPromises := muxingPromises this; chunkCount := chunkCount this;
     audioChunkCount := audioChunkCount this |}.

Definition set_videoColorSpace (v : option ColorSpace) (this : VideoExporter) :
  VideoExporter :=
  {| decoder := decoder this; renderer := renderer this;
     encoder := encoder this; audioEncoder := audioEncoder this;
     audioContext := audioContext this; audioSource := audioSource this;
     audioProcessor := audioProcessor this; muxer := muxer this;
     cancelled := cancelled this; encodeQueue := encodeQueue this;
     videoDescription := videoDescription this; videoColorSpace := v;
     muxingPromises := muxingPromises this; chunkCount := chunkCount this;
     audioChunkCount := audioChunkCount this |}.

Definition set_muxingPromises (v : list Promise) (this : VideoExporter) :
  VideoExporter :=
  {| decoder := decoder this; renderer := renderer this;
     encoder := encoder this; audioEncoder := audioEncoder this;
     audioContext := audioContext this; audioSource := audioSource this;
     audioProcessor := audioProcessor this; muxer := muxer this;
     cancelled := cancelled this; encodeQueue := encodeQueue this;
     videoDescription := videoDescription this;
     videoColorSpace := videoColorSpace this; muxingPromises := v;
     chunkCount := chunkCount this; audioChunkCount := audioChunkCount this |}.

Definition set_chunkCount (v : nat) (this : VideoExporter) :
  VideoExporter :=
  {| decoder := decoder this; renderer := renderer this;
     encoder := encoder this; audioEncoder := audioEncoder this;
     audioContext := audioContext this; audioSource := audioSource this;
     audioProcessor := audioProcessor this; muxer := muxer this;
     cancelled := cancelled this; encodeQueue := encodeQueue this;
     videoDescription := videoDescription this;
     videoColorSpace := videoColorSpace this;
     muxingPromises := muxingPromises this; chunkCount := v;
     audioChunkCount := audioChunkCount this |}.

Definition set_audioChunkCount (v : nat) (this : VideoExporter) :
  VideoExporter :=
  {| decoder := decoder this; renderer := renderer this;
     encoder := encoder this; audioEncoder := audioEncoder this;
     audioContext := audioContext this; audioSource := audioSource this;
     audioProcessor := audioProcessor this; muxer := muxer this;
     cancelled := cancelled this; encodeQueue := encodeQueue this;
     videoDescription := videoDescription this;
     videoColorSpace := videoColorSpace this;
     muxingPromises := muxingPromises this; chunkCount := chunkCount this;
     audioChunkCount := v |}.
(** [private readonly MAX_ENCODE_QUEUE = 120] *)
Definition MAX_ENCODE_QUEUE : Z := 120.

(** The field initialisers of the class: the state [new VideoExporter]
    leaves. *)
Definition new_VideoExporter : VideoExporter :=
  {| decoder := None; renderer := None; encoder := None;
     audioEncoder := None; audioContext := None; audioSource := None;
     audioProcessor := None; muxer := None; cancelled := false;
     encodeQueue := 0%Z; videoDescription := None; videoColorSpace := None;
     muxingPromises := []; chunkCount := 0%nat; audioChunkCount := 0%nat |}.

(** *** The state that a run threads

    [this] is the exporter; [trace] the calls made so far; [history] every
    value [this] has taken, one entry per assignment; [awaits] counts the
    suspension points passed. *)
Record State : Type := mkState {
  this : VideoExporter;
  trace : list Event;
  history : list VideoExporter;
  awaits : nat
}.

Definition initial_State (exporter : VideoExporter) : State :=
  {| this := exporter; trace := []; history := [exporter]; awaits := 0%nat |}.

(** The outcome of a computation: a value, a thrown exception, or no
    outcome within the budget of polls and frames. *)
Variant Res (A : Type) : Type :=
  | Ok (a : A)
  | Throw (e : Exn)
  | Timeout.
Arguments Ok {A} a.
Arguments Throw {A} e.
Arguments Timeout {A}.

Definition M (A : Type) : Type := State -> Res A * State.

Definition ret {A : Type} (a : A) : M A := fun s => (Ok a, s).

Definition bind {A B : Type} (m : M A) (k : A -> M B) : M B :=
  fun s =>
    match m s with
    | (Ok a, s') => k a s'
    | (Throw e, s') => (Throw e, s')
    | (Timeout, s') => (Timeout, s')
    end.

Definition throw {A : Type} (e : Exn) : M A := fun s => (Throw e, s).

Definition timeout {A : Type} : M A := fun s => (Timeout, s).

(** [try { m } catch (error) { handler error }] *)
Definition try_catch {A : Type} (m : M A) (handler : Exn -> M A) : M A :=
  fun s =>
    match m s with
    | (Throw e, s') => handler e s'
    | other => other
    end.

(** [try { m } finally { finalizer }]: the finalizer runs after a return
    and after a throw, and the outcome of [m] stands unless the finalizer
    itself throws. *)
Definition try_finally {A : Type} (m : M A) (finalizer : M unit) : M A :=
  fun s =>
    match m s with
    | (Timeout, s') => (Timeout, s')
    | (r, s') =>
        match finalizer s' with
        | (Ok _, s'') => (r, s'')
        | (Throw e, s'') => (Throw e, s'')
        | (Timeout, s'') => (Timeout, s'')
        end
    end.

Declare Scope exporter_scope.
Delimit Scope exporter_scope with exporter.
Notation "x <- m ;; k" := (bind m (fun x => k))
  (at level 61, m at next level, right associativity) : exporter_scope.
Notation "m ;; k" := (bind m (fun _ => k))
  (at level 61, right associativity) : exporter_scope.
Local Open Scope exporter_scope.

(** Reading a field of [this]. *)
Definition read {A : Type} (field : VideoExporter -> A) : M A :=
  fun s => (Ok (field (this s)), s).

(** An assignment to [this] (or to an object it holds); the new value is
    entered in the history. *)
Definition assign (update : VideoExporter -> VideoExporter) : M unit :=
  fun s =>
    let t := update (this s) in
    (Ok tt, {| this := t; trace := trace s;
               history := history s ++ [t]; awaits := awaits s |}).

(** A call on a collaborator, entered in the trace. *)
Definition emit (e : Event) : M unit :=
  fun s =>
    (Ok tt, {| this := this s; trace := trace s ++ [e];
               history := history s; awaits := awaits s |}).

(** A collaborator's promise or call that may fail. *)
Definition settle (outcome : option Exn) : M unit :=
  match outcome with
  | Some e => throw e
  | None => ret tt
  end.

(** [o!.member] and [o.member] on a reference that may be [null]. *)
Definition deref {A : Type} (field : VideoExporter -> option A) : M A :=
  o <- read field ;;
  match o with
  | Some a => ret a
  | None => throw (TypeError "Cannot read properties of null")
  end.

(** Run an asynchronous function up to its settlement and keep the
    promise it returns. *)
Definition promise_of (task : M unit) : M Promise :=
  fun s =>
    match task s with
    | (Ok _, s') => (Ok fulfilled, s')
    | (Throw e, s') => (Ok (rejected e), s')
    | (Timeout, s') => (Timeout, s')
    end.

(** A callback run by the event loop: what it throws does not reach the
    code that is suspended. *)
Definition callback (handler : M unit) : M unit :=
  try_catch handler (fun _ => ret tt).

Fixpoint for_each {A : Type} (l : list A) (body : A -> M unit) : M unit :=
  match l with
  | [] => ret tt
  | a :: rest => body a ;; for_each rest body
  end.

(** *** Callbacks, teardown and suspension *)

Section Run.

Variable env : Env.
Variable config : VideoExporterConfig.

Definition console (level : Console) (text : string) : M unit :=
  emit (E_console level text).

(** [try { call } catch (e) { console.warn(warning, e) }] around one
    teardown call. *)
Definition guarded (call : Teardown) (e : Event) (warning : string) : M unit :=
  try_catch
    (emit e ;;
     if teardownThrows env call then throw (Thrown "teardown failed")
     else ret tt)
    (fun _ => console console_warn warning).

(** [if (o) { body }] on a reference. *)
Definition when_set {A : Type} (field : VideoExporter -> option A)
    (body : A -> M unit) : M unit :=
  o <- read field ;;
  match o with
  | Some a => body a
  | None => ret tt
  end.

(** [private cleanup(): void] *)
Definition cleanup : M unit :=
  when_set audioProcessor (fun _ =>
    guarded processor_disconnect E_processorDisconnect
      "[VideoExporter] Error disconnecting audio processor:" ;;
    assign (set_audioProcessor None)) ;;
  when_set audioSource (fun _ =>
    guarded source_disconnect E_sourceDisconnect
      "[VideoExporter] Error disconnecting audio source:" ;;
    assign (set_audioSource None)) ;;
  when_set audioContext (fun _ =>
    emit E_audioContextClose ;;
    assign (set_audioContext None)) ;;
  when_set audioEncoder (fun a =>
    (if is_configured (audioState a)
     then guarded audioEncoder_close E_audioEncoderClose
            "[VideoExporter] Error closing audio encoder:"
     else ret tt) ;;
    assign (set_audioEncoder None)) ;;
  when_set encoder (fun e =>
    (if is_configured (state e)
     then guarded encoder_close E_encoderClose "Error closing encoder:"
     else ret tt) ;;
    assign (set_encoder None)) ;;
  when_set decoder (fun _ =>
    guarded decoder_destroy E_decoderDestroy "Error destroying decoder:" ;;
    assign (set_decoder None)) ;;
  when_set renderer (fun _ =>
    guarded renderer_destroy E_rendererDestroy "Error destroying renderer:" ;;
    assign (set_renderer None)) ;;
  assign (set_muxer None) ;;
  assign (set_encodeQueue 0%Z) ;;
  assign (set_muxingPromises []) ;;
  assign (set_chunkCount 0%nat) ;;
  assign (set_audioChunkCount 0%nat) ;;
  assign (set_videoDescription None) ;;
  assign (set_videoColorSpace None).

(** [cancel(): void] *)
Definition cancel : M unit :=
  assign (set_cancelled true) ;;
  cleanup.

(** [await this.muxer!.addVideoChunk(chunk, metadata)] *)
Definition muxer_addVideoChunk (index : nat) (metadata : ChunkMetadata) :
  M unit :=
  m <- deref muxer ;;
  emit (E_addVideoChunk index metadata) ;;
  settle (addVideoChunk env index) ;;
  assign (set_muxer (Some {| muxerHasAudio := muxerHasAudio m;
                             written := written m ++ [VideoChunk index metadata] |})).

(** [await this.muxer!.addAudioChunk(chunk, metadata)] *)
Definition muxer_addAudioChunk (index : nat) : M unit :=
  m <- deref muxer ;;
  emit (E_addAudioChunk index) ;;
  settle (addAudioChunk env index) ;;
  assign (set_muxer (Some {| muxerHasAudio := muxerHasAudio m;
                             written := written m ++ [AudioChunk index] |})).

(** The asynchronous function that writes one video chunk: the whole body
    is inside [try], and the [catch] only logs. *)
Definition videoMuxingTask (index : nat) (isFirstChunk : bool)
    (meta : option DecoderConfig) : M unit :=
  try_catch
    (vd <- read videoDescription ;;
     match isFirstChunk, vd with
     | true, Some desc =>
         cs <- read videoColorSpace ;;
         let colorSpace := match cs with Some c => c | None => bt709 end in
         muxer_addVideoChunk index (BuiltConfig desc colorSpace)
     | _, _ => muxer_addVideoChunk index (EncoderMetadata meta)
     end)
    (fun _ => console console_error "Muxing error:").

(** The [output] callback of the video encoder. *)
Definition videoOutput (meta : option DecoderConfig) : M unit :=
  enc <- deref encoder ;;
  (match meta with
   | Some {| description := Some desc |} =>
       match capturedDescription enc with
       | None =>
           assign (set_encoder
                     (Some {| state := state enc; pending := pending enc;
                              capturedDescription := Some desc |})) ;;
           assign (set_videoDescription (Some desc))
       | Some _ => ret tt
       end
   | _ => ret tt
   end) ;;
  vcs <- read videoColorSpace ;;
  (match meta, vcs with
   | Some {| colorSpace := Some cs |}, None =>
       assign (set_videoColorSpace (Some cs))
   | _, _ => ret tt
   end) ;;
  count <- read chunkCount ;;
  let isFirstChunk := (count =? 0)%nat in
  assign (set_chunkCount (S count)) ;;
  muxingPromise <- promise_of (videoMuxingTask count isFirstChunk meta) ;;
  promises <- read muxingPromises ;;
  assign (set_muxingPromises (promises ++ [muxingPromise])) ;;
  queue <- read encodeQueue ;;
  assign (set_encodeQueue (queue - 1)%Z).

(** The [error] callback of the video encoder. *)
Definition videoError : M unit :=
  console console_error "[VideoExporter] Encoder error:" ;;
  assign (set_cancelled true).

(** The asynchronous function that writes one audio chunk. *)
Definition audioMuxingTask (index : nat) : M unit :=
  try_catch
    (muxer_addAudioChunk index)
    (fun _ => console console_error "[VideoExporter] Audio muxing error:").

(** The [output] callback of the audio encoder. *)
Definition audioOutput : M unit :=
  count <- read audioChunkCount ;;
  assign (set_audioChunkCount (S count)) ;;
  muxingPromise <- promise_of (audioMuxingTask count) ;;
  promises <- read muxingPromises ;;
  assign (set_muxingPromises (promises ++ [muxingPromise])).

(** [processor.onaudioprocess] *)
Definition onaudioprocess : M unit :=
  o <- read audioEncoder ;;
  c <- read cancelled ;;
  match o with
  | Some a =>
      if is_configured (audioState a) && negb c then
        emit E_audioEncode ;;
        assign (set_audioEncoder
                  (Some {| audioState := audioState a;
                           audioPending := S (audioPending a) |}))
      else ret tt
  | None => ret tt
  end.

(** The video encoder hands the next chunk to its [output] callback: it
    does so only while configured and only for a frame it was given. *)
Definition deliver_video_chunk : M unit :=
  when_set encoder (fun enc =>
    if is_configured (state enc) && (0 <? pending enc)%nat then
      assign (set_encoder
                (Some {| state := state enc; pending := Nat.pred (pending enc);
                         capturedDescription := capturedDescription enc |})) ;;
      count <- read chunkCount ;;
      callback (videoOutput (videoMetadata env count))
    else ret tt).

(** The video encoder fails.  WebCodecs closes the encoder (its [state]
    becomes [closed] and its pending work is dropped) and then runs the
    [error] callback. *)
Definition fail_video_encoder : M unit :=
  when_set encoder (fun enc =>
    if is_configured (state enc) then
      assign (set_encoder
                (Some {| state := closed; pending := 0%nat;
                         capturedDescription := capturedDescription enc |})) ;;
      callback videoError
    else ret tt).

Definition deliver_audio_chunk : M unit :=
  when_set audioEncoder (fun a =>
    if is_configured (audioState a) && (0 <? audioPending a)%nat then
      assign (set_audioEncoder
                (Some {| audioState := audioState a;
                         audioPending := Nat.pred (audioPending a) |})) ;;
      callback audioOutput
    else ret tt).

Definition fail_audio_encoder : M unit :=
  when_set audioEncoder (fun a =>
    if is_configured (audioState a) then
      assign (set_audioEncoder
                (Some {| audioState := closed; audioPending := 0%nat |})) ;;
      callback (console console_error "[VideoExporter] Audio encoder error:")
    else ret tt).

Definition handle (ev : AsyncEvent) : M unit :=
  match ev with
  | VideoChunkReady => deliver_video_chunk
  | VideoEncoderFailure => fail_video_encoder
  | AudioChunkReady => deliver_audio_chunk
  | AudioEncoderFailure => fail_audio_encoder
  | AudioProcess => when_set audioProcessor (fun _ => callback onaudioprocess)
  | CancelCalled => cancel
  end.

(** A suspension point: the events the scheduler has for it run to
    completion, one after the other, before the exporter resumes. *)
Definition await : M unit :=
  fun s =>
    for_each (schedule env (awaits s)) handle
      {| this := this s; trace := trace s; history := history s;
         awaits := S (awaits s) |}.

(** *** Initialisation *)

(** [this.encoder.configure(encoderConfig)]: a closed encoder refuses. *)
Definition encoder_configure (hw : HardwareAcceleration) : M unit :=
  enc <- deref encoder ;;
  emit (E_configure hw) ;;
  match state enc with
  | closed => throw (ErrorObject "InvalidStateError")
  | _ =>
      assign (set_encoder
                (Some {| state := configured; pending := pending enc;
                         capturedDescription := capturedDescription enc |}))
  end.

(** [private async initializeEncoder(): Promise<void>] *)
Definition initializeEncoder : M unit :=
  assign (set_encodeQueue 0%Z) ;;
  assign (set_muxingPromises []) ;;
  assign (set_chunkCount 0%nat) ;;
  assign (set_encoder
            (Some {| state := unconfigured; pending := 0%nat;
                     capturedDescription := None |})) ;;
  emit (E_isConfigSupported prefer_hardware) ;;
  await ;;
  if isConfigSupported env prefer_hardware then
    console console_log "[VideoExporter] Using hardware acceleration" ;;
    encoder_configure prefer_hardware
  else
    console console_log
      "[VideoExporter] Hardware not supported, using software encoding" ;;
    emit (E_isConfigSupported prefer_software) ;;
    await ;;
    if negb (isConfigSupported env prefer_software) then
      throw (ErrorObject "Video encoding not supported on this system")
    else
      encoder_configure prefer_software.

(** [VideoFileDecoder.getAudioStream()] is not [null]. *)
Definition getAudioStream (d : VideoFileDecoder) : bool :=
  if negb (videoElement d) then false else audioStream env.

(** [private async initializeAudioEncoder(): Promise<void>] *)
Definition initializeAudioEncoder : M unit :=
  d <- read decoder ;;
  let stream := match d with Some dec => getAudioStream dec | None => false end in
  if negb stream then
    console console_warn "[VideoExporter] No audio stream available"
  else
    try_catch
      (emit E_newAudioContext ;;
       settle (createAudioGraph env) ;;
       assign (set_audioContext (Some TheAudioContext)) ;;
       assign (set_audioSource (Some TheAudioSource)) ;;
       emit E_newAudioEncoder ;;
       emit E_audioIsConfigSupported ;;
       await ;;
       if negb (audioIsConfigSupported env) then
         console console_warn "[VideoExporter] Opus audio codec not supported"
       else
         emit E_audioConfigure ;;
         assign (set_audioEncoder
                   (Some {| audioState := configured; audioPending := 0%nat |})) ;;
         emit E_createScriptProcessor ;;
         assign (set_audioProcessor (Some TheAudioProcessor)) ;;
         d' <- read decoder ;;
         match d' with
         | Some dec => if videoElement dec then emit E_play else ret tt
         | None => ret tt
         end)
      (fun _ =>
         console console_error
           "[VideoExporter] Failed to initialize audio encoder:").

(** *** Audio extraction *)

(** [processSegment(segmentStart, segmentEnd)]: seek, wait for [seeked],
    play, wait until the segment has played. *)
Definition processSegment (segmentStart segmentEnd : float) : M unit :=
  c <- read cancelled ;;
  if PrimFloat.leb segmentEnd segmentStart || c then ret tt
  else
    emit (E_seek (segmentStart / 1000)%float) ;;
    await ;;
    emit E_play ;;
    await.

(** [for (const trim of sortedTrims)] of [extractAudio]; the value is the
    final [currentPos]. *)
Fixpoint extract_segments (sortedTrims : list Binary64.TrimRegion)
    (currentPos : float) : M float :=
  match sortedTrims with
  | [] => ret currentPos
  | trim :: rest =>
      (if PrimFloat.ltb currentPos (Binary64.startMs trim)
       then processSegment currentPos (Binary64.startMs trim)
       else ret tt) ;;
      extract_segments rest
        (Binary64.Math_max currentPos (Binary64.endMs trim))
  end.

(** [private async extractAudio(videoElement, duration)].  Without trim
    regions the promise it returns rejects when [play()] does. *)
Definition extractAudio (duration : float) : M unit :=
  ae <- read audioEncoder ;;
  ac <- read audioContext ;;
  src <- read audioSource ;;
  match ae, ac, src with
  | Some _, Some _, Some _ =>
      let regions := Binary64.or_empty (trimRegions config) in
      if (List.length regions =? 0)%nat then
        emit (E_seek 0%float) ;;
        emit E_play ;;
        await ;;
        settle (play env)
      else
        let sortedTrims := Binary64.sort_by_startMs regions in
        currentPos <- extract_segments sortedTrims 0%float ;;
        if PrimFloat.ltb currentPos (duration * 1000)%float
        then processSegment currentPos (duration * 1000)%float
        else ret tt
  | _, _, _ => ret tt
  end.

(** *** The frame loop *)

(** [while (this.encodeQueue >= this.MAX_ENCODE_QUEUE && !this.cancelled)
      await new Promise(resolve => setTimeout(resolve, 0))],
    given up after [fuel] polls. *)
Fixpoint wait_for_queue (fuel : nat) : M unit :=
  queue <- read encodeQueue ;;
  c <- read cancelled ;;
  if (MAX_ENCODE_QUEUE <=? queue)%Z && negb c then
    match fuel with
    | O => timeout
    | S fuel' => await ;; wait_for_queue fuel'
    end
  else ret tt.

(** [this.encoder.encode(exportFrame, { keyFrame })] on a configured
    encoder. *)
Definition encoder_encode (enc : VideoEncoder) (frame : nat) (keyFrame : bool) :
  M unit :=
  emit (E_encode frame keyFrame) ;;
  assign (set_encoder
            (Some {| state := state enc; pending := S (pending enc);
                     capturedDescription := capturedDescription enc |})).

(** The step of the loop that submits the frame: the increment of the
    counter, then [encode], or the warning when the encoder is not
    configured. *)
Definition submit_frame (i : nat) : M unit :=
  o <- read encoder ;;
  match o with
  | Some enc =>
      if is_configured (state enc) then
        queue <- read encodeQueue ;;
        assign (set_encodeQueue (queue + 1)%Z) ;;
        encoder_encode enc i (i mod 150 =? 0)%nat
      else console console_warn "Encoder not ready!"
  | None => console console_warn "Encoder not ready!"
  end.

(** The progress record built after frame [i], when [frameIndex] has
    become [i + 1]. *)
Definition progress_after (totalFrames : float) (frameIndex : nat) :
  ExportProgress :=
  {| currentFrame := frameIndex;
     progressTotalFrames := totalFrames;
     percentage := ((Binary64.of_nat frameIndex / totalFrames) * 100)%float;
     estimatedTimeRemaining := 0%float |}.

(** [if (this.config.onProgress) this.config.onProgress({...})] *)
Definition report_progress (totalFrames : float) (frameIndex : nat) : M unit :=
  if onProgress config then emit (E_onProgress (progress_after totalFrames frameIndex))
  else ret tt.

(** One iteration of the frame loop, for [i = frameIndex]. *)
Definition frame (fuel : nat) (totalFrames : float) (i : nat) : M unit :=
  let timeStep := (1 / frameRate config)%float in
  let effectiveTimeMs := ((Binary64.of_nat i * timeStep) * 1000)%float in
  let sourceTimeMs :=
    Binary64.mapEffectiveToSourceTime (trimRegions config) effectiveTimeMs in
  let videoTime := (sourceTimeMs / 1000)%float in
  (if needsSeek env i then
     emit (E_seek videoTime) ;;
     await
   else if (i =? 0)%nat then
     emit E_requestVideoFrameCallback ;;
     await
   else ret tt) ;;
  settle (newVideoFrame env i) ;;
  let sourceTimestamp := (sourceTimeMs * 1000)%float in
  _ <- deref renderer ;;
  emit (E_renderFrame i sourceTimestamp) ;;
  await ;;
  settle (renderFrame env i) ;;
  _ <- deref renderer ;;
  settle (newExportFrame env i) ;;
  wait_for_queue fuel ;;
  submit_frame i ;;
  report_progress totalFrames (S i).

(** [while (frameIndex < totalFrames && !this.cancelled)]: [remaining] is
    the number of indices from [frameIndex] up to [totalFrames], so the
    first half of the condition holds exactly while it is not zero. *)
Fixpoint frame_loop (fuel : nat) (totalFrames : float)
    (remaining frameIndex : nat) : M unit :=
  match remaining with
  | O => ret tt
  | S remaining' =>
      c <- read cancelled ;;
      if c then ret tt
      else
        frame fuel totalFrames frameIndex ;;
        frame_loop fuel totalFrames remaining' (S frameIndex)
  end.

(** The frame loop from [frameIndex = 0].  A loop that [totalFrames] does
    not end is followed for [fuel] frames; it is left only by
    cancellation or by an exception. *)
Definition run_frames (fuel : nat) (totalFrames : float) : M unit :=
  match Binary64.iterations totalFrames with
  | Binary64.runs n => frame_loop fuel totalFrames n 0%nat
  | Binary64.endless =>
      frame_loop fuel totalFrames fuel 0%nat ;;
      c <- read cancelled ;;
      if c then ret tt else timeout
  end.

(** *** Finalisation *)

Fixpoint repeat_times (n : nat) (m : M unit) : M unit :=
  match n with
  | O => ret tt
  | S n' => m ;; repeat_times n' m
  end.

(** [await this.encoder.flush()]: the promise resolves once every pending
    chunk has been handed out, and rejects when the encoder was closed in
    the meantime. *)
Definition encoder_flush : M unit :=
  emit E_flush ;;
  await ;;
  o <- read encoder ;;
  match o with
  | Some enc =>
      if is_configured (state enc)
      then repeat_times (pending enc) deliver_video_chunk
      else throw (ErrorObject "AbortError")
  | None => throw (ErrorObject "AbortError")
  end.

Definition audioEncoder_flush : M unit :=
  emit E_audioFlush ;;
  await ;;
  o <- read audioEncoder ;;
  match o with
  | Some a =>
      if is_configured (audioState a)
      then repeat_times (audioPending a) deliver_audio_chunk
      else throw (ErrorObject "AbortError")
  | None => throw (ErrorObject "AbortError")
  end.

(** The reason [Promise.all] rejects with, if any. *)
Fixpoint first_rejection (promises : list Promise) : option Exn :=
  match promises with
  | [] => None
  | fulfilled :: rest => first_rejection rest
  | rejected reason :: _ => Some reason
  end.

(** [await Promise.all(this.muxingPromises)] *)
Definition promise_all : M unit :=
  promises <- read muxingPromises ;;
  await ;;
  settle (first_rejection promises).

(** [await this.muxer!.finalize()] *)
Definition muxer_finalize : M Blob :=
  m <- deref muxer ;;
  emit E_finalize ;;
  await ;;
  settle (finalize env) ;;
  ret (written m).

(** *** [export] *)

(** The body of the [try] block of [export]. *)
Definition export_try (fuel : nat) : M ExportResult :=
  cleanup ;;
  assign (set_cancelled false) ;;
  assign (set_decoder (Some {| videoElement := false |})) ;;
  assign (set_decoder (Some {| videoElement := true |})) ;;
  emit E_loadVideo ;;
  await ;;
  match loadVideo env with
  | inl e => throw e
  | inr videoInfo =>
      assign (set_renderer (Some TheRenderer)) ;;
      emit E_rendererInitialize ;;
      await ;;
      settle (rendererInitialize env) ;;
      initializeEncoder ;;
      let withAudio := hasAudio videoInfo in
      (if withAudio then initializeAudioEncoder else ret tt) ;;
      assign (set_muxer (Some {| muxerHasAudio := withAudio; written := [] |})) ;;
      emit (E_muxerInitialize withAudio) ;;
      await ;;
      settle (muxerInitialize env) ;;
      d <- deref decoder ;;
      if negb (videoElement d) then
        throw (ErrorObject "Video element not available")
      else
        ae <- read audioEncoder ;;
        ac <- read audioContext ;;
        (match ae, ac with
         | Some _, Some _ =>
             if withAudio then
               console console_log "[VideoExporter] Extracting audio..." ;;
               extractAudio (duration videoInfo) ;;
               console console_log "[VideoExporter] Audio extraction complete"
             else ret tt
         | _, _ => ret tt
         end) ;;
        let effectiveDuration :=
          Binary64.getEffectiveDuration (trimRegions config)
            (duration videoInfo) in
        let totalFrames :=
          Binary64.totalFrames effectiveDuration (frameRate config) in
        console console_log "[VideoExporter] Original duration:" ;;
        console console_log "[VideoExporter] Effective duration:" ;;
        console console_log "[VideoExporter] Total frames to export:" ;;
        run_frames fuel totalFrames ;;
        c <- read cancelled ;;
        if c then
          ret {| success := false; blob := None;
                 error := Some "Export cancelled"%string |}
        else
          e <- read encoder ;;
          (match e with
           | Some enc => if is_configured (state enc) then encoder_flush else ret tt
           | None => ret tt
           end) ;;
          a <- read audioEncoder ;;
          (match a with
           | Some aenc =>
               if is_configured (audioState aenc) then audioEncoder_flush
               else ret tt
           | None => ret tt
           end) ;;
          promise_all ;;
          b <- muxer_finalize ;;
          ret {| success := true; blob := Some b; error := None |}
  end.

(** [async export(): Promise<ExportResult>] *)
Definition export (fuel : nat) : M ExportResult :=
  try_finally
    (try_catch
       (export_try fuel)
       (fun error =>
          console console_error "Export error:" ;;
          ret {| success := false; blob := None;
                 error := Some (error_message error) |}))
    cleanup.

End Run.

End Exporter.

Import Exporter.
Local Open Scope exporter_scope.

(** ** Vocabulary of the properties *)

(** The calls that callbacks and teardown make on their own; every other
    call is made by the orchestration itself. *)
Definition background (e : Event) : bool :=
  match e with
  | E_console _ _ | E_addVideoChunk _ _ | E_addAudioChunk _ | E_audioEncode
  | E_encoderClose | E_audioEncoderClose | E_processorDisconnect
  | E_sourceDisconnect | E_audioContextClose | E_decoderDestroy
  | E_rendererDestroy => true
  | _ => false
  end.

Definition foreground (e : Event) : bool := negb (background e).

(** The calls that exist only on the audio path: configuring, feeding and
    flushing the audio encoder, writing an audio chunk, playing the source
    for capture, and the log line that opens the extraction pass. *)
Definition audio_call (e : Event) : bool :=
  match e with
  | E_audioConfigure | E_audioEncode | E_audioFlush | E_addAudioChunk _
  | E_createScriptProcessor | E_play => true
  | E_console console_log text =>
      String.eqb text "[VideoExporter] Extracting audio..."
  | _ => false
  end.

(** What a call shows of the frames handed to [renderFrame], [encode] and
    [onProgress], and of the calls of [configure] and [isConfigSupported]
    on the video encoder. *)
Definition render_index (e : Event) : list nat :=
  match e with E_renderFrame i _ => [i] | _ => [] end.

Definition encode_call (e : Event) : list (nat * bool) :=
  match e with E_encode i k => [(i, k)] | _ => [] end.

Definition progress_record (e : Event) : list ExportProgress :=
  match e with E_onProgress p => [p] | _ => [] end.

Definition configure_call (e : Event) : list HardwareAcceleration :=
  match e with E_configure hw => [hw] | _ => [] end.

Definition probe_call (e : Event) : list HardwareAcceleration :=
  match e with E_isConfigSupported hw => [hw] | _ => [] end.

Definition rendered (tr : list Event) : list nat := flat_map render_index tr.

Definition encoded (tr : list Event) : list (nat * bool) :=
  flat_map encode_call tr.

Definition progressed (tr : list Event) : list ExportProgress :=
  flat_map progress_record tr.

Definition configured_with (tr : list Event) : list HardwareAcceleration :=
  flat_map configure_call tr.

Definition probed (tr : list Event) : list HardwareAcceleration :=
  flat_map probe_call tr.

(** The counter is at most [B] now and was at most [B] at every earlier
    assignment. *)
Definition bounded (B : Z) (s : State) : Prop :=
  Forall (fun t => (encodeQueue t <= B)%Z) (history s)
  /\ (encodeQueue (this s) <= B)%Z.

(** Every promise in [muxingPromises] is fulfilled. *)
Definition all_fulfilled (t : VideoExporter) : Prop :=
  Forall (fun p => p = fulfilled) (muxingPromises t).

Definition promises_kept (s : State) : Prop :=
  Forall all_fulfilled (history s) /\ all_fulfilled (this s).

(** The exporter holds no audio encoder, never held one, and has made no
    call of the audio path. *)
Definition audio_off (s : State) : Prop :=
  audioEncoder (this s) = None
  /\ audioProcessor (this s) = None
  /\ forallb (fun e => negb (audio_call e)) (trace s) = true
  /\ Forall (fun t => audioEncoder t = None) (history s).

(** The exporter holds a video encoder whose state is [configured]. *)
Definition armed (t : VideoExporter) : bool :=
  match encoder t with
  | Some enc => is_configured (state enc)
  | None => false
  end.

(** Once cancelled, the exporter holds no configured encoder. *)
Definition disarmed_if_cancelled (s : State) : Prop :=
  cancelled (this s) = true -> armed (this s) = false.

(** What a callback or a teardown may change: it makes background calls
    only, never raises the counter above a bound that held (if that bound
    is not negative), keeps the promises fulfilled, and leaves the audio
    path off if it was off. *)
Definition quiet (s s' : State) : Prop :=
  filter foreground (trace s') = filter foreground (trace s)
  /\ (forall B : Z, (0 <= B)%Z -> bounded B s -> bounded B s')
  /\ (promises_kept s -> promises_kept s')
  /\ (audio_off s -> audio_off s').

(** A computation that always returns and is quiet. *)
Definition quietly {A : Type} (m : M A) : Prop :=
  forall s, (exists a, fst (m s) = Ok a) /\ quiet s (snd (m s)).

(** A computation that may throw but never runs out of polls, and is
    quiet. *)
Definition calmly {A : Type} (m : M A) : Prop :=
  forall s, fst (m s) <> Timeout /\ quiet s (snd (m s)).

(** A statement that returns and only adds calls [tr], with [P tr], to the
    trace. *)
Definition logs (P : list Event -> Prop) (m : M unit) : Prop :=
  forall s, exists tr,
    P tr /\
    m s = (Ok tt, {| this := this s; trace := trace s ++ tr;
                     history := history s; awaits := awaits s |}).

(** The exporter that [cleanup] leaves: every reference [null], every
    counter and list reset; only [cancelled] is kept. *)
Definition torn_down (c : bool) : VideoExporter :=
  set_cancelled c new_VideoExporter.

(** [m] keeps [I]: whatever its outcome, [I] holds afterwards if it held
    before. *)
Definition keeps {A : Type} (I : State -> Prop) (m : M A) : Prop :=
  forall s, I s -> I (snd (m s)).

Definition not_cancelled (s : State) : Prop := cancelled (this s) = false.

Definition unarmed (s : State) : Prop := armed (this s) = false.

Definition within_bound : State -> Prop := bounded MAX_ENCODE_QUEUE.

(** Inside an iteration of the frame loop both invariants hold. *)
Definition in_iteration (s : State) : Prop :=
  within_bound s /\ disarmed_if_cancelled s.

(** [m] always returns a value; [m] never runs out of polls. *)
Definition returns {A : Type} (m : M A) : Prop :=
  forall s, exists a, fst (m s) = Ok a.

Definition settles {A : Type} (m : M A) : Prop :=
  forall s, fst (m s) <> Timeout.

(** [m], started in a state with [P], can only return in a state with
    [Q]. *)
Definition ok_triple {B : Type} (P : State -> Prop) (m : M B)
    (Q : B -> State -> Prop) : Prop :=
  forall s, P s -> forall b s', m s = (Ok b, s') -> Q b s'.

(** The observation [f] of the trace, call by call, is [v]. *)
Definition seen {X : Type} (f : Event -> list X) (v : list X) (s : State) :
  Prop :=
  flat_map f (trace s) = v.

(** [m] always throws, and keeps [I] on the way. *)
Definition throws_keeping {A : Type} (I : State -> Prop) (m : M A) : Prop :=
  forall s, I s -> exists e s', m s = (Throw e, s') /\ I s'.

(** The frames handed to the renderer with their source timestamps
    (microseconds), call by call. *)
Definition render_call (e : Event) : list (nat * float) :=
  match e with E_renderFrame i sourceTimestamp => [(i, sourceTimestamp)] | _ => [] end.

(** The seeks of a run, call by call. *)
Definition seek_call (e : Event) : list float :=
  match e with E_seek t => [t] | _ => [] end.

(** A result holds a blob and no error, or an error and no blob. *)
Definition well_shaped (r : ExportResult) : Prop :=
  if success r
  then blob r <> None /\ error r = None
  else blob r = None /\ error r <> None.

Definition is_cancelled (s : State) : Prop := cancelled (this s) = true.

(** The run is cancelled, or its seeks so far are [v]. *)
Definition sought (v : list float) (s : State) : Prop :=
  is_cancelled s \/ seen seek_call v s.

(** The run is cancelled, or the exporter holds a configured encoder and
    the frames encoded so far are [v]. *)
Definition encoding (v : list (nat * bool)) (s : State) : Prop :=
  is_cancelled s \/ (armed (this s) = true /\ seen encode_call v s).

(** The bound of the frame loop for a source of [duration] seconds. *)
Definition frame_bound (config : VideoExporterConfig) (duration : float) :
  Binary64.Iterations :=
  Binary64.iterations
    (Binary64.totalFrames
       (Binary64.getEffectiveDuration (trimRegions config) duration)
       (frameRate config)).

(** The source timestamp (microseconds) of frame [i], as an iteration of
    the frame loop computes it. *)
Definition frame_source_timestamp (config : VideoExporterConfig) (i : nat) :
  float :=
  (Binary64.mapEffectiveToSourceTime (trimRegions config)
     ((Binary64.of_nat i * (1 / frameRate config)) * 1000)
   * 1000)%float.

(** What the loop has shown when it ends: [totalFrames] bounds it by [n]
    frames, and the frames 0 to [n - 1] have shown what they show. *)
Definition shown {X : Type} (f : Event -> list X) (g : nat -> list X)
    (totalFrames : float) (v : list X) (s : State) : Prop :=
  exists n,
    Binary64.iterations totalFrames = Binary64.runs n
    /\ seen f (v ++ flat_map g (seq 0 n)) s.

(** ** Scenarios

    Concrete collaborators to run the exporter against. *)

Module Scenario.

(** A source of [seconds] seconds; the encoders accept the configurations
    [hw], [sw] and [audioOk] say; the write of video chunk [k] fails when
    [badChunk k]; the scheduler runs [events n] during the [n]-th await.
    Everything else succeeds, every frame needs a seek, and the encoder
    reports its description with the first chunk. *)
Definition collaborators (seconds : float) (withAudio hw sw audioOk : bool)
    (badChunk : nat -> bool) (events : nat -> list AsyncEvent) : Env :=
  {| loadVideo := inr {| duration := seconds; hasAudio := withAudio |};
     audioStream := withAudio;
     rendererInitialize := None;
     isConfigSupported :=
       fun acceleration =>
         match acceleration with
         | prefer_hardware => hw
         | prefer_software => sw
         end;
     createAudioGraph := None;
     audioIsConfigSupported := audioOk;
     muxerInitialize := None;
     needsSeek := fun _ => true;
     newVideoFrame := fun _ => None;
     renderFrame := fun _ => None;
     newExportFrame := fun _ => None;
     play := None;
     videoMetadata :=
       fun n =>
         if (n =? 0)%nat
         then Some {| description := Some 7%nat; colorSpace := None |}
         else None;
     addVideoChunk :=
       fun k => if badChunk k then Some (ErrorObject "write failed") else None;
     addAudioChunk := fun _ => None;
     finalize := None;
     teardownThrows := fun _ => false;
     schedule := events |}.

Definition at_30_fps : VideoExporterConfig :=
  {| frameRate := 30%float; trimRegions := None; onProgress := true |}.

(** Two trim regions that share the stretch from 2 s to 8 s. *)
Definition overlapping_trims : VideoExporterConfig :=
  {| frameRate := 30%float;
     trimRegions :=
       Some [Binary64.mkTrim 0 8000; Binary64.mkTrim 2000 10000];
     onProgress := true |}.

(** Three trim regions that follow one another from 0 s to 1 s. *)
Definition adjacent_trims : VideoExporterConfig :=
  {| frameRate := 30%float;
     trimRegions :=
       Some [Binary64.mkTrim 0 200; Binary64.mkTrim 200 900;
             Binary64.mkTrim 900 1000];
     onProgress := true |}.

(** The stretch from 0.5 s to 1 s trimmed. *)
Definition one_trim : VideoExporterConfig :=
  {| frameRate := 30%float;
     trimRegions := Some [Binary64.mkTrim 500 1000];
     onProgress := true |}.

(** The stretch from 3.7 s to 5 s trimmed. *)
Definition late_trim : VideoExporterConfig :=
  {| frameRate := 30%float;
     trimRegions := Some [Binary64.mkTrim 3700 5000];
     onProgress := true |}.

Definition no_events : nat -> list AsyncEvent := fun _ => [].

(** [new VideoExporter(config).export()], with the given polling budget. *)
Definition run (env : Env) (config : VideoExporterConfig) (fuel : nat) :
  Res ExportResult * State :=
  export env config fuel (initial_State new_VideoExporter).

(** The run resolved [{success: true}]. *)
Definition succeeded (r : Res ExportResult) : bool :=
  match r with
  | Ok result => success result
  | _ => false
  end.

(** A video-only source with encoders that accept everything. *)
Definition video_only (seconds : float) : Env :=
  collaborators seconds false true true true (fun _ => false) no_events.

(** A source with an audio track and encoders that accept everything. *)
Definition with_audio (seconds : float) : Env :=
  collaborators seconds true true true true (fun _ => false) no_events.

(** Hardware encoding unsupported, software encoding supported. *)
Definition software_only : Env :=
  collaborators (1 / 10)%float false false true true (fun _ => false) no_events.

(** Neither hardware nor software encoding supported. *)
Definition no_encoder : Env :=
  collaborators (1 / 10)%float false false false true (fun _ => false) no_events.

(** The muxer rejects the write of the second video chunk. *)
Definition failing_write : Env :=
  collaborators (1 / 10)%float false true true true (fun k => (k =? 1)%nat) no_events.

(** A source with an audio track, and no support for the Opus
    configuration. *)
Definition no_opus : Env :=
  collaborators (1 / 10)%float true true true false (fun _ => false) no_events.

(** A slow encoder on a 5 s source (150 frames): it hands out no chunk
    during the first 250 awaits, and one chunk per await after that. *)
Definition slow_encoder : Env :=
  collaborators 5%float false true true true (fun _ => false)
    (fun n => if (n <? 250)%nat then [] else [VideoChunkReady]).

End Scenario.


(** * The video file decoder

    [VideoFileDecoder] wraps an [HTMLVideoElement].  The browser is an
    oracle for the moment of one call: [metadata] is what the element
    reports when [loadedmetadata] fires ([None] when [error] fires
    instead), and [captureStream] is what [captureStream()] returns when
    it is called at that moment ([None] when the call throws).  Two calls
    made at different moments each take the browser of their moment.
    Every method returns its result with the calls it has made. *)

Module Decoder.

Inductive TrackKind : Set := audio_kind | video_kind.

Record MediaStreamTrack : Set := mkTrack { kind : TrackKind; trackId : nat }.

(** A [MediaStream], as [getTracks()] lists it. *)
Definition MediaStream : Set := list MediaStreamTrack.

Definition is_audio (track : MediaStreamTrack) : bool :=
  match kind track with
  | audio_kind => true
  | video_kind => false
  end.

(** [stream.getAudioTracks()] *)
Definition getAudioTracks (stream : MediaStream) : list MediaStreamTrack :=
  filter is_audio stream.

Record Metadata : Set := mkMetadata {
  videoWidth : Q;
  videoHeight : Q;
  videoDuration : Q
}.

Record Browser : Set := mkBrowser {
  metadata : option Metadata;
  captureStream : option MediaStream
}.

Record DecodedVideoInfo : Set := mkInfo {
  width : Q;
  height : Q;
  duration : Q;
  frameRate : Q;
  codec : string;
  hasAudio : bool
}.

Record HTMLVideoElement : Set := mkElement {
  src : string;
  preload : string;
  crossOrigin : string
}.

Record VideoFileDecoder : Set := mkDecoder {
  info : option DecodedVideoInfo;
  videoElement : option HTMLVideoElement;
  audioStream : option MediaStream
}.

(** [new VideoFileDecoder()] *)
Definition new_VideoFileDecoder : VideoFileDecoder :=
  {| info := None; videoElement := None; audioStream := None |}.

Inductive Call : Set :=
  | createElement
  | call_captureStream
  | console_warn (text : string)
  | track_stop (track : nat)
  | element_pause
  | element_set_src (value : string)
  | new_MediaStream
  | addTrack (track : nat).

(** The [loadedmetadata] listener of [loadVideo], up to [resolve]. *)
Definition on_loadedmetadata (browser : Browser) (video : Metadata)
    (d : VideoFileDecoder) : DecodedVideoInfo * VideoFileDecoder * list Call :=
  let '(hasAudio, d1, calls) :=
    match captureStream browser with
    | Some stream =>
        let hasAudio := (0 <? List.length (getAudioTracks stream))%nat in
        (hasAudio,
         if hasAudio
         then {| info := info d; videoElement := videoElement d;
                 audioStream := Some stream |}
         else d,
         [call_captureStream])
    | None =>
        (false, d,
         [call_captureStream;
          console_warn "[VideoFileDecoder] Could not check for audio:"])
    end in
  let i := {| width := videoWidth video;
              height := videoHeight video;
              duration := videoDuration video;
              frameRate := 60;
              codec := "avc1.640033";
              hasAudio := hasAudio |} in
  (i,
   {| info := Some i; videoElement := videoElement d1;
      audioStream := audioStream d1 |},
   calls).

(** [async loadVideo(videoUrl)]: the promise resolves with the info
    ([inr]) or rejects with a message ([inl]). *)
Definition loadVideo (browser : Browser) (videoUrl : string)
    (d : VideoFileDecoder) :
  (string + DecodedVideoInfo) * VideoFileDecoder * list Call :=
  let element := {| src := videoUrl; preload := "metadata";
                    crossOrigin := "anonymous" |} in
  let d0 := {| info := info d; videoElement := Some element;
               audioStream := audioStream d |} in
  match metadata browser with
  | Some video =>
      let '(i, d1, calls) := on_loadedmetadata browser video d0 in
      (inr i, d1, createElement :: calls)
  | None =>
      (inl "Failed to load video: [object Event]"%string, d0, [createElement])
  end.

(** [getAudioStream(): MediaStream | null] *)
Definition getAudioStream (browser : Browser) (d : VideoFileDecoder) :
  option MediaStream * list Call :=
  match videoElement d with
  | None => (None, [])
  | Some _ =>
      match captureStream browser with
      | Some stream =>
          let audioTracks := getAudioTracks stream in
          if (0 <? List.length audioTracks)%nat then
            (Some audioTracks,
             [call_captureStream; new_MediaStream]
             ++ map (fun track => addTrack (trackId track)) audioTracks)
          else (None, [call_captureStream])
      | None =>
          (None,
           [call_captureStream;
            console_warn "[VideoFileDecoder] Failed to get audio stream:"])
      end
  end.

(** [getVideoElement()] and [getInfo()] *)
Definition getVideoElement (d : VideoFileDecoder) : option HTMLVideoElement :=
  videoElement d.

Definition getInfo (d : VideoFileDecoder) : option DecodedVideoInfo := info d.

(** [destroy(): void] *)
Definition destroy (d : VideoFileDecoder) : VideoFileDecoder * list Call :=
  let '(d1, stops) :=
    match audioStream d with
    | Some stream =>
        ({| info := info d; videoElement := videoElement d;
            audioStream := None |},
         map (fun track => track_stop (trackId track)) stream)
    | None => (d, [])
    end in
  match videoElement d1 with
  | Some _ =>
      ({| info := info d1; videoElement := None;
          audioStream := audioStream d1 |},
       stops ++ [element_pause; element_set_src EmptyString])
  | None => (d1, stops)
  end.

End Decoder.

(** * The audio frame of [onaudioprocess]

    [processor.onaudioprocess] copies the channels of the input buffer into
    one [Float32Array] and wraps it in an [AudioData].  The input buffer
    is [input channel i], the sample [i] of [getChannelData(channel)]. *)

Module AudioFrame.

(** [audioData[index] = value] on a [Float32Array]: a store outside the
    array is ignored. *)
Fixpoint store (audioData : list Q) (index : nat) (value : Q) : list Q :=
  match audioData, index with
  | [], _ => []
  | _ :: rest, O => value :: rest
  | x :: rest, S index' => x :: store rest index' value
  end.

(** [new Float32Array(n)] *)
Definition new_Float32Array (n : nat) : list Q := repeat 0 n.

(** [for (let i = 0; i < length; i++)
       audioData[i * channels + channel] = channelData[i]] *)
Definition copy_channel (input : nat -> nat -> Q) (length channels : nat)
    (audioData : list Q) (channel : nat) : list Q :=
  fold_left
    (fun audioData i => store audioData (i * channels + channel) (input channel i))
    (seq 0 length) audioData.

(** [const audioData = new Float32Array(length * channels);
     for (let channel = 0; channel < channels; channel++) { ... }] *)
Definition pack (input : nat -> nat -> Q) (length channels : nat) : list Q :=
  fold_left (copy_channel input length channels) (seq 0 channels)
    (new_Float32Array (length * channels)).

(** The layout that the format [f32-planar], which the [AudioData] is
    given, stands for: the samples of channel 0, then those of channel 1,
    and so on. *)
Definition planar (input : nat -> nat -> Q) (length channels : nat) : list Q :=
  flat_map (fun channel => map (input channel) (seq 0 length)) (seq 0 channels).

End AudioFrame.
(** * Properties *)

(** ** Numbers *)



(** ** TimeMapper *)

Example walk_before_trim :
  mapEffectiveToSourceTime (Some [mkTrim 2000 4000]) 1500 == 1500.
Proof. reflexivity. Qed.

Example walk_after_trim :
  mapEffectiveToSourceTime (Some [mkTrim 2000 4000]) 2500 == 4500.
Proof. reflexivity. Qed.

(** *** Sorting *)






(** The stable sort leaves an ascending list as it is. *)
Lemma sort_ascending_id (l : list TrimRegion) :
  ascending l -> sort_by_startMs l = l.
Proof.
  unfold ascending. induction l as [|a l IH]; simpl; intro Hs; [reflexivity|].
  inversion Hs as [|? ? Hl Ha]; subst. rewrite (IH Hl).
  destruct l as [|b l]; [reflexivity|]. simpl.
  inversion Ha as [|? ? Hab _]; subst.
  apply Qle_bool_iff in Hab. now rewrite Hab.
Qed.

(** *** The walk *)












(** ** VideoExporter *)

Lemma run_is_export (env : Env) (config : VideoExporterConfig) (fuel : nat) :
  Scenario.run env config fuel
  = export env config fuel (initial_State new_VideoExporter).
Proof. reflexivity. Qed.

(** *** Quiet steps *)

Lemma bounded_app (B : Z) (s : State) (t : VideoExporter) :
  bounded B s -> (encodeQueue t <= B)%Z ->
  bounded B {| this := t; trace := trace s;
               history := history s ++ [t]; awaits := awaits s |}.
Proof.
  intros [Hh Ht] Hle. split; simpl; [|assumption].
  apply Forall_app. split; [assumption|]. now constructor.
Qed.

Lemma promises_kept_app (s : State) (t : VideoExporter) :
  promises_kept s -> all_fulfilled t ->
  promises_kept {| this := t; trace := trace s;
                   history := history s ++ [t]; awaits := awaits s |}.
Proof.
  intros [Hh Ht] Hf. split; simpl; [|assumption].
  apply Forall_app. split; [assumption|]. now constructor.
Qed.

Lemma quiet_refl (s : State) : quiet s s.
Proof. unfold quiet. auto. Qed.

Lemma quiet_trans (s1 s2 s3 : State) :
  quiet s1 s2 -> quiet s2 s3 -> quiet s1 s3.
Proof.
  intros (T1 & B1 & P1 & A1) (T2 & B2 & P2 & A2).
  split; [congruence|]. split; [|split; auto].
  intros bound Hpos Hb. apply (B2 bound Hpos (B1 bound Hpos Hb)).
Qed.

(** The state after [emit e] and after [assign update]. *)
Lemma quiet_emit (s : State) (e : Event) :
  background e = true ->
  (audio_call e = true -> audioEncoder (this s) <> None) ->
  quiet s (snd (emit e s)).
Proof.
  intros Hb Ha. unfold quiet, emit; simpl.
  split; [|split; [|split]].
  - rewrite filter_app. simpl. unfold foreground. rewrite Hb. simpl.
    apply app_nil_r.
  - intros bound _ Hb'. exact Hb'.
  - auto.
  - intros (H1 & H2 & H3 & H4). split; [assumption|]. split; [assumption|].
    split; [|assumption].
    simpl. rewrite forallb_app, H3. simpl.
    destruct (audio_call e); [|reflexivity]. now destruct Ha.
Qed.

Lemma quiet_assign (s : State) (update : VideoExporter -> VideoExporter) :
  (encodeQueue (update (this s)) <= Z.max 0 (encodeQueue (this s)))%Z ->
  (all_fulfilled (this s) -> all_fulfilled (update (this s))) ->
  (audioEncoder (this s) = None -> audioEncoder (update (this s)) = None) ->
  (audioEncoder (this s) = None -> audioProcessor (this s) = None ->
   audioProcessor (update (this s)) = None) ->
  quiet s (snd (assign update s)).
Proof.
  intros Hq Hp Ha Hap. unfold quiet, assign; simpl.
  split; [reflexivity|split; [|split]].
  - intros bound Hpos Hb. apply bounded_app; [assumption|].
    destruct Hb as [_ Hb]. lia.
  - intros Hk. apply promises_kept_app; [assumption|].
    apply Hp, Hk.
  - intros (H1 & H2 & H3 & H4). split; [|split; [|split]]; simpl; auto.
    apply Forall_app. split; [assumption|]. constructor; auto.
Qed.

Lemma quietly_ret {A : Type} (a : A) : quietly (ret a).
Proof. intro s. split; [now exists a|apply quiet_refl]. Qed.

Lemma quietly_bind {A B : Type} (m : M A) (k : A -> M B) :
  quietly m -> (forall a, quietly (k a)) -> quietly (bind m k).
Proof.
  intros Hm Hk s. unfold bind.
  destruct (Hm s) as [[a Ha] Hq]. destruct (m s) as [r s1]. simpl in *. subst r.
  destruct (Hk a s1) as [Hr Hq']. split; [exact Hr|].
  eapply quiet_trans; eassumption.
Qed.

Lemma quietly_read {A : Type} (field : VideoExporter -> A) :
  quietly (read field).
Proof. intro s. split; [now eexists|apply quiet_refl]. Qed.

(** A read whose value the continuation depends on. *)
Lemma quietly_read_bind {A B : Type} (field : VideoExporter -> A)
    (k : A -> M B) :
  (forall s, (exists b, fst (k (field (this s)) s) = Ok b)
             /\ quiet s (snd (k (field (this s)) s))) ->
  quietly (bind (read field) k).
Proof. intros H s. exact (H s). Qed.

Lemma quietly_when_set {A : Type} (field : VideoExporter -> option A)
    (body : A -> M unit) :
  (forall s a, field (this s) = Some a ->
               (exists u, fst (body a s) = Ok u) /\ quiet s (snd (body a s))) ->
  quietly (when_set field body).
Proof.
  intros H s. unfold when_set, bind, read. simpl.
  destruct (field (this s)) as [a|] eqn:E.
  - now apply H.
  - split; [now exists tt|apply quiet_refl].
Qed.

Lemma quietly_callback (handler : M unit) :
  calmly handler -> quietly (callback handler).
Proof.
  intros H s. unfold callback, try_catch. destruct (H s) as [Hr Hq].
  destruct (handler s) as [[u|e|] s1]; simpl in *.
  - split; [now exists u|assumption].
  - split; [now exists tt|assumption].
  - congruence.
Qed.

Lemma quietly_calmly {A : Type} (m : M A) : quietly m -> calmly m.
Proof.
  intros H s. destruct (H s) as [[a Ha] Hq]. split; [congruence|assumption].
Qed.

Lemma calmly_bind {A B : Type} (m : M A) (k : A -> M B) :
  calmly m -> (forall a, calmly (k a)) -> calmly (bind m k).
Proof.
  intros Hm Hk s. unfold bind.
  destruct (Hm s) as [Hr Hq]. destruct (m s) as [[a|e|] s1]; simpl in *.
  - destruct (Hk a s1) as [Hr' Hq']. split; [exact Hr'|].
    eapply quiet_trans; eassumption.
  - split; [discriminate|assumption].
  - congruence.
Qed.

Lemma calmly_throw {A : Type} (e : Exn) : calmly (@throw A e).
Proof. intro s. split; [discriminate|apply quiet_refl]. Qed.

Lemma calmly_settle (outcome : option Exn) : calmly (settle outcome).
Proof.
  destruct outcome; [apply calmly_throw|apply quietly_calmly, quietly_ret].
Qed.

Lemma calmly_deref {A : Type} (field : VideoExporter -> option A) :
  calmly (deref field).
Proof.
  intro s. unfold deref, bind, read. simpl.
  destruct (field (this s)); simpl; (split; [discriminate|apply quiet_refl]).
Qed.

Lemma quietly_try_catch {A : Type} (m : M A) (handler : Exn -> M A) :
  calmly m -> (forall e, quietly (handler e)) -> quietly (try_catch m handler).
Proof.
  intros Hm Hh s. unfold try_catch. destruct (Hm s) as [Hr Hq].
  destruct (m s) as [[a|e|] s1]; simpl in *.
  - split; [now exists a|assumption].
  - destruct (Hh e s1) as [Hr' Hq']. split; [exact Hr'|].
    eapply quiet_trans; eassumption.
  - congruence.
Qed.

Lemma quietly_promise_of (task : M unit) :
  calmly task -> quietly (promise_of task).
Proof.
  intros H s. unfold promise_of. destruct (H s) as [Hr Hq].
  destruct (task s) as [[u|e|] s1]; simpl in *.
  - split; [now eexists|assumption].
  - split; [now eexists|assumption].
  - congruence.
Qed.

Lemma quietly_for_each {A : Type} (l : list A) (body : A -> M unit) :
  (forall a, quietly (body a)) -> quietly (for_each l body).
Proof.
  intro H. induction l as [|a l IH]; simpl.
  - apply quietly_ret.
  - apply quietly_bind; [apply H|intros _; exact IH].
Qed.

Lemma quietly_repeat_times (n : nat) (m : M unit) :
  quietly m -> quietly (repeat_times n m).
Proof.
  intro H. induction n as [|n IH]; simpl.
  - apply quietly_ret.
  - apply quietly_bind; [exact H|intros _; exact IH].
Qed.

Lemma quietly_emit (e : Event) :
  background e = true -> audio_call e = false -> quietly (emit e).
Proof.
  intros Hb Ha s. split; [now exists tt|].
  apply quiet_emit; [assumption|]. congruence.
Qed.


Lemma quietly_assign (update : VideoExporter -> VideoExporter) :
  (forall t, (encodeQueue (update t) <= Z.max 0 (encodeQueue t))%Z) ->
  (forall t, all_fulfilled t -> all_fulfilled (update t)) ->
  (forall t, audioEncoder t = None -> audioEncoder (update t) = None) ->
  (forall t, audioProcessor t = None -> audioProcessor (update t) = None) ->
  quietly (assign update).
Proof.
  intros Hq Hp Ha Hap s. split; [now exists tt|].
  apply quiet_assign; auto.
Qed.

(** Discharges the side conditions of an assignment that leaves the
    fields in question alone, or resets them. *)
Ltac field_facts :=
  intros; unfold all_fulfilled in *; cbn in *;
  try assumption; try reflexivity; try lia; try constructor; auto.

Lemma quietly_guarded (env : Env) (call : Teardown) (e : Event)
    (warning : string) :
  background e = true -> audio_call e = false ->
  quietly (guarded env call e warning).
Proof.
  intros Hb Ha. unfold guarded. apply quietly_try_catch.
  - apply calmly_bind; [now apply quietly_calmly, quietly_emit|intros _].
    destruct (teardownThrows env call);
      [apply calmly_throw|apply quietly_calmly, quietly_ret].
  - intros _. apply quietly_emit; reflexivity.
Qed.

Lemma quietly_when_set_any {A : Type} (field : VideoExporter -> option A)
    (body : A -> M unit) :
  (forall a, quietly (body a)) -> quietly (when_set field body).
Proof.
  intro H. apply quietly_when_set. intros s a _. apply H.
Qed.

Lemma quietly_if {A : Type} (b : bool) (m1 m2 : M A) :
  quietly m1 -> quietly m2 -> quietly (if b then m1 else m2).
Proof. now destruct b. Qed.

(** Walks a sequence of quiet statements. *)
Ltac quiet_walk :=
  repeat lazymatch goal with
    | |- quietly (ret _) => apply quietly_ret
    | |- quietly (read _) => apply quietly_read
    | |- quietly (when_set _ _) => apply quietly_when_set_any; intro
    | |- quietly (bind _ _) => apply quietly_bind; [|intro]
    | |- quietly (match ?x with _ => _ end) => destruct x
    | |- quietly (guarded _ _ _ _) => apply quietly_guarded; reflexivity
    | |- quietly (emit _) => apply quietly_emit; reflexivity
    | |- quietly (console _ _) => unfold console
    | |- quietly (assign _) => apply quietly_assign; field_facts; fail
    end.

Lemma quietly_cleanup (env : Env) : quietly (cleanup env).
Proof. unfold cleanup. quiet_walk. Qed.

Lemma quietly_cancel (env : Env) : quietly (cancel env).
Proof.
  unfold cancel. apply quietly_bind; [quiet_walk|intros _; apply quietly_cleanup].
Qed.

Lemma calmly_if {A : Type} (b : bool) (m1 m2 : M A) :
  calmly m1 -> calmly m2 -> calmly (if b then m1 else m2).
Proof. now destruct b. Qed.

(** Walks a sequence of statements that may throw. *)
Ltac calm_walk :=
  repeat lazymatch goal with
    | |- calmly (throw _) => apply calmly_throw
    | |- calmly (settle _) => apply calmly_settle
    | |- calmly (deref _) => apply calmly_deref
    | |- calmly (bind _ _) => apply calmly_bind; [|intro]
    | |- calmly (match ?x with _ => _ end) => destruct x
    | |- calmly _ => apply quietly_calmly; quiet_walk
    end.

Lemma calmly_muxer_addVideoChunk (env : Env) (index : nat)
    (metadata : ChunkMetadata) :
  calmly (muxer_addVideoChunk env index metadata).
Proof. unfold muxer_addVideoChunk. calm_walk. Qed.

(** The task that writes a video chunk never throws: whatever the muxer
    does, the [catch] turns it into a log line. *)
Lemma quietly_videoMuxingTask (env : Env) (index : nat) (isFirstChunk : bool)
    (meta : option DecoderConfig) :
  quietly (videoMuxingTask env index isFirstChunk meta).
Proof.
  unfold videoMuxingTask. apply quietly_try_catch.
  - apply calmly_bind; [apply quietly_calmly, quietly_read|intros vd].
    destruct isFirstChunk, vd; try apply calmly_muxer_addVideoChunk.
    apply calmly_bind; [apply quietly_calmly, quietly_read|intros cs].
    apply calmly_muxer_addVideoChunk.
  - intros _. apply quietly_emit; reflexivity.
Qed.

Lemma quiet_tick (s : State) :
  quiet s {| this := this s; trace := trace s; history := history s;
             awaits := S (awaits s) |}.
Proof.
  unfold quiet, bounded, promises_kept, audio_off. simpl. auto.
Qed.

(** Pushing the promise of a task that cannot throw, and taking the
    chunk off the counter. *)
Lemma quietly_push_and_decrement (task : M unit) :
  quietly task ->
  quietly (muxingPromise <- promise_of task ;;
           promises <- read muxingPromises ;;
           assign (set_muxingPromises (promises ++ [muxingPromise])) ;;
           queue <- read encodeQueue ;;
           assign (set_encodeQueue (queue - 1)%Z)).
Proof.
  intros Htask s. destruct (Htask s) as [[u Hu] Hq].
  unfold bind, promise_of, read.
  destruct (task s) as [r s1]. simpl in Hu, Hq. subst r.
  split; [now exists tt|].
  pose (push := fun t => set_muxingPromises (muxingPromises t ++ [fulfilled]) t).
  pose (decrement := fun t => set_encodeQueue (encodeQueue t - 1)%Z t).
  change (quiet s (snd (assign decrement (snd (assign push s1))))).
  eapply quiet_trans; [exact Hq|].
  eapply quiet_trans; apply quiet_assign; subst push decrement; field_facts.
  apply Forall_app. split; [assumption|]. now constructor.
Qed.

Lemma quietly_push (task : M unit) :
  quietly task ->
  quietly (muxingPromise <- promise_of task ;;
           promises <- read muxingPromises ;;
           assign (set_muxingPromises (promises ++ [muxingPromise]))).
Proof.
  intros Htask s. destruct (Htask s) as [[u Hu] Hq].
  unfold bind, promise_of, read.
  destruct (task s) as [r s1]. simpl in Hu, Hq. subst r.
  split; [now exists tt|].
  pose (push := fun t => set_muxingPromises (muxingPromises t ++ [fulfilled]) t).
  change (quiet s (snd (assign push s1))).
  eapply quiet_trans; [exact Hq|].
  apply quiet_assign; subst push; field_facts.
  apply Forall_app. split; [assumption|]. now constructor.
Qed.

Lemma calmly_videoOutput (env : Env) (meta : option DecoderConfig) :
  calmly (videoOutput env meta).
Proof.
  unfold videoOutput.
  apply calmly_bind; [apply calmly_deref|intros enc].
  apply calmly_bind.
  { destruct meta as [[[desc|] cs]|]; try apply quietly_calmly, quietly_ret.
    destruct (capturedDescription enc);
      apply quietly_calmly; quiet_walk. }
  intros _. apply calmly_bind; [apply quietly_calmly, quietly_read|intros vcs].
  apply calmly_bind.
  { destruct meta as [[d [cs|]]|], vcs; apply quietly_calmly; quiet_walk. }
  intros _. apply calmly_bind; [apply quietly_calmly, quietly_read|intros count].
  apply calmly_bind; [apply quietly_calmly; quiet_walk|intros _].
  apply quietly_calmly, quietly_push_and_decrement, quietly_videoMuxingTask.
Qed.

Lemma quietly_deliver_video_chunk (env : Env) :
  quietly (deliver_video_chunk env).
Proof.
  unfold deliver_video_chunk. apply quietly_when_set_any. intros enc.
  apply quietly_if; [|apply quietly_ret].
  apply quietly_bind; [quiet_walk|intros _].
  apply quietly_bind; [apply quietly_read|intros count].
  apply quietly_callback, calmly_videoOutput.
Qed.

Lemma quietly_fail_video_encoder : quietly fail_video_encoder.
Proof.
  unfold fail_video_encoder. apply quietly_when_set_any. intros enc.
  apply quietly_if; [|apply quietly_ret].
  apply quietly_bind; [quiet_walk|intros _].
  apply quietly_callback, quietly_calmly. unfold videoError, console. quiet_walk.
Qed.

(** A run that starts with the audio encoder in place has nothing to show
    for the audio path; the three other parts of [quiet] are checked on
    the states the run goes through. *)
Ltac quiet_from_audio_on E :=
  unfold quiet, bounded, promises_kept, all_fulfilled; cbn;
  split; [|split; [|split]];
  [ rewrite ?filter_app; cbn; rewrite ?app_nil_r; reflexivity
  | intros bound Hpos [Hh Ht]; split;
    [ rewrite ?Forall_app; repeat split; try assumption;
      repeat constructor; cbn; lia
    | cbn; lia ]
  | intros [Hh Ht]; split;
    [ rewrite ?Forall_app; repeat split; try assumption;
      repeat constructor; cbn; rewrite ?Forall_app; repeat split;
      try assumption; repeat constructor
    | cbn; rewrite ?Forall_app; repeat split; try assumption;
      repeat constructor ]
  | intros [Hoff _]; rewrite E in Hoff; discriminate ].

Lemma quietly_deliver_audio_chunk (env : Env) :
  quietly (deliver_audio_chunk env).
Proof.
  unfold deliver_audio_chunk. apply quietly_when_set. intros s a E.
  destruct (is_configured (audioState a) && (0 <? audioPending a)%nat);
    [|split; [now exists tt|apply quiet_refl]].
  unfold audioOutput, callback, try_catch, promise_of, audioMuxingTask,
    muxer_addAudioChunk, deref, settle, console, bind, read, assign, emit,
    try_catch, throw, ret.
  cbn.
  destruct (muxer (this s)) as [m|]; cbn;
    [destruct (addAudioChunk env (audioChunkCount (this s))); cbn|];
    (split; [now exists tt|quiet_from_audio_on E]).
Qed.

Lemma quietly_fail_audio_encoder : quietly fail_audio_encoder.
Proof.
  unfold fail_audio_encoder. apply quietly_when_set. intros s a E.
  destruct (is_configured (audioState a));
    [|split; [now exists tt|apply quiet_refl]].
  unfold callback, try_catch, console, bind, assign, emit. cbn.
  split; [now exists tt|quiet_from_audio_on E].
Qed.

Lemma quietly_onaudioprocess : quietly (callback onaudioprocess).
Proof.
  intro s. unfold callback, try_catch, onaudioprocess, bind, read. cbn.
  destruct (audioEncoder (this s)) as [a|] eqn:E;
    [|split; [now exists tt|apply quiet_refl]].
  destruct (is_configured (audioState a) && negb (cancelled (this s)));
    [|split; [now exists tt|apply quiet_refl]].
  unfold bind, assign, emit. cbn.
  split; [now exists tt|quiet_from_audio_on E].
Qed.

Lemma quietly_handle (env : Env) (ev : AsyncEvent) : quietly (handle env ev).
Proof.
  destruct ev; simpl.
  - apply quietly_deliver_video_chunk.
  - apply quietly_fail_video_encoder.
  - apply quietly_deliver_audio_chunk.
  - apply quietly_fail_audio_encoder.
  - apply quietly_when_set_any. intros _. apply quietly_onaudioprocess.
  - apply quietly_cancel.
Qed.

(** A suspension point is quiet. *)
Lemma quietly_await (env : Env) : quietly (await env).
Proof.
  intro s. unfold await.
  destruct (quietly_for_each (schedule env (awaits s)) (handle env)
              (quietly_handle env)
              {| this := this s; trace := trace s; history := history s;
                 awaits := S (awaits s) |}) as [Hr Hq].
  split; [exact Hr|].
  eapply quiet_trans; [apply quiet_tick|exact Hq].
Qed.

(** *** Teardown *)

Lemma logs_guarded (env : Env) (call : Teardown) (e : Event) (warning : string) :
  logs (fun tr => In e tr) (guarded env call e warning).
Proof.
  intro s. unfold guarded, try_catch, bind, emit, console, throw, ret. cbn.
  destruct (teardownThrows env call); cbn.
  - exists [e; E_console console_warn warning]. split; [now left|].
    unfold emit. cbn. now rewrite <- app_assoc.
  - exists [e]. split; [now left|reflexivity].
Qed.

Lemma logs_if_configured (b : bool) (e : Event) (m : M unit) :
  logs (fun tr => In e tr) m ->
  logs (fun tr => b = true -> In e tr) (if b then m else ret tt).
Proof.
  intros H s. destruct b.
  - destruct (H s) as (tr & Hin & E). exists tr. split; [auto|exact E].
  - exists []. split; [discriminate|]. unfold ret. rewrite app_nil_r.
    now destruct s.
Qed.

Lemma logs_emit (e : Event) : logs (fun tr => In e tr) (emit e).
Proof. intro s. exists [e]. split; [now left|reflexivity]. Qed.

(** One block [if (this.f) { release; this.f = null }] of [cleanup]. *)
Lemma release_block {A : Type} (field : VideoExporter -> option A)
    (setter : option A -> VideoExporter -> VideoExporter)
    (release : A -> M unit) (P : A -> list Event -> Prop) :
  (forall a, logs (P a) (release a)) ->
  (forall t, field t = None -> setter None t = t) ->
  forall s, exists tr h,
    when_set field (fun a => release a ;; assign (setter None)) s
    = (Ok tt, {| this := setter None (this s); trace := trace s ++ tr;
                 history := history s ++ h; awaits := awaits s |})
    /\ (forall a, field (this s) = Some a -> P a tr).
Proof.
  intros Hrel Hnone s. unfold when_set, bind at 1, read. cbn.
  destruct (field (this s)) as [a|] eqn:E.
  - destruct (Hrel a s) as (tr & HP & Erel).
    exists tr, [setter None (this s)]. split.
    + unfold bind. rewrite Erel. reflexivity.
    + intros a' Ha'. now inversion Ha'; subst.
  - exists [], []. split; [|discriminate].
    unfold ret. rewrite !app_nil_r, (Hnone _ E). now destruct s.
Qed.

(** Runs the next block of [cleanup] with [release_block]; [tac] shows
    that the release only logs. *)
Ltac release_step field setter P tac tr h M :=
  match goal with
  | |- context [bind (when_set field (fun a => bind (@?r a) _)) _ ?st] =>
      let E := fresh "E" in
      let Hl := fresh "Hl" in
      assert (Hl : forall a, logs (P a) (r a)) by (intro; tac);
      destruct (release_block field setter r P Hl
                  ltac:(now intros [] E'; simpl in E'; subst) st)
        as (tr & h & E & M);
      unfold bind at 1; rewrite E; clear E Hl;
      cbn [this trace history awaits]
  end.

Lemma state_eq (t t' : VideoExporter) (tr tr' : list Event)
    (h h' : list VideoExporter) (n n' : nat) :
  t = t' -> tr = tr' -> h = h' -> n = n' ->
  {| this := t; trace := tr; history := h; awaits := n |}
  = {| this := t'; trace := tr'; history := h'; awaits := n' |}.
Proof. now intros -> -> -> ->. Qed.

(** What [cleanup] does, from any state: it returns without suspending,
    leaves [torn_down], and has called the teardown of every collaborator
    the exporter held. *)
Lemma cleanup_spec (env : Env) (s : State) :
  exists tr h,
    cleanup env s
    = (Ok tt, {| this := torn_down (cancelled (this s));
                 trace := trace s ++ tr; history := history s ++ h;
                 awaits := awaits s |})
    /\ (audioProcessor (this s) <> None -> In E_processorDisconnect tr)
    /\ (audioSource (this s) <> None -> In E_sourceDisconnect tr)
    /\ (audioContext (this s) <> None -> In E_audioContextClose tr)
    /\ (forall a, audioEncoder (this s) = Some a ->
                  is_configured (audioState a) = true ->
                  In E_audioEncoderClose tr)
    /\ (forall e, encoder (this s) = Some e ->
                  is_configured (state e) = true -> In E_encoderClose tr)
    /\ (decoder (this s) <> None -> In E_decoderDestroy tr)
    /\ (renderer (this s) <> None -> In E_rendererDestroy tr).
Proof.
  unfold cleanup.
  release_step audioProcessor set_audioProcessor
    (fun (_ : ScriptProcessorNode) tr => In E_processorDisconnect tr)
    ltac:(apply logs_guarded) tr1 h1 M1.
  release_step audioSource set_audioSource
    (fun (_ : MediaStreamAudioSourceNode) tr => In E_sourceDisconnect tr)
    ltac:(apply logs_guarded) tr2 h2 M2.
  release_step audioContext set_audioContext
    (fun (_ : AudioContext) tr => In E_audioContextClose tr)
    ltac:(apply logs_emit) tr3 h3 M3.
  release_step audioEncoder set_audioEncoder
    (fun (a : AudioEncoder) tr =>
       is_configured (audioState a) = true -> In E_audioEncoderClose tr)
    ltac:(apply logs_if_configured, logs_guarded) tr4 h4 M4.
  release_step encoder set_encoder
    (fun (e : VideoEncoder) tr =>
       is_configured (state e) = true -> In E_encoderClose tr)
    ltac:(apply logs_if_configured, logs_guarded) tr5 h5 M5.
  release_step decoder set_decoder
    (fun (_ : VideoFileDecoder) tr => In E_decoderDestroy tr)
    ltac:(apply logs_guarded) tr6 h6 M6.
  release_step renderer set_renderer
    (fun (_ : FrameRenderer) tr => In E_rendererDestroy tr)
    ltac:(apply logs_guarded) tr7 h7 M7.
  unfold bind, assign. cbn [this trace history awaits].
  exists (tr1 ++ tr2 ++ tr3 ++ tr4 ++ tr5 ++ tr6 ++ tr7).
  eexists. split.
  - apply f_equal. apply state_eq.
    + destruct (this s). reflexivity.
    + now rewrite <- !app_assoc.
    + rewrite <- !app_assoc. reflexivity.
    + reflexivity.
  - repeat split.
    + intro H. destruct (audioProcessor (this s)) as [a|] eqn:E; [|congruence].
      apply in_or_app. left. now apply (M1 a).
    + intro H. destruct (audioSource (this s)) as [a|] eqn:E; [|congruence].
      apply in_or_app. right. apply in_or_app. left. now apply (M2 a).
    + intro H. destruct (audioContext (this s)) as [a|] eqn:E; [|congruence].
      do 2 (apply in_or_app; right). apply in_or_app. left. now apply (M3 a).
    + intros a Ha Hc.
      do 3 (apply in_or_app; right). apply in_or_app. left. now apply (M4 a).
    + intros e He Hc.
      do 4 (apply in_or_app; right). apply in_or_app. left. now apply (M5 e).
    + intro H. destruct (decoder (this s)) as [a|] eqn:E; [|congruence].
      do 5 (apply in_or_app; right). apply in_or_app. left. now apply (M6 a).
    + intro H. destruct (renderer (this s)) as [a|] eqn:E; [|congruence].
      do 6 (apply in_or_app; right). now apply (M7 a).
Qed.

(** C10. [cancel()] sets the flag and runs [cleanup()] before it returns:
    from any state it returns without passing a suspension point, and on
    return [cancelled] is set, the references to the audio processor, audio
    source, audio context, audio encoder, video encoder, decoder, renderer
    and muxer are all [null], [encodeQueue] is [0] and [muxingPromises] is
    empty; the teardown call of every collaborator that was held
    ([disconnect], [close] on a configured encoder, [destroy]) has been
    made by then. *)
Theorem cancel_tears_down_at_once (env : Env) (s : State) :
  let s' := snd (cancel env s) in
  fst (cancel env s) = Ok tt
  /\ awaits s' = awaits s
  /\ cancelled (this s') = true
  /\ (audioProcessor (this s') = None /\ audioSource (this s') = None
      /\ audioContext (this s') = None /\ audioEncoder (this s') = None
      /\ encoder (this s') = None /\ decoder (this s') = None
      /\ renderer (this s') = None /\ muxer (this s') = None)
  /\ encodeQueue (this s') = 0%Z
  /\ muxingPromises (this s') = []
  /\ (audioProcessor (this s) <> None -> In E_processorDisconnect (trace s'))
  /\ (audioSource (this s) <> None -> In E_sourceDisconnect (trace s'))
  /\ (audioContext (this s) <> None -> In E_audioContextClose (trace s'))
  /\ (forall a, audioEncoder (this s) = Some a ->
                is_configured (audioState a) = true ->
                In E_audioEncoderClose (trace s'))
  /\ (forall e, encoder (this s) = Some e ->
                is_configured (state e) = true -> In E_encoderClose (trace s'))
  /\ (decoder (this s) <> None -> In E_decoderDestroy (trace s'))
  /\ (renderer (this s) <> None -> In E_rendererDestroy (trace s')).
Proof.
  unfold cancel, bind at 1, assign.
  match goal with |- context [cleanup env ?st] =>
    destruct (cleanup_spec env st)
      as (tr & h & E & Hp & Hs & Hc & Ha & He & Hd & Hr) end.
  cbn in *. rewrite E. cbn.
  repeat (split; [reflexivity|]).
  repeat split; intros; apply in_or_app; right; eauto.
Qed.

(** *** Invariants along a run *)

Section Keeps.

Variable I : State -> Prop.

Lemma keeps_ret {A : Type} (a : A) : keeps I (ret a).
Proof. now intros s H. Qed.

Lemma keeps_throw {A : Type} (e : Exn) : keeps I (@throw A e).
Proof. now intros s H. Qed.

Lemma keeps_timeout {A : Type} : keeps I (@timeout A).
Proof. now intros s H. Qed.

Lemma keeps_read {A : Type} (field : VideoExporter -> A) : keeps I (read field).
Proof. now intros s H. Qed.

Lemma keeps_bind {A B : Type} (m : M A) (k : A -> M B) :
  keeps I m -> (forall a, keeps I (k a)) -> keeps I (bind m k).
Proof.
  intros Hm Hk s H. unfold bind. specialize (Hm s H).
  destruct (m s) as [[a|e|] s1]; simpl in *; [now apply Hk|assumption..].
Qed.

Lemma keeps_if {A : Type} (b : bool) (m1 m2 : M A) :
  keeps I m1 -> keeps I m2 -> keeps I (if b then m1 else m2).
Proof. now destruct b. Qed.

Lemma keeps_settle (outcome : option Exn) : keeps I (settle outcome).
Proof. destruct outcome; [apply keeps_throw|apply keeps_ret]. Qed.

Lemma keeps_deref {A : Type} (field : VideoExporter -> option A) :
  keeps I (deref field).
Proof.
  intros s H. unfold deref, bind, read. simpl.
  now destruct (field (this s)).
Qed.

Lemma keeps_when_set {A : Type} (field : VideoExporter -> option A)
    (body : A -> M unit) :
  (forall a, keeps I (body a)) -> keeps I (when_set field body).
Proof.
  intros Hb s H. unfold when_set, bind, read. simpl.
  destruct (field (this s)); [now apply Hb|assumption].
Qed.

Lemma keeps_try_catch {A : Type} (m : M A) (handler : Exn -> M A) :
  keeps I m -> (forall e, keeps I (handler e)) -> keeps I (try_catch m handler).
Proof.
  intros Hm Hh s H. unfold try_catch. specialize (Hm s H).
  destruct (m s) as [[a|e|] s1]; simpl in *; [assumption|now apply Hh|assumption].
Qed.

Lemma keeps_try_finally {A : Type} (m : M A) (finalizer : M unit) :
  keeps I m -> keeps I finalizer -> keeps I (try_finally m finalizer).
Proof.
  intros Hm Hf s H. unfold try_finally. specialize (Hm s H).
  destruct (m s) as [[a|e|] s1]; simpl in *; [| |assumption];
    specialize (Hf s1 Hm); destruct (finalizer s1) as [[u|e'|] s2]; assumption.
Qed.

Lemma keeps_promise_of (task : M unit) : keeps I task -> keeps I (promise_of task).
Proof.
  intros Ht s H. unfold promise_of. specialize (Ht s H).
  now destruct (task s) as [[u|e|] s1].
Qed.

Lemma keeps_callback (handler : M unit) : keeps I handler -> keeps I (callback handler).
Proof.
  intro Hh. unfold callback. apply keeps_try_catch; [assumption|].
  intros _. apply keeps_ret.
Qed.

Lemma keeps_for_each {A : Type} (l : list A) (body : A -> M unit) :
  (forall a, keeps I (body a)) -> keeps I (for_each l body).
Proof.
  intro Hb. induction l as [|a l IH]; simpl.
  - apply keeps_ret.
  - apply keeps_bind; [apply Hb|intros _; exact IH].
Qed.

Lemma keeps_repeat_times (n : nat) (m : M unit) :
  keeps I m -> keeps I (repeat_times n m).
Proof.
  intro Hm. induction n as [|n IH]; simpl.
  - apply keeps_ret.
  - apply keeps_bind; [exact Hm|intros _; exact IH].
Qed.

Lemma keeps_await (env : Env) :
  (forall s, I s ->
     I {| this := this s; trace := trace s; history := history s;
          awaits := S (awaits s) |}) ->
  (forall ev, keeps I (handle env ev)) -> keeps I (await env).
Proof.
  intros Htick Hh s H. unfold await.
  now apply keeps_for_each, Htick.
Qed.

End Keeps.

(** What every bounded run of the loop keeps, the loop keeps whatever its
    bound. *)
Lemma keeps_run_frames (I : State -> Prop) (env : Env)
    (config : VideoExporterConfig) (fuel : nat) (totalFrames : float) :
  (forall remaining frameIndex,
      keeps I (frame_loop env config fuel totalFrames remaining frameIndex)) ->
  keeps I (run_frames env config fuel totalFrames).
Proof.
  intro Hloop. unfold run_frames.
  destruct (Binary64.iterations totalFrames); [apply Hloop|].
  apply keeps_bind; [apply Hloop|intros _].
  apply keeps_bind; [apply keeps_read|intros c].
  destruct c; [apply keeps_ret|apply keeps_timeout].
Qed.

(** Walks the structure of a computation, leaving its assignments and
    calls. *)
Ltac keeps_walk :=
  repeat lazymatch goal with
    | |- keeps _ (ret _) => apply keeps_ret
    | |- keeps _ (read _) => apply keeps_read
    | |- keeps _ (throw _) => apply keeps_throw
    | |- keeps _ timeout => apply keeps_timeout
    | |- keeps _ (settle _) => apply keeps_settle
    | |- keeps _ (deref _) => apply keeps_deref
    | |- keeps _ (when_set _ _) => apply keeps_when_set; intro
    | |- keeps _ (callback _) => apply keeps_callback
    | |- keeps _ (promise_of _) => apply keeps_promise_of
    | |- keeps _ (try_catch _ _) => apply keeps_try_catch; [|intro]
    | |- keeps _ (repeat_times _ _) => apply keeps_repeat_times
    | |- keeps _ (bind _ _) => apply keeps_bind; [|intro]
    | |- keeps _ (match ?x with _ => _ end) => destruct x
    | |- keeps _ (console _ _) => unfold console
    end.

(** *** Cancellation and the encoder *)

Lemma not_cancelled_assign (update : VideoExporter -> VideoExporter) :
  (forall t, cancelled (update t) = cancelled t) ->
  keeps not_cancelled (assign update).
Proof. intros H s Hs. unfold not_cancelled in *. simpl. now rewrite H. Qed.

Lemma unarmed_assign (update : VideoExporter -> VideoExporter) :
  (forall t, armed (update t) = armed t) ->
  keeps unarmed (assign update).
Proof. intros H s Hs. unfold unarmed in *. simpl. now rewrite H. Qed.

Lemma disarmed_assign (update : VideoExporter -> VideoExporter) :
  (forall t, cancelled (update t) = cancelled t) ->
  (forall t, armed (update t) = armed t) ->
  keeps disarmed_if_cancelled (assign update).
Proof.
  intros Hc Ha s Hs. unfold disarmed_if_cancelled in *. simpl.
  now rewrite Hc, Ha.
Qed.

(** The [output] callback does not touch the cancellation flag. *)
Lemma not_cancelled_deliver_video_chunk (env : Env) :
  keeps not_cancelled (deliver_video_chunk env).
Proof.
  unfold deliver_video_chunk, videoOutput, videoMuxingTask,
    muxer_addVideoChunk, console.
  keeps_walk; try (apply not_cancelled_assign; reflexivity); now intros s H.
Qed.

Lemma disarmed_handle (env : Env) (ev : AsyncEvent) :
  keeps disarmed_if_cancelled (handle env ev).
Proof.
  destruct ev; simpl.
  - (* a chunk is delivered: only by a configured encoder, which the
       exporter holds only while not cancelled *)
    intros s J. unfold disarmed_if_cancelled in *.
    destruct (bool_dec (armed (this s)) true) as [Ha|Ha].
    + assert (Hc : not_cancelled s).
      { unfold not_cancelled. destruct (cancelled (this s)); [|reflexivity].
        specialize (J eq_refl). congruence. }
      apply (not_cancelled_deliver_video_chunk env) in Hc.
      unfold not_cancelled in Hc. congruence.
    + apply not_true_is_false in Ha.
      unfold deliver_video_chunk, when_set, bind, read. simpl.
      unfold armed in Ha. destruct (encoder (this s)) as [enc|] eqn:E.
      * rewrite Ha. simpl. unfold armed. now rewrite E.
      * simpl. unfold armed. now rewrite E.
  - (* the encoder fails: it is closed before the callback sets the flag *)
    intros s J. unfold disarmed_if_cancelled. intros _.
    unfold fail_video_encoder, when_set, bind at 1, read. simpl.
    destruct (encoder (this s)) as [enc|] eqn:E.
    + destruct (is_configured (state enc)) eqn:Hs.
      * reflexivity.
      * simpl. unfold armed. now rewrite E.
    + simpl. unfold armed. now rewrite E.
  - unfold deliver_audio_chunk, audioOutput, audioMuxingTask,
      muxer_addAudioChunk, console.
    keeps_walk; try (apply disarmed_assign; reflexivity); now intros s H.
  - unfold fail_audio_encoder, console.
    keeps_walk; try (apply disarmed_assign; reflexivity); now intros s H.
  - unfold onaudioprocess.
    keeps_walk; try (apply disarmed_assign; reflexivity); now intros s H.
  - (* [cancel()]: the encoder reference is dropped *)
    intros s _. unfold disarmed_if_cancelled. intros _.
    unfold cancel, bind at 1, assign.
    match goal with |- context [cleanup env ?st] =>
      destruct (cleanup_spec env st) as (tr & h & E & _) end.
    rewrite E. reflexivity.
Qed.

Lemma disarmed_await (env : Env) : keeps disarmed_if_cancelled (await env).
Proof.
  apply keeps_await; [now intros s H|apply disarmed_handle].
Qed.

(** *** Properties kept along [export] *)

(** Walks the exporter's own code: suspension points, calls on the
    collaborators, and assignments that leave the counter and the
    promises alone or reset them.  [Hquietly] turns a quiet computation
    into one that keeps the property, [Hemit] and [Hassign] are the facts
    about calls and assignments. *)
Ltac along_walk Hquietly Hemit Hassign :=
  repeat lazymatch goal with
    | |- keeps _ (await _) => apply Hquietly, quietly_await
    | |- keeps _ (cleanup _) => apply Hquietly, quietly_cleanup
    | |- keeps _ (deliver_video_chunk _) =>
        apply Hquietly, quietly_deliver_video_chunk
    | |- keeps _ (deliver_audio_chunk _) =>
        apply Hquietly, quietly_deliver_audio_chunk
    | |- keeps _ (emit _) => apply Hemit; reflexivity
    | |- keeps _ (assign _) => apply Hassign; field_facts; fail
    | |- keeps _ (console _ _) => unfold console
    | |- keeps _ (ret _) => apply keeps_ret
    | |- keeps _ (read _) => apply keeps_read
    | |- keeps _ (throw _) => apply keeps_throw
    | |- keeps _ timeout => apply keeps_timeout
    | |- keeps _ (settle _) => apply keeps_settle
    | |- keeps _ (deref _) => apply keeps_deref
    | |- keeps _ (repeat_times _ _) => apply keeps_repeat_times
    | |- keeps _ (try_catch _ _) => apply keeps_try_catch; [|intro]
    | |- keeps _ (bind _ _) => apply keeps_bind; [|intro]
    | |- keeps _ (match ?x with _ => _ end) => destruct x
    end.

Section Along.

(** A property of the run that quiet steps keep, that calls on the
    collaborators do not affect, and that an assignment keeps when it
    neither raises the counter nor adds a rejected promise. *)
Variable P : State -> Prop.
Hypothesis P_quiet : forall s s', quiet s s' -> P s -> P s'.
Hypothesis P_emit : forall e, keeps P (emit e).
Hypothesis P_assign :
  forall update : VideoExporter -> VideoExporter,
    (forall t, (encodeQueue (update t) <= Z.max 0 (encodeQueue t))%Z) ->
    (forall t, all_fulfilled t -> all_fulfilled (update t)) ->
    keeps P (assign update).

Lemma along_quietly {A : Type} (m : M A) : quietly m -> keeps P m.
Proof. intros H s Hs. destruct (H s) as [_ Hq]. now apply (P_quiet s). Qed.

Lemma along_initializeEncoder (env : Env) : keeps P (initializeEncoder env).
Proof.
  unfold initializeEncoder, encoder_configure, console.
  along_walk @along_quietly P_emit P_assign.
Qed.

Lemma along_initializeAudioEncoder (env : Env) :
  keeps P (initializeAudioEncoder env).
Proof.
  unfold initializeAudioEncoder, console.
  along_walk @along_quietly P_emit P_assign.
Qed.

Lemma along_processSegment (env : Env) (a b : float) :
  keeps P (processSegment env a b).
Proof. unfold processSegment. along_walk @along_quietly P_emit P_assign. Qed.

Lemma along_extract_segments (env : Env) (l : list Binary64.TrimRegion) :
  forall pos, keeps P (extract_segments env l pos).
Proof.
  induction l as [|trim rest IH]; intro pos; simpl.
  - apply keeps_ret.
  - apply keeps_bind; [|intros _; apply IH].
    apply keeps_if; [apply along_processSegment|apply keeps_ret].
Qed.

Lemma along_extractAudio (env : Env) (config : VideoExporterConfig) (d : float) :
  keeps P (extractAudio env config d).
Proof.
  unfold extractAudio.
  do 3 (apply keeps_bind; [apply keeps_read|intro]).
  destruct a as [?|]; [|apply keeps_ret].
  destruct a0 as [?|]; [|apply keeps_ret].
  destruct a1 as [?|]; [|apply keeps_ret].
  apply keeps_if; [along_walk @along_quietly P_emit P_assign|].
  apply keeps_bind; [apply along_extract_segments|intro pos].
  apply keeps_if; [apply along_processSegment|apply keeps_ret].
Qed.

Lemma along_finish (env : Env) :
  keeps P (encoder_flush env)
  /\ keeps P (audioEncoder_flush env)
  /\ keeps P (promise_all env)
  /\ keeps P (muxer_finalize env).
Proof.
  unfold encoder_flush, audioEncoder_flush, promise_all, muxer_finalize.
  repeat split; along_walk @along_quietly P_emit P_assign.
Qed.

(** Given that the frame loop keeps [P], all of [export] does. *)
Hypothesis P_frame_loop :
  forall env config fuel totalFrames remaining frameIndex,
    keeps P (frame_loop env config fuel totalFrames remaining frameIndex).

Lemma along_export_try (env : Env) (config : VideoExporterConfig) (fuel : nat) :
  keeps P (export_try env config fuel).
Proof.
  destruct (along_finish env) as (Hflush & Haflush & Hall & Hfin).
  unfold export_try, run_frames, console.
  repeat first
    [ apply along_initializeEncoder
    | apply along_initializeAudioEncoder
    | apply along_extractAudio
    | apply P_frame_loop
    | apply Hflush | apply Haflush | apply Hall | apply Hfin
    | progress along_walk @along_quietly P_emit P_assign ].
Qed.

Lemma along_export (env : Env) (config : VideoExporterConfig) (fuel : nat) :
  keeps P (export env config fuel).
Proof.
  unfold export, console.
  apply keeps_try_finally; [|apply along_quietly, quietly_cleanup].
  apply keeps_try_catch; [apply along_export_try|intro e].
  along_walk @along_quietly P_emit P_assign.
Qed.

End Along.

(** *** The counter *)

Lemma within_bound_quiet (s s' : State) :
  quiet s s' -> within_bound s -> within_bound s'.
Proof.
  intros (_ & Hb & _) H. apply Hb; [unfold MAX_ENCODE_QUEUE; lia|assumption].
Qed.

Lemma within_bound_emit (e : Event) : keeps within_bound (emit e).
Proof. now intros s H. Qed.

Lemma within_bound_await (env : Env) : keeps within_bound (await env).
Proof.
  intros s H. destruct (quietly_await env s) as [_ Hq].
  now apply (within_bound_quiet s).
Qed.

Lemma wait_for_queue_eq (env : Env) (fuel : nat) (s : State) :
  wait_for_queue env fuel s
  = if (MAX_ENCODE_QUEUE <=? encodeQueue (this s))%Z && negb (cancelled (this s))
    then match fuel with
         | O => (Timeout, s)
         | S fuel' => bind (await env) (fun _ => wait_for_queue env fuel') s
         end
    else (Ok tt, s).
Proof.
  destruct fuel; simpl; unfold bind at 1 2, read; simpl;
    now destruct ((MAX_ENCODE_QUEUE <=? encodeQueue (this s))%Z
                  && negb (cancelled (this s))).
Qed.

(** The polling loop keeps the invariants, and it returns only with the
    counter below the bound or with the export cancelled. *)
Lemma wait_for_queue_spec (env : Env) (fuel : nat) :
  forall s r s',
    wait_for_queue env fuel s = (r, s') ->
    within_bound s -> disarmed_if_cancelled s ->
    within_bound s' /\ disarmed_if_cancelled s'
    /\ (r = Ok tt ->
        (encodeQueue (this s') < MAX_ENCODE_QUEUE)%Z
        \/ cancelled (this s') = true).
Proof.
  induction fuel as [|fuel IH]; intros s r s' Hrun Hs HJ;
    rewrite wait_for_queue_eq in Hrun;
    destruct ((MAX_ENCODE_QUEUE <=? encodeQueue (this s))%Z
              && negb (cancelled (this s))) eqn:Hcond;
    try (inversion Hrun; subst; clear Hrun; split; [exact Hs|split; [exact HJ|]]).
  - discriminate.
  - intros _. apply andb_false_iff in Hcond. destruct Hcond as [Hq|Hc].
    + left. apply Z.leb_gt in Hq. exact Hq.
    + right. now apply negb_false_iff in Hc.
  - unfold bind in Hrun.
    pose proof (within_bound_await env s Hs) as Hs1.
    pose proof (disarmed_await env s HJ) as HJ1.
    destruct (await env s) as [[u|e|] s1]; simpl in *.
    + eapply IH; eassumption.
    + inversion Hrun; subst. split; [assumption|split; [assumption|discriminate]].
    + inversion Hrun; subst. split; [assumption|split; [assumption|discriminate]].
  - intros _. apply andb_false_iff in Hcond. destruct Hcond as [Hq|Hc].
    + left. apply Z.leb_gt in Hq. exact Hq.
    + right. now apply negb_false_iff in Hc.
Qed.

(** Submitting a frame: the counter goes up only when the exporter holds a
    configured encoder, which it does not once cancelled; so after the
    polling loop the increment stays within the bound. *)
Lemma within_bound_submit_frame (i : nat) (s : State) :
  within_bound s -> disarmed_if_cancelled s ->
  (encodeQueue (this s) < MAX_ENCODE_QUEUE)%Z \/ cancelled (this s) = true ->
  within_bound (snd (submit_frame i s)).
Proof.
  intros Hs HJ Hroom. unfold submit_frame, bind at 1, read. simpl.
  destruct (encoder (this s)) as [enc|] eqn:E; [|exact Hs].
  destruct (is_configured (state enc)) eqn:Hc; [|exact Hs].
  assert (Hlt : (encodeQueue (this s) < MAX_ENCODE_QUEUE)%Z).
  { destruct Hroom as [H|H]; [exact H|].
    specialize (HJ H). unfold armed in HJ. rewrite E in HJ. congruence. }
  unfold encoder_encode, bind, read, assign, emit. simpl.
  destruct Hs as [Hh Hq].
  split; simpl.
  - rewrite !Forall_app. repeat split; try assumption;
      repeat constructor; simpl; lia.
  - lia.
Qed.

Lemma bind_post {A B : Type} (I Q : State -> Prop) (m : M A) (k : A -> M B) :
  keeps I m ->
  (forall s, I s -> Q s) ->
  (forall a s, I s -> Q (snd (k a s))) ->
  forall s, I s -> Q (snd (bind m k s)).
Proof.
  intros Hm HQ Hk s H. unfold bind. specialize (Hm s H).
  destruct (m s) as [[a|e|] s1]; simpl in *; auto.
Qed.

Lemma in_iteration_await (env : Env) : keeps in_iteration (await env).
Proof.
  intros s [Hs HJ].
  split; [now apply within_bound_await|now apply disarmed_await].
Qed.

Lemma in_iteration_emit (e : Event) : keeps in_iteration (emit e).
Proof. now intros s H. Qed.

Lemma within_bound_frame (env : Env) (config : VideoExporterConfig)
    (fuel : nat) (totalFrames : float) (i : nat) (s : State) :
  in_iteration s ->
  within_bound (snd (frame env config fuel totalFrames i s)).
Proof.
  unfold frame.
  assert (Hout : forall s, in_iteration s -> within_bound s) by now intros ? [].
  revert s.
  apply bind_post with (I := in_iteration); [|exact Hout|intros _].
  { keeps_walk; first [apply in_iteration_await|apply in_iteration_emit]. }
  apply bind_post with (I := in_iteration);
    [apply keeps_settle|exact Hout|intros _].
  apply bind_post with (I := in_iteration);
    [apply keeps_deref|exact Hout|intros _].
  apply bind_post with (I := in_iteration);
    [apply in_iteration_emit|exact Hout|intros _].
  apply bind_post with (I := in_iteration);
    [apply in_iteration_await|exact Hout|intros _].
  apply bind_post with (I := in_iteration);
    [apply keeps_settle|exact Hout|intros _].
  apply bind_post with (I := in_iteration);
    [apply keeps_deref|exact Hout|intros _].
  apply bind_post with (I := in_iteration);
    [apply keeps_settle|exact Hout|intros _].
  intros s [Hs HJ].
  unfold bind at 1.
  destruct (wait_for_queue env fuel s) as [r s1] eqn:Hwait.
  destruct (wait_for_queue_spec env fuel s r s1 Hwait Hs HJ)
    as (Hs1 & HJ1 & Hroom).
  destruct r as [[]|e|]; simpl in *; [|assumption..].
  specialize (Hroom eq_refl).
  pose proof (within_bound_submit_frame i s1 Hs1 HJ1 Hroom) as Hs2.
  unfold bind. destruct (submit_frame i s1) as [[u'|e|] s2]; simpl in *;
    [|assumption..].
  unfold report_progress. destruct (onProgress config); exact Hs2.
Qed.

Lemma within_bound_frame_loop (env : Env) (config : VideoExporterConfig)
    (fuel : nat) (totalFrames : float) (remaining : nat) :
  forall frameIndex,
    keeps within_bound
      (frame_loop env config fuel totalFrames remaining frameIndex).
Proof.
  induction remaining as [|remaining IH]; intros frameIndex s Hs; simpl.
  - exact Hs.
  - unfold bind at 1, read. simpl.
    destruct (cancelled (this s)) eqn:Hc; [exact Hs|].
    assert (Hit : in_iteration s).
    { split; [exact Hs|]. unfold disarmed_if_cancelled. congruence. }
    pose proof (within_bound_frame env config fuel totalFrames frameIndex s Hit)
      as Hs1.
    unfold bind.
    destruct (frame env config fuel totalFrames frameIndex s) as [[u|e|] s1];
      simpl in *; [now apply IH|assumption..].
Qed.

Lemma within_bound_assign (update : VideoExporter -> VideoExporter) :
  (forall t, (encodeQueue (update t) <= Z.max 0 (encodeQueue t))%Z) ->
  (forall t, all_fulfilled t -> all_fulfilled (update t)) ->
  keeps within_bound (assign update).
Proof.
  intros Hq _ s Hb. unfold assign. simpl.
  apply bounded_app; [assumption|].
  destruct Hb as [_ Hb]. specialize (Hq (this s)).
  unfold MAX_ENCODE_QUEUE in *. lia.
Qed.

(** The counter is within its bound along every run of [export]. *)
Lemma within_bound_export (env : Env) (config : VideoExporterConfig)
    (fuel : nat) :
  keeps within_bound (export env config fuel).
Proof.
  apply along_export.
  - exact within_bound_quiet.
  - exact within_bound_emit.
  - exact within_bound_assign.
  - intros. apply within_bound_frame_loop.
Qed.

(** C6. Throughout an export the in-flight counter [encodeQueue] never
    exceeds [MAX_ENCODE_QUEUE = 120].  From an exporter whose counter is
    within the bound, every value that [this] takes during [export()] (one
    per assignment, whatever the collaborators and the scheduler do, and
    whether the run returns, throws or keeps polling) has
    [encodeQueue <= 120].  The mechanism: the polling loop returns only
    with the counter below the bound or with the export cancelled; the
    frame loop increments the counter only on a configured encoder, right
    before [encode]; and the [output] callback, run when a chunk is
    delivered, takes one off. *)
Theorem encodeQueue_never_exceeds_bound (env : Env)
    (config : VideoExporterConfig) (fuel : nat) (exporter : VideoExporter) :
  (encodeQueue exporter <= MAX_ENCODE_QUEUE)%Z ->
  MAX_ENCODE_QUEUE = 120%Z
  /\ Forall (fun t => (encodeQueue t <= MAX_ENCODE_QUEUE)%Z)
        (history (snd (export env config fuel (initial_State exporter)))).
Proof.
  intro H0. split; [reflexivity|].
  apply (within_bound_export env config fuel (initial_State exporter)).
  split; simpl; [now constructor|assumption].
Qed.

(** The bound of C6 on the slow-encoder run: a fresh exporter, 150 frames,
    an encoder that hands out nothing for the first 250 awaits. *)
Lemma encodeQueue_never_exceeds_bound_witness :
  MAX_ENCODE_QUEUE = 120%Z
  /\ Forall (fun t => (encodeQueue t <= MAX_ENCODE_QUEUE)%Z)
        (history (snd (Scenario.run Scenario.slow_encoder
                         Scenario.at_30_fps 10))).
Proof.
  apply (encodeQueue_never_exceeds_bound Scenario.slow_encoder
           Scenario.at_30_fps 10 new_VideoExporter).
  vm_compute. discriminate.
Defined.

(** *** Outcomes *)

Lemma returns_settles {A : Type} (m : M A) : returns m -> settles m.
Proof. intros H s. destruct (H s) as [a Ha]. congruence. Qed.

Lemma returns_quietly {A : Type} (m : M A) : quietly m -> returns m.
Proof. intros H s. apply H. Qed.

Lemma settles_calmly {A : Type} (m : M A) : calmly m -> settles m.
Proof. intros H s. apply H. Qed.

Lemma returns_ret {A : Type} (a : A) : returns (ret a).
Proof. intro s. now exists a. Qed.

Lemma returns_read {A : Type} (field : VideoExporter -> A) : returns (read field).
Proof. intro s. now eexists. Qed.

Lemma returns_assign (update : VideoExporter -> VideoExporter) :
  returns (assign update).
Proof. intro s. now exists tt. Qed.

Lemma returns_emit (e : Event) : returns (emit e).
Proof. intro s. now exists tt. Qed.

Lemma returns_bind {A B : Type} (m : M A) (k : A -> M B) :
  returns m -> (forall a, returns (k a)) -> returns (bind m k).
Proof.
  intros Hm Hk s. unfold bind. destruct (Hm s) as [a Ha].
  destruct (m s) as [r s1]. simpl in Ha. subst r. apply Hk.
Qed.

Lemma settles_bind {A B : Type} (m : M A) (k : A -> M B) :
  settles m -> (forall a, settles (k a)) -> settles (bind m k).
Proof.
  intros Hm Hk s. unfold bind. specialize (Hm s).
  destruct (m s) as [[a|e|] s1]; simpl in *; [apply Hk|discriminate|congruence].
Qed.

Lemma settles_throw {A : Type} (e : Exn) : settles (@throw A e).
Proof. intro s. discriminate. Qed.

Lemma settles_settle (outcome : option Exn) : settles (settle outcome).
Proof. destruct outcome; intro s; discriminate. Qed.

Lemma settles_deref {A : Type} (field : VideoExporter -> option A) :
  settles (deref field).
Proof.
  intro s. unfold deref, bind, read. simpl.
  destruct (field (this s)); discriminate.
Qed.

Lemma returns_try_catch {A : Type} (m : M A) (handler : Exn -> M A) :
  settles m -> (forall e, returns (handler e)) -> returns (try_catch m handler).
Proof.
  intros Hm Hh s. unfold try_catch. specialize (Hm s).
  destruct (m s) as [[a|e|] s1]; simpl in *;
    [now exists a|apply Hh|congruence].
Qed.

(** Walks a computation to show that it settles (returns or throws). *)
Ltac settles_walk :=
  repeat lazymatch goal with
    | |- settles (throw _) => apply settles_throw
    | |- settles (settle _) => apply settles_settle
    | |- settles (deref _) => apply settles_deref
    | |- settles (await _) => apply returns_settles, returns_quietly, quietly_await
    | |- settles (cleanup _) =>
        apply returns_settles, returns_quietly, quietly_cleanup
    | |- settles (ret _) => apply returns_settles, returns_ret
    | |- settles (read _) => apply returns_settles, returns_read
    | |- settles (assign _) => apply returns_settles, returns_assign
    | |- settles (emit _) => apply returns_settles, returns_emit
    | |- settles (console _ _) => unfold console
    | |- settles (bind _ _) => apply settles_bind; [|intro]
    | |- settles (match ?x with _ => _ end) => destruct x
    end.

(** *** The promises of the chunk writes (C7) *)

Lemma promises_kept_quiet (s s' : State) :
  quiet s s' -> promises_kept s -> promises_kept s'.
Proof. intros (_ & _ & Hp & _). exact Hp. Qed.

Lemma promises_kept_emit (e : Event) : keeps promises_kept (emit e).
Proof. now intros s H. Qed.

Lemma promises_kept_assign (update : VideoExporter -> VideoExporter) :
  (forall t, all_fulfilled t -> all_fulfilled (update t)) ->
  keeps promises_kept (assign update).
Proof.
  intros Hp s Hk. unfold assign. simpl.
  apply promises_kept_app; [assumption|]. apply Hp, Hk.
Qed.

Lemma promises_kept_quietly {A : Type} (m : M A) :
  quietly m -> keeps promises_kept m.
Proof.
  intros H s Hs. destruct (H s) as [_ Hq]. now apply (promises_kept_quiet s).
Qed.

Lemma promises_kept_wait_for_queue (env : Env) (fuel : nat) :
  keeps promises_kept (wait_for_queue env fuel).
Proof.
  induction fuel as [|fuel IH]; intros s Hs; rewrite wait_for_queue_eq;
    destruct ((MAX_ENCODE_QUEUE <=? encodeQueue (this s))%Z
              && negb (cancelled (this s))); try exact Hs.
  revert s Hs. apply keeps_bind; [|intros _; exact IH].
  apply promises_kept_quietly, quietly_await.
Qed.

Lemma promises_kept_frame_loop (env : Env) (config : VideoExporterConfig)
    (fuel : nat) (totalFrames : float) (remaining : nat) :
  forall frameIndex,
    keeps promises_kept
      (frame_loop env config fuel totalFrames remaining frameIndex).
Proof.
  induction remaining as [|remaining IH]; intro frameIndex; simpl.
  - apply keeps_ret.
  - apply keeps_bind; [apply keeps_read|intros c].
    destruct c; [apply keeps_ret|].
    apply keeps_bind; [|intros _; apply IH].
    unfold frame, submit_frame, encoder_encode, report_progress.
    repeat lazymatch goal with
      | |- keeps _ (wait_for_queue _ _) => apply promises_kept_wait_for_queue
      | |- keeps _ _ =>
          progress along_walk @promises_kept_quietly promises_kept_emit
            promises_kept_assign
      end.
Qed.

Lemma promises_kept_export (env : Env) (config : VideoExporterConfig)
    (fuel : nat) :
  keeps promises_kept (export env config fuel).
Proof.
  apply along_export.
  - exact promises_kept_quiet.
  - exact promises_kept_emit.
  - intros update _ Hp. now apply promises_kept_assign.
  - intros. apply promises_kept_frame_loop.
Qed.

(** A rejected write leaves no trace but two calls: the write itself and
    the log line; nothing reaches the container. *)
Lemma videoMuxingTask_rejected (env : Env) (index : nat) (isFirstChunk : bool)
    (meta : option DecoderConfig) (s : State) (m : VideoMuxer) (e : Exn) :
  muxer (this s) = Some m ->
  addVideoChunk env index = Some e ->
  exists metadata,
    videoMuxingTask env index isFirstChunk meta s
    = (Ok tt, {| this := this s;
                 trace := trace s ++ [E_addVideoChunk index metadata;
                                      E_console console_error "Muxing error:"];
                 history := history s; awaits := awaits s |}).
Proof.
  intros Hm He.
  unfold videoMuxingTask, try_catch, bind at 1, read.
  cbn [fst snd].
  destruct isFirstChunk, (videoDescription (this s)) as [desc|];
    unfold muxer_addVideoChunk, deref, settle, console, bind, read, emit,
      throw, ret;
    cbn [this trace history awaits]; rewrite Hm, He;
    cbn [this trace history awaits]; rewrite <- app_assoc;
    eexists; reflexivity.
Qed.

(** C7. A muxing error on one chunk never becomes a failure of the export.
    The task that writes a chunk (video or audio) catches whatever
    [addVideoChunk] / [addAudioChunk] throws, so its promise is fulfilled
    in every case; when the write of a video chunk is rejected, the task
    only logs it and the chunk is not in the container.  Along every run of
    [export()] every promise ever held in [muxingPromises] is fulfilled, so
    [Promise.all] cannot reject.  In the scenario where the write of the
    second chunk fails, [export()] resolves [{success: true}] with a blob
    that lacks that chunk. *)
Theorem muxing_errors_are_only_logged :
  (forall env index isFirstChunk meta s,
      fst (promise_of (videoMuxingTask env index isFirstChunk meta) s)
      = Ok fulfilled)
  /\ (forall env index s,
      fst (promise_of (audioMuxingTask env index) s) = Ok fulfilled)
  /\ (forall env index isFirstChunk meta s m e,
      muxer (this s) = Some m ->
      addVideoChunk env index = Some e ->
      let s' := snd (videoMuxingTask env index isFirstChunk meta s) in
      muxer (this s') = Some m
      /\ exists metadata,
           trace s' = trace s ++ [E_addVideoChunk index metadata;
                                  E_console console_error "Muxing error:"])
  /\ (forall env config fuel,
      let s' := snd (Scenario.run env config fuel) in
      Forall all_fulfilled (history s')
      /\ Forall (fun t => first_rejection (muxingPromises t) = None) (history s'))
  /\ (addVideoChunk Scenario.failing_write 1 = Some (ErrorObject "write failed")
      /\ fst (Scenario.run Scenario.failing_write Scenario.at_30_fps 0)
         = Ok {| success := true;
                 blob := Some [VideoChunk 0 (BuiltConfig 7%nat bt709);
                               VideoChunk 2 (EncoderMetadata None)];
                 error := None |}
      /\ In (E_console console_error "Muxing error:")
            (trace (snd (Scenario.run Scenario.failing_write
                           Scenario.at_30_fps 0)))).
Proof.
  split; [|split; [|split; [|split]]].
  - intros env index isFirstChunk meta s. unfold promise_of.
    destruct (quietly_videoMuxingTask env index isFirstChunk meta s)
      as [[u Hu] _].
    destruct (videoMuxingTask env index isFirstChunk meta s) as [r s1].
    simpl in Hu. now subst r.
  - intros env index s.
    unfold promise_of, audioMuxingTask, try_catch, muxer_addAudioChunk, deref,
      settle, console, bind, read, emit, assign, throw, ret.
    cbn [fst snd this trace history awaits].
    destruct (muxer (this s)); [|reflexivity].
    cbn [fst snd this trace history awaits].
    now destruct (addAudioChunk env index).
  - intros env index isFirstChunk meta s m e Hm He.
    destruct (videoMuxingTask_rejected env index isFirstChunk meta s m e Hm He)
      as [metadata E].
    cbv zeta. rewrite E. simpl. split; [exact Hm|]. now exists metadata.
  - intros env config fuel. cbv zeta.
    assert (Hk : promises_kept (snd (Scenario.run env config fuel))).
    { rewrite run_is_export.
      apply (promises_kept_export env config fuel
               (initial_State new_VideoExporter)).
      split; simpl; repeat constructor. }
    destruct Hk as [Hh _]. split; [exact Hh|].
    eapply Forall_impl; [|exact Hh]. intros t Ht. unfold all_fulfilled in Ht.
    induction Ht as [|p l Hp _ IH]; simpl; [reflexivity|].
    now rewrite Hp.
  - split; [reflexivity|]. split; [vm_compute; reflexivity|].
    vm_compute. tauto.
Qed.

(** The rejected write of C7 in a state that holds an empty muxer. *)
Lemma muxing_errors_are_only_logged_witness :
  let s := initial_State
             (set_muxer (Some {| muxerHasAudio := false; written := [] |})
                new_VideoExporter) in
  let s' := snd (videoMuxingTask Scenario.failing_write 1 false None s) in
  muxer (this s') = Some {| muxerHasAudio := false; written := [] |}
  /\ exists metadata,
       trace s' = trace s ++ [E_addVideoChunk 1 metadata;
                              E_console console_error "Muxing error:"].
Proof.
  apply (proj1 (proj2 (proj2 muxing_errors_are_only_logged))
           Scenario.failing_write 1%nat false None _ _
           (ErrorObject "write failed")); reflexivity.
Defined.

(** *** The audio path, when Opus is not supported (C8) *)

Lemma audio_off_quiet (s s' : State) : quiet s s' -> audio_off s -> audio_off s'.
Proof. intros (_ & _ & _ & Ha). exact Ha. Qed.

Lemma audio_off_quietly {A : Type} (m : M A) : quietly m -> keeps audio_off m.
Proof.
  intros H s Hs. destruct (H s) as [_ Hq]. now apply (audio_off_quiet s).
Qed.

Lemma audio_off_emit (e : Event) :
  audio_call e = false -> keeps audio_off (emit e).
Proof.
  intros He s (H1 & H2 & H3 & H4). unfold audio_off, emit. simpl.
  repeat split; try assumption.
  rewrite forallb_app, H3. simpl. now rewrite He.
Qed.

Lemma audio_off_assign (update : VideoExporter -> VideoExporter) :
  (forall t, audioEncoder t = None -> audioEncoder (update t) = None) ->
  (forall t, audioProcessor t = None -> audioProcessor (update t) = None) ->
  keeps audio_off (assign update).
Proof.
  intros Ha Hp s (H1 & H2 & H3 & H4). unfold audio_off, assign. simpl.
  repeat split; auto.
  apply Forall_app. split; [assumption|]. constructor; auto.
Qed.

(** With the audio path off, a read of [this.audioEncoder] gives [null]. *)
Lemma audio_off_read_audioEncoder {B : Type} (k : option AudioEncoder -> M B) :
  keeps audio_off (k None) -> keeps audio_off (bind (read audioEncoder) k).
Proof.
  intros Hk s H. unfold bind, read. simpl.
  destruct H as (H1 & H'). rewrite H1. apply Hk. now split.
Qed.

(** Walks the exporter's own code with the audio path off. *)
Ltac audio_walk Hno :=
  repeat lazymatch goal with
    | |- keeps _ (bind (read audioEncoder) _) =>
        apply audio_off_read_audioEncoder; cbv beta iota
    | |- keeps _ (initializeAudioEncoder _) =>
        unfold initializeAudioEncoder; rewrite Hno; simpl negb; cbv iota
    | |- keeps _ (await _) => apply audio_off_quietly, quietly_await
    | |- keeps _ (cleanup _) => apply audio_off_quietly, quietly_cleanup
    | |- keeps _ (deliver_video_chunk _) =>
        apply audio_off_quietly, quietly_deliver_video_chunk
    | |- keeps _ (emit _) => apply audio_off_emit; reflexivity
    | |- keeps _ (assign _) => apply audio_off_assign; field_facts; fail
    | |- keeps _ (console _ _) => unfold console
    | |- keeps _ (ret _) => apply keeps_ret
    | |- keeps _ (read _) => apply keeps_read
    | |- keeps _ (throw _) => apply keeps_throw
    | |- keeps _ timeout => apply keeps_timeout
    | |- keeps _ (settle _) => apply keeps_settle
    | |- keeps _ (deref _) => apply keeps_deref
    | |- keeps _ (repeat_times _ _) => apply keeps_repeat_times
    | |- keeps _ (try_catch _ _) => apply keeps_try_catch; [|intro]
    | |- keeps _ (bind _ _) => apply keeps_bind; [|intro]
    | |- keeps _ (match ?x with _ => _ end) => destruct x
    end.

(** With no support for the Opus configuration, [initializeAudioEncoder]
    returns before it configures or stores an encoder. *)
Lemma audio_off_initializeAudioEncoder (env : Env) :
  audioIsConfigSupported env = false ->
  keeps audio_off (initializeAudioEncoder env).
Proof. intro Hno. audio_walk Hno. Qed.

Lemma audio_off_wait_for_queue (env : Env) (fuel : nat) :
  keeps audio_off (wait_for_queue env fuel).
Proof.
  induction fuel as [|fuel IH]; intros s Hs; rewrite wait_for_queue_eq;
    destruct ((MAX_ENCODE_QUEUE <=? encodeQueue (this s))%Z
              && negb (cancelled (this s))); try exact Hs.
  revert s Hs. apply keeps_bind; [|intros _; exact IH].
  apply audio_off_quietly, quietly_await.
Qed.

Lemma audio_off_frame_loop (env : Env) (config : VideoExporterConfig)
    (fuel : nat) (totalFrames : float) (remaining : nat) :
  forall frameIndex,
    keeps audio_off
      (frame_loop env config fuel totalFrames remaining frameIndex).
Proof.
  induction remaining as [|remaining IH]; intro frameIndex; simpl.
  - apply keeps_ret.
  - apply keeps_bind; [apply keeps_read|intros c].
    destruct c; [apply keeps_ret|].
    apply keeps_bind; [|intros _; apply IH].
    unfold frame, submit_frame, encoder_encode, report_progress.
    repeat lazymatch goal with
      | |- keeps _ (wait_for_queue _ _) => apply audio_off_wait_for_queue
      | |- keeps _ _ => progress audio_walk (@eq_refl bool false)
      end.
Qed.

Lemma audio_off_export (env : Env) (config : VideoExporterConfig) (fuel : nat) :
  audioIsConfigSupported env = false ->
  keeps audio_off (export env config fuel).
Proof.
  intro Hno. unfold export.
  apply keeps_try_finally; [|apply audio_off_quietly, quietly_cleanup].
  apply keeps_try_catch; [|intro e; audio_walk Hno].
  unfold export_try, initializeEncoder, encoder_configure, encoder_flush,
    promise_all, muxer_finalize.
  repeat lazymatch goal with
    | |- keeps _ (run_frames _ _ _ _) =>
        apply keeps_run_frames; intros; now apply audio_off_frame_loop
    | |- keeps _ (bind (run_frames _ _ _ _) _) =>
        apply keeps_bind; [|intro]
    | |- keeps _ _ => progress audio_walk Hno
    end.
Qed.

(** Audio initialisation never throws: everything after the check of the
    audio stream is inside [try], and the [catch] only logs. *)
Lemma returns_initializeAudioEncoder (env : Env) :
  returns (initializeAudioEncoder env).
Proof.
  unfold initializeAudioEncoder.
  apply returns_bind; [apply returns_read|intros d].
  destruct (negb match d with
                 | Some dec => getAudioStream env dec
                 | None => false
                 end).
  - apply returns_emit.
  - apply returns_try_catch; [settles_walk|intros _; apply returns_emit].
Qed.

(** C8, as stated, fails on one point: an audio encoder is created.  In the
    scenario with an audio track and no support for the Opus
    configuration, [new AudioEncoder] runs before [isConfigSupported] is
    asked (and the export resolves [{success: true}]). *)
Lemma audio_encoder_is_constructed_before_the_check :
  audioIsConfigSupported Scenario.no_opus = false
  /\ In E_newAudioEncoder
        (trace (snd (Scenario.run Scenario.no_opus Scenario.at_30_fps 0)))
  /\ exists b,
       fst (Scenario.run Scenario.no_opus Scenario.at_30_fps 0)
       = Ok {| success := true; blob := Some b; error := None |}.
Proof.
  split; [reflexivity|]. split; [vm_compute; tauto|].
  eexists. vm_compute. reflexivity.
Qed.

(** C8, amended.  When [isConfigSupported] reports the audio configuration
    unsupported, audio initialisation is a soft failure: an [AudioEncoder]
    object is constructed before the check, but it is never configured and
    never stored, so [this.audioEncoder] is [null] at every point of the
    run, no script processor is created, no audio is extracted, encoded or
    written, and nothing is played for capture.  [initializeAudioEncoder]
    never throws, whatever the collaborators do.  In the scenario with an
    audio track and no Opus support the export resolves
    [{success: true}] with a blob of video chunks only. *)
Theorem unsupported_audio_is_a_soft_failure :
  (forall env s, exists s',
      initializeAudioEncoder env s = (Ok tt, s'))
  /\ (forall env config fuel,
      audioIsConfigSupported env = false ->
      let s' := snd (Scenario.run env config fuel) in
      Forall (fun t => audioEncoder t = None) (history s')
      /\ forallb (fun e => negb (audio_call e)) (trace s') = true)
  /\ (let r := Scenario.run Scenario.no_opus Scenario.at_30_fps 0 in
      fst r = Ok {| success := true;
                    blob := Some [VideoChunk 0 (BuiltConfig 7%nat bt709);
                                  VideoChunk 1 (EncoderMetadata None);
                                  VideoChunk 2 (EncoderMetadata None)];
                    error := None |}
      /\ In E_newAudioEncoder (trace (snd r))
      /\ ~ In E_audioConfigure (trace (snd r))).
Proof.
  split; [|split].
  - intros env s. destruct (returns_initializeAudioEncoder env s) as [[] Hu].
    destruct (initializeAudioEncoder env s) as [r s']. simpl in Hu. subst r.
    now exists s'.
  - intros env config fuel Hno. cbv zeta.
    assert (H : audio_off (snd (Scenario.run env config fuel))).
    { rewrite run_is_export.
      apply (audio_off_export env config fuel Hno
               (initial_State new_VideoExporter)).
      repeat split; simpl; repeat constructor. }
    destruct H as (_ & _ & Htrace & Hhist). now split.
  - cbv zeta. split; [vm_compute; reflexivity|].
    split; [vm_compute; tauto|].
    vm_compute. intro H.
    repeat (destruct H as [H|H]; [discriminate H|]). exact H.
Qed.

(** The amended C8 in the scenario without Opus support. *)
Lemma unsupported_audio_is_a_soft_failure_witness :
  let s' := snd (Scenario.run Scenario.no_opus Scenario.at_30_fps 0) in
  Forall (fun t => audioEncoder t = None) (history s')
  /\ forallb (fun e => negb (audio_call e)) (trace s') = true.
Proof.
  apply (proj1 (proj2 unsupported_audio_is_a_soft_failure)
           Scenario.no_opus Scenario.at_30_fps 0%nat).
  reflexivity.
Defined.

(** *** What a run shows of the orchestration *)

Lemma ok_bind {A B : Type} (P : State -> Prop) (R : A -> State -> Prop)
    (Q : B -> State -> Prop) (m : M A) (k : A -> M B) :
  ok_triple P m R -> (forall a, ok_triple (R a) (k a) Q) ->
  ok_triple P (bind m k) Q.
Proof.
  intros Hm Hk s HP b s' Hrun. unfold bind in Hrun.
  destruct (m s) as [[a|e|] s1] eqn:E; try discriminate.
  eapply Hk; [|exact Hrun]. eapply Hm; eassumption.
Qed.

Lemma ok_keeps {A : Type} (I : State -> Prop) (m : M A) :
  keeps I m -> ok_triple I m (fun _ => I).
Proof.
  intros H s HI a s' Hrun. specialize (H s HI). now rewrite Hrun in H.
Qed.

Lemma ok_weaken {B : Type} (P P' : State -> Prop) (Q Q' : B -> State -> Prop)
    (m : M B) :
  ok_triple P' m Q' -> (forall s, P s -> P' s) ->
  (forall b s, Q' b s -> Q b s) -> ok_triple P m Q.
Proof. intros H HP HQ s Hs b s' Hrun. eapply HQ, H; eauto. Qed.

Lemma ok_read_bind {A B : Type} (P : State -> Prop) (Q : B -> State -> Prop)
    (field : VideoExporter -> A) (k : A -> M B) :
  (forall a, ok_triple (fun s => P s /\ field (this s) = a) (k a) Q) ->
  ok_triple P (bind (read field) k) Q.
Proof.
  intros H s HP b s' Hrun. unfold bind, read in Hrun. simpl in Hrun.
  eapply H; [|exact Hrun]. now split.
Qed.

Lemma ok_false {B : Type} (m : M B) (Q : B -> State -> Prop) :
  ok_triple (fun _ => False) m Q.
Proof. now intros s H. Qed.

Section Seen.

(** An observation of the trace that background calls do not show in. *)
Variable X : Type.
Variable f : Event -> list X.
Hypothesis f_background : forall e, background e = true -> f e = [].

Lemma flat_map_foreground (tr : list Event) :
  flat_map f tr = flat_map f (filter foreground tr).
Proof.
  induction tr as [|e tr IH]; simpl; [reflexivity|].
  unfold foreground at 1. destruct (background e) eqn:E; simpl.
  - now rewrite (f_background e E).
  - now rewrite IH.
Qed.

Lemma seen_quiet (v : list X) (s s' : State) :
  quiet s s' -> seen f v s -> seen f v s'.
Proof.
  intros (Ht & _) H. unfold seen in *.
  now rewrite flat_map_foreground, Ht, <- flat_map_foreground.
Qed.

Lemma seen_quietly {A : Type} (v : list X) (m : M A) :
  quietly m -> keeps (seen f v) m.
Proof. intros H s Hs. destruct (H s) as [_ Hq]. now apply (seen_quiet v s). Qed.

Lemma seen_emit (v : list X) (e : Event) :
  f e = [] -> keeps (seen f v) (emit e).
Proof.
  intros He s H. unfold seen, emit in *. simpl.
  rewrite flat_map_app, H. simpl. rewrite He. now rewrite !app_nil_r.
Qed.

Lemma seen_assign (v : list X) (update : VideoExporter -> VideoExporter) :
  keeps (seen f v) (assign update).
Proof. now intros s H. Qed.

(** A call that shows: the observation grows by what [f] gives. *)
Lemma seen_emit_grows (v : list X) (e : Event) :
  ok_triple (seen f v) (emit e) (fun _ => seen f (v ++ f e)).
Proof.
  intros s H b s' Hrun. inversion Hrun; subst. unfold seen in *. simpl.
  rewrite flat_map_app, H. simpl. now rewrite app_nil_r.
Qed.

Lemma seen_wait_for_queue (v : list X) (env : Env) (fuel : nat) :
  keeps (seen f v) (wait_for_queue env fuel).
Proof.
  induction fuel as [|fuel IH]; intros s Hs; rewrite wait_for_queue_eq;
    destruct ((MAX_ENCODE_QUEUE <=? encodeQueue (this s))%Z
              && negb (cancelled (this s))); try exact Hs.
  revert s Hs. apply keeps_bind; [|intros _; exact IH].
  apply seen_quietly, quietly_await.
Qed.

End Seen.

Section SeenAudio.

Variable X : Type.
Variable f : Event -> list X.
Hypothesis f_background : forall e, background e = true -> f e = [].
Hypothesis f_seek : forall t, f (E_seek t) = [].
Hypothesis f_play : f E_play = [].

Lemma seen_processSegment (v : list X) (env : Env) (a b : float) :
  keeps (seen f v) (processSegment env a b).
Proof.
  unfold processSegment.
  apply keeps_bind; [apply keeps_read|intros c].
  destruct (PrimFloat.leb b a || c); [apply keeps_ret|].
  apply keeps_bind; [apply seen_emit, f_seek|intros _].
  apply keeps_bind; [apply (seen_quietly _ _ f_background), quietly_await|intros _].
  apply keeps_bind; [apply seen_emit, f_play|intros _].
  apply (seen_quietly _ _ f_background), quietly_await.
Qed.

Lemma seen_extract_segments (v : list X) (env : Env) (l : list Binary64.TrimRegion) :
  forall pos, keeps (seen f v) (extract_segments env l pos).
Proof.
  induction l as [|trim rest IH]; intro pos; simpl.
  - apply keeps_ret.
  - apply keeps_bind; [|intros _; apply IH].
    destruct (PrimFloat.ltb pos (Binary64.startMs trim));
      [apply seen_processSegment|apply keeps_ret].
Qed.

Lemma seen_extractAudio (v : list X) (env : Env) (config : VideoExporterConfig)
    (d : float) :
  keeps (seen f v) (extractAudio env config d).
Proof.
  unfold extractAudio.
  do 3 (apply keeps_bind; [apply keeps_read|intro]).
  destruct a as [?|]; [|apply keeps_ret].
  destruct a0 as [?|]; [|apply keeps_ret].
  destruct a1 as [?|]; [|apply keeps_ret].
  destruct (List.length (Binary64.or_empty (trimRegions config)) =? 0)%nat.
  - apply keeps_bind; [apply seen_emit, f_seek|intros _].
    apply keeps_bind; [apply seen_emit, f_play|intros _].
    apply keeps_bind; [|intros _; apply keeps_settle].
    apply (seen_quietly _ _ f_background), quietly_await.
  - apply keeps_bind; [apply seen_extract_segments|intro pos].
    destruct (PrimFloat.ltb pos (d * 1000)%float);
      [apply seen_processSegment|apply keeps_ret].
Qed.

End SeenAudio.

(** Walks code that shows nothing of the observation [f]. *)
Ltac seen_walk Hbackground :=
  repeat lazymatch goal with
    | |- keeps _ (wait_for_queue _ _) =>
        apply (seen_wait_for_queue _ _ Hbackground)
    | |- keeps _ (extractAudio _ _ _) =>
        apply (seen_extractAudio _ _ Hbackground);
        [intro; reflexivity|reflexivity]
    | |- keeps _ (await _) =>
        apply (seen_quietly _ _ Hbackground), quietly_await
    | |- keeps _ (cleanup _) =>
        apply (seen_quietly _ _ Hbackground), quietly_cleanup
    | |- keeps _ (deliver_video_chunk _) =>
        apply (seen_quietly _ _ Hbackground), quietly_deliver_video_chunk
    | |- keeps _ (deliver_audio_chunk _) =>
        apply (seen_quietly _ _ Hbackground), quietly_deliver_audio_chunk
    | |- keeps _ (emit _) => apply seen_emit; reflexivity
    | |- keeps _ (assign _) => apply seen_assign
    | |- keeps _ (console _ _) => unfold console
    | |- keeps _ (ret _) => apply keeps_ret
    | |- keeps _ (read _) => apply keeps_read
    | |- keeps _ (throw _) => apply keeps_throw
    | |- keeps _ timeout => apply keeps_timeout
    | |- keeps _ (settle _) => apply keeps_settle
    | |- keeps _ (deref _) => apply keeps_deref
    | |- keeps _ (repeat_times _ _) => apply keeps_repeat_times
    | |- keeps _ (try_catch _ _) => apply keeps_try_catch; [|intro]
    | |- keeps _ (bind _ _) => apply keeps_bind; [|intro]
    | |- keeps _ (match ?x with _ => _ end) => destruct x
    end.

Lemma render_index_background (e : Event) :
  background e = true -> render_index e = [].
Proof. now destruct e. Qed.

Lemma progress_record_background (e : Event) :
  background e = true -> progress_record e = [].
Proof. now destruct e. Qed.

Lemma encode_call_background (e : Event) :
  background e = true -> encode_call e = [].
Proof. now destruct e. Qed.

Lemma configure_call_background (e : Event) :
  background e = true -> configure_call e = [].
Proof. now destruct e. Qed.

Lemma probe_call_background (e : Event) :
  background e = true -> probe_call e = [].
Proof. now destruct e. Qed.

(** *** Progress (C9) *)

Lemma frame_shows_progress (env : Env) (config : VideoExporterConfig)
    (fuel : nat) (totalFrames : float) (i : nat) (v : list ExportProgress) :
  ok_triple (seen progress_record v) (frame env config fuel totalFrames i)
    (fun _ =>
       seen progress_record
         (v ++ if onProgress config
               then [progress_after totalFrames (S i)] else [])).
Proof.
  unfold frame, submit_frame, encoder_encode.
  repeat lazymatch goal with
    | |- ok_triple _ (bind _ _) _ =>
        eapply ok_bind;
        [solve [apply ok_keeps; seen_walk progress_record_background]
        |intro; cbv beta]
    end.
  unfold report_progress. destruct (onProgress config).
  - apply seen_emit_grows.
  - rewrite app_nil_r. apply ok_keeps, keeps_ret.
Qed.

(** Without a configured encoder the frame is not encoded, and progress is
    reported all the same. *)
Lemma skipped_frame_still_reports (config : VideoExporterConfig)
    (totalFrames : float) (i : nat) (s : State) :
  armed (this s) = false ->
  (submit_frame i ;; report_progress config totalFrames (S i)) s
  = (Ok tt,
     {| this := this s;
        trace := trace s ++ E_console console_warn "Encoder not ready!"
                 :: if onProgress config
                    then [E_onProgress (progress_after totalFrames (S i))]
                    else [];
        history := history s; awaits := awaits s |}).
Proof.
  intro Ha. unfold armed in Ha.
  unfold submit_frame, report_progress, console, bind, read, emit, ret.
  cbn [fst snd this trace history awaits].
  destruct (encoder (this s)) as [enc|]; [rewrite Ha|];
    destruct (onProgress config); cbn [this trace history awaits];
    rewrite <- ?app_assoc; reflexivity.
Qed.

(** C9. In every iteration [i] of the frame loop that runs to its end, the
    progress callback, when one is configured, is invoked exactly once,
    after the frame, with [currentFrame = i + 1], the fixed [totalFrames],
    [percentage = (i + 1) / totalFrames * 100] (computed as the program
    computes it, in binary64) and [estimatedTimeRemaining = 0].  This does
    not depend on the encoder: when the exporter holds no configured
    encoder the frame is skipped with a warning, nothing is encoded, and
    the same progress is reported. *)
Theorem progress_is_reported_after_every_frame (env : Env)
    (config : VideoExporterConfig) (fuel : nat) (totalFrames : float) (i : nat)
    (s : State) :
  onProgress config = true ->
  fst (frame env config fuel totalFrames i s) = Ok tt ->
  let p := progress_after totalFrames (S i) in
  progressed (trace (snd (frame env config fuel totalFrames i s)))
  = progressed (trace s) ++ [p]
  /\ currentFrame p = (i + 1)%nat
  /\ progressTotalFrames p = totalFrames
  /\ percentage p
     = ((Binary64.of_nat (i + 1) / totalFrames) * 100)%float
  /\ estimatedTimeRemaining p = 0%float
  /\ (forall s0 : State,
        armed (this s0) = false ->
        let r := (submit_frame i ;; report_progress config totalFrames (S i)) s0 in
        fst r = Ok tt
        /\ encoded (trace (snd r)) = encoded (trace s0)
        /\ progressed (trace (snd r)) = progressed (trace s0) ++ [p]).
Proof.
  intros Hcb Hok. cbv zeta.
  split; [|split; [|split; [|split; [|split]]]].
  - pose proof (frame_shows_progress env config fuel totalFrames i
                  (progressed (trace s)) s eq_refl) as H.
    destruct (frame env config fuel totalFrames i s) as [r s'].
    simpl in Hok. subst r. specialize (H tt s' eq_refl).
    rewrite Hcb in H. exact H.
  - simpl. lia.
  - reflexivity.
  - cbn [percentage progress_after].
    replace (i + 1)%nat with (S i) by lia. reflexivity.
  - reflexivity.
  - intros s0 Ha.
    rewrite (skipped_frame_still_reports config totalFrames i s0 Ha), Hcb.
    cbn [fst snd trace].
    unfold encoded, progressed. rewrite !flat_map_app. simpl.
    now rewrite app_nil_r.
Qed.

(** C9 on the first frame of a 2 s export at 30 frames per second, in a
    state that holds a renderer and no encoder: the frame is skipped and
    progress 1 of 60 is reported. *)
Lemma progress_is_reported_after_every_frame_witness :
  let s := initial_State (set_renderer (Some TheRenderer) new_VideoExporter) in
  let run := frame (Scenario.video_only 2) Scenario.at_30_fps 0 60 0 s in
  progressed (trace (snd run)) = progressed (trace s) ++ [progress_after 60 1]
  /\ encoded (trace (snd run)) = [].
Proof.
  split.
  - apply (progress_is_reported_after_every_frame (Scenario.video_only 2)
             Scenario.at_30_fps 0 60 0
             (initial_State (set_renderer (Some TheRenderer) new_VideoExporter)));
      reflexivity.
  - reflexivity.
Defined.

(** *** The frames of a run (C4) *)

Lemma ok_throw {B : Type} (P : State -> Prop) (e : Exn)
    (Q : B -> State -> Prop) :
  ok_triple P (throw e) Q.
Proof. intros s _ b s' H. discriminate H. Qed.

Lemma frame_renders (env : Env) (config : VideoExporterConfig) (fuel : nat)
    (totalFrames : float) (i : nat) (v : list nat) :
  ok_triple (seen render_index v) (frame env config fuel totalFrames i)
    (fun _ => seen render_index (v ++ [i])).
Proof.
  unfold frame, submit_frame, encoder_encode, report_progress.
  repeat lazymatch goal with
    | |- ok_triple _ (bind (emit (E_renderFrame _ _)) _) _ => fail
    | |- ok_triple _ (bind _ _) _ =>
        eapply ok_bind;
        [solve [apply ok_keeps; seen_walk render_index_background]
        |intro; cbv beta]
    end.
  eapply ok_bind; [apply seen_emit_grows|intro; cbv beta].
  apply ok_keeps. simpl render_index.
  seen_walk render_index_background.
Qed.

(** The loop either ends cancelled, or it has rendered every index from
    [frameIndex] on, in order. *)
Lemma frame_loop_renders (env : Env) (config : VideoExporterConfig)
    (fuel : nat) (totalFrames : float) (remaining : nat) :
  forall (frameIndex : nat) (v : list nat),
    ok_triple (seen render_index v)
      (frame_loop env config fuel totalFrames remaining frameIndex)
      (fun _ s' =>
         cancelled (this s') = true
         \/ seen render_index (v ++ seq frameIndex remaining) s').
Proof.
  induction remaining as [|remaining IH]; intros frameIndex v; simpl.
  - intros s H b s' Hrun. inversion Hrun; subst. right.
    now rewrite app_nil_r.
  - apply ok_read_bind. intros c. destruct c.
    + intros s [H Hc] b s' Hrun. inversion Hrun; subst. now left.
    + eapply ok_bind.
      * eapply ok_weaken; [apply frame_renders| |intros b s H; exact H].
        intros s [H _]. exact H.
      * intro; cbv beta.
        eapply ok_weaken;
          [apply (IH (S frameIndex) (v ++ [frameIndex]))|auto|].
        intros b s [H|H]; [now left|right].
        now rewrite <- app_assoc in H.
Qed.

(** A successful [export] comes from a [try] block that returned, followed
    by the quiet [cleanup] of [finally]. *)
Lemma export_success (env : Env) (config : VideoExporterConfig) (fuel : nat)
    (s s' : State) (r : ExportResult) :
  export env config fuel s = (Ok r, s') ->
  success r = true ->
  exists s1, export_try env config fuel s = (Ok r, s1) /\ quiet s1 s'.
Proof.
  unfold export, try_finally, try_catch, console. intros Hrun Hok.
  destruct (export_try env config fuel s) as [[r0|e|] s1].
  - destruct (quietly_cleanup env s1) as [[[] Hu] Hq].
    destruct (cleanup env s1) as [ru s2]. simpl in Hu, Hq. subst ru.
    inversion Hrun; subst. now exists s1.
  - unfold bind, emit, ret in Hrun. cbn [fst snd] in Hrun.
    match type of Hrun with context [cleanup env ?st] =>
      destruct (quietly_cleanup env st) as [[[] Hu] _];
      destruct (cleanup env st) as [ru s2] end.
    simpl in Hu. subst ru. inversion Hrun; subst. discriminate Hok.
  - discriminate Hrun.
Qed.

(** *** The effective duration (C3) *)

(** C3. The effective duration is the source duration minus the summed
    lengths of the trim regions, and is meant to be the duration that
    remains outside them, never below 0, and 0 with no frame when the
    regions cover the source.  [getEffectiveDuration] subtracts the length
    of every region as it is given: a stretch that two regions share is
    subtracted twice.  For a 10 s source with the regions 0 to 8000 ms and
    2000 to 10000 ms, which together cover the source, it returns -6 s;
    [totalFrames] is -180 at 30 frames per second, the loop does not run,
    and [export()] resolves [{success: true}] without a frame.  For a 1 s
    source covered by the regions 0 to 200, 200 to 900 and 900 to 1000 ms
    the binary64 sum of the lengths falls short of 1: the effective
    duration is 2^-53 s, not 0, and one frame is rendered.  The audio
    path of the same exporter does not count the shared stretch twice: it
    moves its position with [Math.max], and for the first source, with an
    audio track, it finds nothing left to play and seeks nowhere. *)
Theorem getEffectiveDuration_of_covering_trims :
  Binary64.getEffectiveDuration (trimRegions Scenario.overlapping_trims) 10
  = (-6)%float
  /\ Binary64.totalFrames (-6) 30 = (-180)%float
  /\ Binary64.iterations (-180) = Binary64.runs 0
  /\ (let r := Scenario.run (Scenario.video_only 10)
                 Scenario.overlapping_trims 0 in
      Scenario.succeeded (fst r) = true
      /\ rendered (trace (snd r)) = [])
  /\ Binary64.getEffectiveDuration (trimRegions Scenario.adjacent_trims) 1
     = 0x1p-53%float
  /\ Binary64.totalFrames 0x1p-53 30 = 1%float
  /\ (let r := Scenario.run (Scenario.video_only 1)
                 Scenario.adjacent_trims 0 in
      Scenario.succeeded (fst r) = true
      /\ rendered (trace (snd r)) = [0%nat])
  /\ (let r := Scenario.run (Scenario.with_audio 10)
                 Scenario.overlapping_trims 0 in
      Scenario.succeeded (fst r) = true
      /\ flat_map seek_call (trace (snd r)) = []).
Proof.
  cbv zeta. repeat split; vm_compute; reflexivity.
Qed.

(** The loop from frame 0: it ends cancelled, or [totalFrames] bounds it
    and it has rendered every index below the bound. *)
Lemma run_frames_renders (env : Env) (config : VideoExporterConfig)
    (fuel : nat) (totalFrames : float) (v : list nat) :
  ok_triple (seen render_index v) (run_frames env config fuel totalFrames)
    (fun _ s' =>
       cancelled (this s') = true
       \/ exists n,
            Binary64.iterations totalFrames = Binary64.runs n
            /\ seen render_index (v ++ seq 0 n) s').
Proof.
  unfold run_frames.
  destruct (Binary64.iterations totalFrames) as [n|].
  - eapply ok_weaken; [apply frame_loop_renders|intros s H; exact H|].
    intros b s [H|H]; [now left|right]. now exists n.
  - eapply ok_bind; [apply frame_loop_renders|intro; cbv beta].
    apply ok_read_bind. intros c. destruct c.
    + intros s [_ Hc] b s' Hrun. inversion Hrun; subst. now left.
    + intros s _ b s' Hrun. discriminate Hrun.
Qed.

Lemma export_try_renders (env : Env) (config : VideoExporterConfig)
    (fuel : nat) :
  ok_triple (seen render_index []) (export_try env config fuel)
    (fun r s' =>
       success r = true ->
       exists info n,
         loadVideo env = inr info
         /\ frame_bound config (duration info) = Binary64.runs n
         /\ seen render_index (seq 0 n) s').
Proof.
  unfold export_try, initializeEncoder, encoder_configure,
    initializeAudioEncoder.
  repeat lazymatch goal with
    | |- ok_triple _ (bind (run_frames _ _ _ _) _) _ => fail
    | |- ok_triple _ (bind _ _) _ =>
        eapply ok_bind;
        [solve [apply ok_keeps; seen_walk render_index_background]
        |intro; cbv beta]
    | |- ok_triple _ (match loadVideo env with _ => _ end) _ =>
        destruct (loadVideo env) as [e|info]; [apply ok_throw|]
    | |- ok_triple _ (if ?b then throw _ else _) _ =>
        destruct b; [apply ok_throw|]
    end.
  eapply ok_bind; [apply run_frames_renders|intro; cbv beta].
  apply ok_read_bind. intros c. destruct c.
  - intros s _ b s' Hrun. inversion Hrun; subst. discriminate.
  - intros s [[H|(n & Hn & H)] Hc] b s' Hrun _; [congruence|].
    exists info, n. split; [reflexivity|]. split; [exact Hn|].
    match type of Hrun with ?m s = _ =>
      assert (K : keeps (seen render_index (seq 0 n)) m) end.
    { unfold encoder_flush, audioEncoder_flush, promise_all, muxer_finalize.
      seen_walk render_index_background. }
    specialize (K s H). now rewrite Hrun in K.
Qed.

(** *** The least integer not below a number *)

Lemma two_power (k : Z) :
  (0 <= k)%Z -> (2 # 1) ^ k == inject_Z (2 ^ k) /\ 0 < inject_Z (2 ^ k).
Proof.
  intro Hk. split.
  - change (2 # 1) with (inject_Z 2). now rewrite Zpower_Qpower.
  - change 0 with (inject_Z 0). rewrite <- Zlt_Qlt. now apply Z.pow_pos_nonneg.
Qed.

(** The integer ceiling of [a / 2 ^ k], by floor division. *)
Lemma ceiling_by_division (a k : Z) :
  (0 < k)%Z ->
  inject_Z (- (- a / 2 ^ k)) - 1 < inject_Z a * (2 # 1) ^ (- k)
  /\ inject_Z a * (2 # 1) ^ (- k) <= inject_Z (- (- a / 2 ^ k)).
Proof.
  intro Hk.
  destruct (two_power k) as [E Hpos]; [lia|].
  rewrite Qpower_opp, E.
  assert (Hb : (0 < 2 ^ k)%Z) by (apply Z.pow_pos_nonneg; lia).
  pose proof (Z.div_mod (- a) (2 ^ k) ltac:(lia)) as Hdm.
  pose proof (Z.mod_pos_bound (- a) (2 ^ k) Hb) as Hr.
  set (q := (- a / 2 ^ k)%Z) in *. set (r := ((- a) mod 2 ^ k)%Z) in *.
  set (b := (2 ^ k)%Z) in *.
  assert (Ha : (a = - (b * q) - r)%Z) by lia.
  assert (H1 : ((- q - 1) * b < a)%Z) by nia.
  assert (H2 : (a <= - q * b)%Z) by nia.
  rewrite Zlt_Qlt in H1. rewrite Zle_Qle in H2.
  rewrite inject_Z_mult in H1, H2.
  assert (E1 : inject_Z (- q - 1) == inject_Z (- q) - 1).
  { unfold Z.sub. rewrite inject_Z_plus.
    assert (Em : inject_Z (- (1)) == - (1)) by reflexivity. lra. }
  rewrite E1 in H1.
  split.
  - apply Qlt_shift_div_l; [exact Hpos|exact H1].
  - apply Qle_shift_div_r; [exact Hpos|exact H2].
Qed.

Lemma ceiling_is_least (x : float) (n : Z) :
  Binary64.ceiling x = Some n ->
  exists p,
    Binary64.value x = Some p
    /\ inject_Z n - 1 < p /\ p <= inject_Z n.
Proof.
  unfold Binary64.ceiling, Binary64.value.
  destruct (Prim2SF x) as [s| |  |s m e]; try discriminate.
  - intros [= <-]. exists 0. split; [reflexivity|].
    change (inject_Z 0) with 0. split; lra.
  - intros [= <-]. eexists. split; [reflexivity|].
    destruct (Z.leb_spec 0 e) as [He|He].
    + destruct (two_power e He) as [E _]. rewrite E, <- inject_Z_mult.
      assert (G : forall w : Z, inject_Z w - 1 < inject_Z w <= inject_Z w).
      { intro w. split; lra. }
      destruct s.
      * replace (Z.neg m * 2 ^ e)%Z with (- (Z.pos m * 2 ^ e))%Z by lia.
        exact (G (- (Z.pos m * 2 ^ e))%Z).
      * exact (G (Z.pos m * 2 ^ e)%Z).
    + destruct s.
      * pose proof (ceiling_by_division (Z.neg m) (- e) ltac:(lia)) as H.
        rewrite Z.opp_involutive in H.
        change (- Z.neg m)%Z with (Z.pos m) in H. exact H.
      * pose proof (ceiling_by_division (Z.pos m) (- e) ltac:(lia)) as H.
        rewrite Z.opp_involutive in H.
        change (- Z.pos m)%Z with (Z.neg m) in H. exact H.
Qed.

(** C4. The frame loop processes exactly
    [totalFrames = Math.ceil(effectiveDuration * frameRate)] frames, the
    product and the effective duration being computed as the program
    computes them, in binary64.  The loop is bounded by the least integer
    not below [totalFrames]: whenever that integer exists it lies less
    than one above the exact value of the number.  [totalFrames] is 60
    for 2.0 s and 61 for 2.01 s at 30 frames per second.  Every run of
    [export()] that resolves [{success: true}] has handed the frames
    [0, 1, ..., totalFrames - 1] to the renderer, in this order and once
    each, with [totalFrames] computed from the effective duration of the
    loaded source; the runs on a 2.0 s and on a 2.01 s source at 30 frames
    per second render and encode 60 and 61 frames.  Rounding counts: a
    10 s source with the first 1.7 s trimmed has the effective duration
    8.3000000000000007 s and gives 250 frames at 30 frames per second, and
    a source of 0.1 s gives 3. *)
Theorem totalFrames_is_the_ceiling :
  (forall (totalFrames : float) (n : Z),
      Binary64.ceiling totalFrames = Some n ->
      (exists p,
          Binary64.value totalFrames = Some p
          /\ inject_Z n - 1 < p /\ p <= inject_Z n)
      /\ ((n <= 2 ^ 53)%Z ->
          Binary64.iterations totalFrames = Binary64.runs (Z.to_nat n)))
  /\ Binary64.totalFrames 2 30 = 60%float
  /\ Binary64.totalFrames 2.01 30 = 61%float
  /\ (forall env config fuel r s',
        Scenario.run env config fuel = (Ok r, s') ->
        success r = true ->
        exists info n,
          loadVideo env = inr info
          /\ Binary64.iterations
               (Binary64.totalFrames
                  (Binary64.getEffectiveDuration (trimRegions config)
                     (duration info))
                  (frameRate config))
             = Binary64.runs n
          /\ rendered (trace s') = seq 0 n)
  /\ (let r := Scenario.run (Scenario.video_only 2) Scenario.at_30_fps 0 in
      Scenario.succeeded (fst r) = true
      /\ List.length (rendered (trace (snd r))) = 60%nat
      /\ List.length (encoded (trace (snd r))) = 60%nat)
  /\ (let r := Scenario.run (Scenario.video_only 2.01) Scenario.at_30_fps 0 in
      Scenario.succeeded (fst r) = true
      /\ List.length (rendered (trace (snd r))) = 61%nat
      /\ List.length (encoded (trace (snd r))) = 61%nat)
  /\ Binary64.totalFrames
       (Binary64.getEffectiveDuration (Some [Binary64.mkTrim 0 1700]) 10) 30
     = 250%float
  /\ Binary64.totalFrames 0.1 30 = 3%float.
Proof.
  split; [|split; [|split; [|split; [|split; [|split; [|split]]]]]].
  - intros T n Hn. split; [now apply ceiling_is_least|].
    intro Hle. unfold Binary64.iterations. rewrite Hn.
    apply Z.leb_le in Hle. now rewrite Hle.
  - reflexivity.
  - reflexivity.
  - intros env config fuel r s' Hrun Hok. rewrite run_is_export in Hrun.
    destruct (export_success env config fuel _ _ r Hrun Hok) as (s1 & Htry & Hq).
    destruct (export_try_renders env config fuel
                (initial_State new_VideoExporter) eq_refl r s1 Htry Hok)
      as (info & n & Hload & Hn & Hseen).
    exists info, n. split; [exact Hload|]. split; [exact Hn|].
    exact (seen_quiet _ _ render_index_background _ s1 s' Hq Hseen).
  - cbv zeta. repeat split; vm_compute; reflexivity.
  - cbv zeta. repeat split; vm_compute; reflexivity.
  - vm_compute. reflexivity.
  - vm_compute. reflexivity.
Qed.

(** C4 on the run over a 2 s source: the frames rendered are 0 to 59. *)
Lemma totalFrames_is_the_ceiling_witness :
  exists info n,
    loadVideo (Scenario.video_only 2) = inr info
    /\ Binary64.iterations
         (Binary64.totalFrames
            (Binary64.getEffectiveDuration (trimRegions Scenario.at_30_fps)
               (duration info))
            (frameRate Scenario.at_30_fps))
       = Binary64.runs n
    /\ rendered (trace (snd (Scenario.run (Scenario.video_only 2)
                               Scenario.at_30_fps 0)))
       = seq 0 n.
Proof.
  apply (proj1 (proj2 (proj2 (proj2 totalFrames_is_the_ceiling)))
           (Scenario.video_only 2) Scenario.at_30_fps 0%nat
           (match fst (Scenario.run (Scenario.video_only 2)
                         Scenario.at_30_fps 0) with
            | Ok r => r
            | _ => {| success := false; blob := None; error := None |}
            end)).
  - vm_compute. reflexivity.
  - vm_compute. reflexivity.
Defined.

(** *** Choosing the encoder (C5) *)

(** One statement of a sequence: it shows nothing of the observation, or
    it is a call that shows. *)
Ltac seen_step Hbackground :=
  eapply ok_bind;
  [ first [ solve [apply ok_keeps; seen_walk Hbackground]
          | apply seen_emit_grows ]
  | intro; cbv beta; simpl app ].

Lemma initializeEncoder_probes (env : Env) (v : list HardwareAcceleration) :
  ok_triple (seen probe_call v) (initializeEncoder env)
    (fun _ =>
       seen probe_call
         (v ++ if isConfigSupported env prefer_hardware
               then [prefer_hardware]
               else [prefer_hardware; prefer_software])).
Proof.
  unfold initializeEncoder, encoder_configure.
  do 6 seen_step probe_call_background.
  destruct (isConfigSupported env prefer_hardware).
  - apply ok_keeps. seen_walk probe_call_background.
  - do 3 seen_step probe_call_background. rewrite <- app_assoc. simpl app.
    apply ok_keeps. seen_walk probe_call_background.
Qed.

Lemma initializeEncoder_configures (env : Env)
    (v : list HardwareAcceleration) :
  ok_triple (seen configure_call v) (initializeEncoder env)
    (fun _ =>
       seen configure_call
         (v ++ [if isConfigSupported env prefer_hardware
                then prefer_hardware else prefer_software])).
Proof.
  unfold initializeEncoder, encoder_configure.
  do 6 seen_step configure_call_background.
  destruct (isConfigSupported env prefer_hardware).
  - do 3 seen_step configure_call_background.
    apply ok_keeps. seen_walk configure_call_background.
  - do 3 seen_step configure_call_background.
    destruct (negb (isConfigSupported env prefer_software));
      [apply ok_throw|].
    do 2 seen_step configure_call_background.
    apply ok_keeps. seen_walk configure_call_background.
Qed.

Lemma throws_keeping_throw {A : Type} (I : State -> Prop) (e : Exn) :
  throws_keeping I (@throw A e).
Proof. intros s H. now exists e, s. Qed.

Lemma throws_keeping_now {A B : Type} (I : State -> Prop) (m : M A)
    (k : A -> M B) :
  throws_keeping I m -> throws_keeping I (bind m k).
Proof.
  intros Hm s H. destruct (Hm s H) as (e & s' & E & H').
  exists e, s'. unfold bind. now rewrite E.
Qed.

Lemma throws_keeping_later {A B : Type} (I : State -> Prop) (m : M A)
    (k : A -> M B) :
  keeps I m -> settles m -> (forall a, throws_keeping I (k a)) ->
  throws_keeping I (bind m k).
Proof.
  intros Hkeep Hset Hk s H. unfold bind.
  specialize (Hkeep s H). specialize (Hset s).
  destruct (m s) as [[a|e|] s1]; simpl in *.
  - now apply Hk.
  - now exists e, s1.
  - congruence.
Qed.

(** One statement that keeps the observation and cannot time out, before a
    part that throws. *)
Ltac throws_step Hbackground :=
  apply throws_keeping_later;
  [ solve [seen_walk Hbackground] | solve [settles_walk] | intro ].

(** With neither configuration supported, [initializeEncoder] throws,
    whatever happens meanwhile. *)
Lemma initializeEncoder_unsupported (env : Env) (v : list (nat * bool)) :
  isConfigSupported env prefer_hardware = false ->
  isConfigSupported env prefer_software = false ->
  throws_keeping (seen encode_call v) (initializeEncoder env).
Proof.
  intros Hhw Hsw. unfold initializeEncoder. rewrite Hhw, Hsw. simpl negb.
  cbv iota.
  do 9 throws_step encode_call_background.
  apply throws_keeping_throw.
Qed.

Lemma export_try_unsupported (env : Env) (config : VideoExporterConfig)
    (fuel : nat) (v : list (nat * bool)) :
  isConfigSupported env prefer_hardware = false ->
  isConfigSupported env prefer_software = false ->
  throws_keeping (seen encode_call v) (export_try env config fuel).
Proof.
  intros Hhw Hsw. unfold export_try.
  do 6 throws_step encode_call_background.
  destruct (loadVideo env) as [e|info]; [apply throws_keeping_throw|].
  do 4 throws_step encode_call_background.
  apply throws_keeping_now. now apply initializeEncoder_unsupported.
Qed.

(** What [export] makes of a [try] block that throws. *)
Lemma export_of_failure (env : Env) (config : VideoExporterConfig) (fuel : nat)
    (s s1 : State) (e : Exn) :
  export_try env config fuel s = (Throw e, s1) ->
  exists s',
    export env config fuel s
    = (Ok {| success := false; blob := None;
             error := Some (error_message e) |}, s')
    /\ quiet s1 s'.
Proof.
  intro Htry. unfold export, try_finally, try_catch, console.
  rewrite Htry. unfold bind, emit, ret. cbn [fst snd].
  match goal with |- context [cleanup env ?st] =>
    destruct (quietly_cleanup env st) as [[[] Hu] Hq];
    destruct (cleanup env st) as [ru s2] end.
  simpl in Hu, Hq. subst ru. exists s2. split; [reflexivity|].
  eapply quiet_trans; [|exact Hq].
  apply (quiet_emit s1 (E_console console_error "Export error:"));
    [reflexivity|discriminate].
Qed.

Lemma throws_with_later {A B : Type} (e : Exn) (m : M A) (k : A -> M B) :
  returns m ->
  (forall a s, exists s', k a s = (Throw e, s')) ->
  forall s, exists s', bind m k s = (Throw e, s').
Proof.
  intros Hm Hk s. unfold bind. destruct (Hm s) as [a Ha].
  destruct (m s) as [r s1]. simpl in Ha. subst r. apply Hk.
Qed.

(** C5, as stated, fails on one point: the encoder is not configured twice.
    In the scenario where hardware encoding is unsupported and software
    encoding supported, the export succeeds, [isConfigSupported] is asked
    twice, and [configure] is called once, with the software
    configuration. *)
Lemma encoder_is_configured_once_not_twice :
  let r := Scenario.run Scenario.software_only Scenario.at_30_fps 0 in
  isConfigSupported Scenario.software_only prefer_hardware = false
  /\ isConfigSupported Scenario.software_only prefer_software = true
  /\ Scenario.succeeded (fst r) = true
  /\ configured_with (trace (snd r)) = [prefer_software]
  /\ List.length (configured_with (trace (snd r))) <> 2%nat.
Proof.
  cbv zeta. repeat split; try (vm_compute; reflexivity).
  vm_compute. discriminate.
Qed.

(** C5, amended.  Encoder initialisation asks [isConfigSupported] for the
    hardware configuration first.  If it is supported, that is the only
    question and [configure] is called once with it.  If it is not, the
    software configuration is asked about next; when that one is supported,
    initialisation returns having called [configure] exactly once, with the
    software configuration (two calls of [isConfigSupported], one of
    [configure]); when neither is supported, initialisation throws "Video
    encoding not supported on this system" and [export()] resolves
    [{success: false}] without [encode] ever being called, whatever the
    other collaborators do.  In the scenario with software support only,
    the export still succeeds. *)
Theorem encoder_selection :
  (forall env s s',
      initializeEncoder env s = (Ok tt, s') ->
      probed (trace s')
      = probed (trace s)
        ++ (if isConfigSupported env prefer_hardware
            then [prefer_hardware]
            else [prefer_hardware; prefer_software])
      /\ configured_with (trace s')
         = configured_with (trace s)
           ++ [if isConfigSupported env prefer_hardware
               then prefer_hardware else prefer_software])
  /\ (forall env config fuel,
        isConfigSupported env prefer_hardware = false ->
        isConfigSupported env prefer_software = false ->
        (forall s, exists s',
            initializeEncoder env s
            = (Throw (ErrorObject "Video encoding not supported on this system"),
               s'))
        /\ exists message s',
             Scenario.run env config fuel
             = (Ok {| success := false; blob := None; error := Some message |},
                s')
             /\ encoded (trace s') = [])
  /\ (let r := Scenario.run Scenario.software_only Scenario.at_30_fps 0 in
      Scenario.succeeded (fst r) = true
      /\ probed (trace (snd r)) = [prefer_hardware; prefer_software]
      /\ configured_with (trace (snd r)) = [prefer_software]).
Proof.
  split; [|split].
  - intros env s s' Hrun. split.
    + exact (initializeEncoder_probes env _ s eq_refl tt s' Hrun).
    + exact (initializeEncoder_configures env _ s eq_refl tt s' Hrun).
  - intros env config fuel Hhw Hsw. split.
    + unfold initializeEncoder. rewrite Hhw, Hsw. simpl negb. cbv iota.
      repeat (apply throws_with_later;
              [first [ apply returns_assign | apply returns_emit
                     | apply returns_quietly, quietly_await ]
              |intro]).
      intro s. now exists s.
    + rewrite run_is_export.
      destruct (export_try_unsupported env config fuel [] Hhw Hsw
                  (initial_State new_VideoExporter) eq_refl)
        as (e & s1 & Htry & Hseen).
      destruct (export_of_failure env config fuel _ s1 e Htry)
        as (s' & Hexp & Hq).
      exists (error_message e), s'. split; [exact Hexp|].
      exact (seen_quiet _ _ encode_call_background _ s1 s' Hq Hseen).
  - cbv zeta. repeat split; vm_compute; reflexivity.
Qed.

(** The amended C5 in the scenario without any encoder support. *)
Lemma encoder_selection_witness :
  exists message s',
    Scenario.run Scenario.no_encoder Scenario.at_30_fps 0
    = (Ok {| success := false; blob := None; error := Some message |}, s')
    /\ encoded (trace s') = [].
Proof.
  apply (proj1 (proj2 encoder_selection)
           Scenario.no_encoder Scenario.at_30_fps 0%nat); reflexivity.
Defined.
(** * Further properties *)

(** ** Cancellation is final *)

Ltac cancelled_walk :=
  keeps_walk; now intros s H.

Lemma is_cancelled_cleanup (env : Env) : keeps is_cancelled (cleanup env).
Proof. unfold cleanup, guarded, console. cancelled_walk. Qed.

Lemma is_cancelled_handle (env : Env) (ev : AsyncEvent) :
  keeps is_cancelled (handle env ev).
Proof.
  destruct ev; simpl.
  - unfold deliver_video_chunk, videoOutput, videoMuxingTask,
      muxer_addVideoChunk, console. cancelled_walk.
  - unfold fail_video_encoder, videoError, console. cancelled_walk.
  - unfold deliver_audio_chunk, audioOutput, audioMuxingTask,
      muxer_addAudioChunk, console. cancelled_walk.
  - unfold fail_audio_encoder, console. cancelled_walk.
  - unfold onaudioprocess. cancelled_walk.
  - unfold cancel. apply keeps_bind; [now intros s H|intros _].
    apply is_cancelled_cleanup.
Qed.

(** ** Teardown, again *)

(** On an exporter that holds nothing, [cleanup] makes no call. *)
Lemma cleanup_when_torn_down (env : Env) (c : bool) (tr : list Event)
    (h : list VideoExporter) (n : nat) :
  exists h',
    cleanup env {| this := torn_down c; trace := tr; history := h;
                   awaits := n |}
    = (Ok tt, {| this := torn_down c; trace := tr; history := h';
                 awaits := n |}).
Proof. eexists. reflexivity. Qed.

(** X9. [cleanup] is idempotent and safe.  From any state, and whatever
    the teardown calls throw, [cleanup] returns without suspending and
    leaves the exporter with every reference [null]; a second [cleanup]
    returns as well, makes no call at all, so that no collaborator is
    released twice, and changes nothing. *)
Theorem cleanup_is_idempotent (env : Env) (s : State) :
  let s1 := snd (cleanup env s) in
  let s2 := snd (cleanup env s1) in
  fst (cleanup env s) = Ok tt
  /\ fst (cleanup env s1) = Ok tt
  /\ this s1 = torn_down (cancelled (this s))
  /\ this s2 = this s1
  /\ trace s2 = trace s1
  /\ awaits s2 = awaits s.
Proof.
  cbv zeta.
  destruct (cleanup_spec env s) as (tr & h & E & _). rewrite E.
  cbn [fst snd].
  destruct (cleanup_when_torn_down env (cancelled (this s)) (trace s ++ tr)
              (history s ++ h) (awaits s)) as [h' E'].
  rewrite E'. cbn [fst snd this trace awaits]. repeat split.
Qed.

(** ** The outcome of [export] *)

Lemma ok_bind_any {A B : Type} (m : M A) (k : A -> M B)
    (Q : B -> State -> Prop) :
  (forall a, ok_triple (fun _ => True) (k a) Q) ->
  ok_triple (fun _ => True) (bind m k) Q.
Proof.
  intro Hk. apply (ok_bind _ (fun _ _ => True)); [|exact Hk].
  now intros s _ a s' _.
Qed.

Lemma export_try_well_shaped (env : Env) (config : VideoExporterConfig)
    (fuel : nat) :
  ok_triple (fun _ => True) (export_try env config fuel)
    (fun r _ => well_shaped r).
Proof.
  unfold export_try.
  repeat lazymatch goal with
    | |- ok_triple _ (bind _ _) _ => apply ok_bind_any; intro
    | |- ok_triple _ (throw _) _ => apply ok_throw
    | |- ok_triple _ (match ?x with _ => _ end) _ => destruct x
    end;
    intros s _ r s' Hrun; inversion Hrun; subst; unfold well_shaped; simpl;
    split; congruence.
Qed.

(** When [export] resolves, its result is well shaped and the exporter is
    torn down. *)
Lemma export_outcome (env : Env) (config : VideoExporterConfig) (fuel : nat)
    (s : State) :
  fst (export env config fuel s) = Timeout
  \/ exists r,
       fst (export env config fuel s) = Ok r
       /\ well_shaped r
       /\ this (snd (export env config fuel s))
          = torn_down (cancelled (this (snd (export env config fuel s)))).
Proof.
  unfold export, try_finally, try_catch.
  destruct (export_try env config fuel s) as [[r|e|] s1] eqn:E.
  - right. destruct (cleanup_spec env s1) as (tr & h & Ec & _). rewrite Ec.
    exists r. cbn [fst snd this]. split; [reflexivity|]. split; [|reflexivity].
    exact (export_try_well_shaped env config fuel s Logic.I r s1 E).
  - right. unfold console, bind, emit, ret. cbn [fst snd].
    match goal with |- context [cleanup env ?st] =>
      destruct (cleanup_spec env st) as (tr & h & Ec & _) end.
    rewrite Ec. eexists. cbn [fst snd this].
    split; [reflexivity|]. split; [|reflexivity].
    unfold well_shaped. simpl. split; congruence.
  - now left.
Qed.
Lemma export_try_load_failure (env : Env) (config : VideoExporterConfig)
    (fuel : nat) (s : State) (e : Exn) :
  loadVideo env = inl e ->
  exists s1,
    export_try env config fuel s = (Throw e, s1)
    /\ filter foreground (trace s1)
       = filter foreground (trace s) ++ [E_loadVideo].
Proof.
  intro Hload. unfold export_try. rewrite Hload.
  destruct (quietly_cleanup env s) as [[[] Hu] [Hq _]].
  destruct (cleanup env s) as [r1 s1] eqn:E1. simpl in Hu, Hq. subst r1.
  unfold bind at 1. rewrite E1.
  unfold bind, assign, emit, throw. cbn [fst snd this trace history awaits].
  match goal with |- context [await env ?st] =>
    destruct (quietly_await env st) as [[[] Hu] [Hq2 _]];
    destruct (await env st) as [r2 s2] end.
  simpl in Hu, Hq2. subst r2. exists s2. split; [reflexivity|].
  rewrite Hq2, filter_app, Hq. reflexivity.
Qed.

(** X11. A source that fails to load ends the export at once.  When
    [loadVideo] rejects with an error, [export()], from any state and
    whatever the callbacks do, resolves [{success: false}] with the
    message of that error; [loadVideo] is the only call the orchestration
    has made (no renderer, encoder or muxer is initialised), and the
    exporter is left torn down. *)
Theorem load_failure_is_reported (env : Env) (config : VideoExporterConfig)
    (fuel : nat) (s : State) (e : Exn) :
  loadVideo env = inl e ->
  exists s',
    export env config fuel s
    = (Ok {| success := false; blob := None;
             error := Some (error_message e) |}, s')
    /\ filter foreground (trace s')
       = filter foreground (trace s) ++ [E_loadVideo]
    /\ this s' = torn_down (cancelled (this s')).
Proof.
  intro Hload.
  destruct (export_try_load_failure env config fuel s e Hload)
    as (s1 & Htry & Htrace).
  destruct (export_of_failure env config fuel s s1 e Htry)
    as (s' & Hrun & Hq & _).
  exists s'. split; [exact Hrun|]. split.
  - now rewrite Hq.
  - destruct (export_outcome env config fuel s) as [H|(r & _ & _ & H)];
      rewrite Hrun in *; [discriminate H|exact H].
Qed.

(** A source whose load fails with [Failed to load video]. *)
Lemma load_failure_is_reported_witness :
  let env :=
    {| loadVideo := inl (ErrorObject "Failed to load video");
       audioStream := false; rendererInitialize := None;
       isConfigSupported := fun _ => true; createAudioGraph := None;
       audioIsConfigSupported := true; muxerInitialize := None;
       needsSeek := fun _ => true; newVideoFrame := fun _ => None;
       renderFrame := fun _ => None; newExportFrame := fun _ => None;
       play := None;
       videoMetadata := fun _ => None; addVideoChunk := fun _ => None;
       addAudioChunk := fun _ => None; finalize := None;
       teardownThrows := fun _ => false;
       schedule := Scenario.no_events |} in
  exists s',
    export env Scenario.at_30_fps 0 (initial_State new_VideoExporter)
    = (Ok {| success := false; blob := None;
             error := Some (error_message
                              (ErrorObject "Failed to load video")) |}, s')
    /\ filter foreground (trace s')
       = filter foreground (trace (initial_State new_VideoExporter))
         ++ [E_loadVideo]
    /\ this s' = torn_down (cancelled (this s')).
Proof.
  apply (load_failure_is_reported
           {| loadVideo := inl (ErrorObject "Failed to load video");
              audioStream := false; rendererInitialize := None;
              isConfigSupported := fun _ => true; createAudioGraph := None;
              audioIsConfigSupported := true; muxerInitialize := None;
              needsSeek := fun _ => true; newVideoFrame := fun _ => None;
              renderFrame := fun _ => None; newExportFrame := fun _ => None;
              play := None;
              videoMetadata := fun _ => None; addVideoChunk := fun _ => None;
              addAudioChunk := fun _ => None; finalize := None;
              teardownThrows := fun _ => false;
              schedule := Scenario.no_events |}
           Scenario.at_30_fps 0%nat (initial_State new_VideoExporter)
           (ErrorObject "Failed to load video")).
  reflexivity.
Defined.

(** ** What a successful run has shown *)

Lemma flat_map_single {A B : Type} (h : A -> B) (l : list A) :
  flat_map (fun a => [h a]) l = map h l.
Proof. induction l as [|a l IH]; simpl; [reflexivity|now rewrite IH]. Qed.

Lemma render_call_background (e : Event) :
  background e = true -> render_call e = [].
Proof. now destruct e. Qed.

(** The loop either ends cancelled, or it has shown what each frame
    shows, frame after frame. *)
Lemma frame_loop_shows {X : Type} (f : Event -> list X) (g : nat -> list X)
    (env : Env) (config : VideoExporterConfig) (fuel : nat)
    (totalFrames : float) :
  (forall i v,
      ok_triple (seen f v) (frame env config fuel totalFrames i)
        (fun _ => seen f (v ++ g i))) ->
  forall (remaining frameIndex : nat) (v : list X),
    ok_triple (seen f v)
      (frame_loop env config fuel totalFrames remaining frameIndex)
      (fun _ s' =>
         is_cancelled s'
         \/ seen f (v ++ flat_map g (seq frameIndex remaining)) s').
Proof.
  intro Hframe.
  induction remaining as [|remaining IH]; intros frameIndex v; simpl.
  - intros s H b s' Hrun. inversion Hrun; subst. right.
    now rewrite app_nil_r.
  - apply ok_read_bind. intros c. destruct c.
    + intros s [H Hc] b s' Hrun. inversion Hrun; subst. now left.
    + eapply ok_bind.
      * eapply ok_weaken; [apply Hframe| |intros b s H; exact H].
        intros s [H _]. exact H.
      * intro; cbv beta.
        eapply ok_weaken;
          [apply (IH (S frameIndex) (v ++ g frameIndex))|auto|].
        intros b s [H|H]; [now left|right].
        now rewrite <- app_assoc in H.
Qed.

Lemma run_frames_shows {X : Type} (f : Event -> list X) (g : nat -> list X)
    (env : Env) (config : VideoExporterConfig) (fuel : nat)
    (totalFrames : float) (v : list X) :
  (forall i v,
      ok_triple (seen f v) (frame env config fuel totalFrames i)
        (fun _ => seen f (v ++ g i))) ->
  ok_triple (seen f v) (run_frames env config fuel totalFrames)
    (fun _ s' => is_cancelled s' \/ shown f g totalFrames v s').
Proof.
  intro Hframe. unfold run_frames, shown.
  destruct (Binary64.iterations totalFrames) as [n|].
  - eapply ok_weaken;
      [apply (frame_loop_shows f g env config fuel totalFrames Hframe)
      |intros s H; exact H|].
    intros b s [H|H]; [now left|right]. now exists n.
  - eapply ok_bind;
      [apply (frame_loop_shows f g env config fuel totalFrames Hframe)
      |intro; cbv beta].
    apply ok_read_bind. intros c. destruct c.
    + intros s [_ Hc] b s' Hrun. inversion Hrun; subst. now left.
    + intros s _ b s' Hrun. discriminate Hrun.
Qed.

Lemma keeps_shown {X : Type} (f : Event -> list X) (g : nat -> list X)
    (totalFrames : float) (v : list X) {A : Type} (k : M A) :
  (forall full, keeps (seen f full) k) ->
  keeps (shown f g totalFrames v) k.
Proof.
  intros Hk s (n & Hn & H). specialize (Hk _ s H). unfold shown.
  destruct (k s) as [[a|e|] s']; try exact Hk; now exists n.
Qed.

(** After the loop: a cancelled run does not succeed, and the rest of a
    run that does shows nothing more. *)
Lemma finish_shows (P : State -> Prop) (failure : ExportResult)
    (k : M ExportResult) (Q : State -> Prop) :
  success failure = false ->
  keeps P k ->
  (forall s, P s -> Q s) ->
  ok_triple (fun s => is_cancelled s \/ P s)
    (c <- read cancelled ;; if c then ret failure else k)
    (fun r s' => success r = true -> Q s').
Proof.
  intros Hf Hk HQ. apply ok_read_bind. intros c. destruct c.
  - intros s _ b s' Hrun. inversion Hrun; subst. congruence.
  - intros s [[H|H] Hc] b s' Hrun.
    + unfold is_cancelled in H. congruence.
    + intros _. apply HQ. specialize (Hk s H). now rewrite Hrun in Hk.
Qed.

(** Walks the [try] block of [export] down to the frame loop, through
    code that shows nothing of the observation. *)
Ltac down_to_the_loop Hbackground :=
  unfold export_try, initializeEncoder, encoder_configure,
    initializeAudioEncoder;
  repeat lazymatch goal with
    | |- ok_triple _ (bind (run_frames _ _ _ _) _) _ => fail
    | |- ok_triple _ (bind _ _) _ =>
        eapply ok_bind;
        [solve [apply ok_keeps; seen_walk Hbackground]
        |intro; cbv beta]
    | |- ok_triple _ (match loadVideo ?env with _ => _ end) _ =>
        let e := fresh "e" in
        let info := fresh "info" in
        destruct (loadVideo env) as [e|info]; [apply ok_throw|]
    | |- ok_triple _ (if ?b then throw _ else _) _ =>
        destruct b; [apply ok_throw|]
    end.

Ltac after_the_loop Hbackground :=
  eapply finish_shows;
  [ reflexivity
  | apply keeps_shown; intro;
    unfold encoder_flush, audioEncoder_flush, promise_all, muxer_finalize;
    seen_walk Hbackground
  | ].

Lemma frame_renders_at (env : Env) (config : VideoExporterConfig)
    (fuel : nat) (totalFrames : float) (i : nat) (v : list (nat * float)) :
  ok_triple (seen render_call v) (frame env config fuel totalFrames i)
    (fun _ => seen render_call (v ++ [(i, frame_source_timestamp config i)])).
Proof.
  unfold frame, submit_frame, encoder_encode, report_progress,
    frame_source_timestamp.
  repeat lazymatch goal with
    | |- ok_triple _ (bind (emit (E_renderFrame _ _)) _) _ => fail
    | |- ok_triple _ (bind _ _) _ =>
        eapply ok_bind;
        [apply ok_keeps; seen_walk render_call_background|intro; cbv beta]
    end.
  eapply ok_bind; [apply seen_emit_grows|intro; cbv beta].
  apply ok_keeps. simpl render_call.
  seen_walk render_call_background.
Qed.

Lemma export_try_renders_at (env : Env) (config : VideoExporterConfig)
    (fuel : nat) (v : list (nat * float)) :
  ok_triple (seen render_call v) (export_try env config fuel)
    (fun r s' =>
       success r = true ->
       exists info n,
         loadVideo env = inr info
         /\ frame_bound config (duration info) = Binary64.runs n
         /\ seen render_call
              (v ++ map (fun i => (i, frame_source_timestamp config i))
                      (seq 0 n)) s').
Proof.
  down_to_the_loop render_call_background.
  eapply ok_bind;
    [apply (run_frames_shows render_call
              (fun i => [(i, frame_source_timestamp config i)]));
     intros; apply frame_renders_at
    |intro; cbv beta].
  after_the_loop render_call_background.
  intros s (n & Hn & H). exists info, n. split; [reflexivity|].
  split; [exact Hn|]. now rewrite flat_map_single in H.
Qed.

(** X12. A successful export renders every frame at its mapped source
    time.  Every run of [export()], from any state, that resolves
    [{success: true}] has handed to the renderer the frames
    [0, 1, ..., totalFrames - 1], in this order and once each, frame [i]
    with the source timestamp
    [mapEffectiveToSourceTime(i * (1 / frameRate) * 1000) * 1000]
    (microseconds) as binary64 arithmetic gives it, and has made no other
    call of [renderFrame]. *)
Theorem successful_export_renders_at_mapped_times
    (env : Env) (config : VideoExporterConfig) (fuel : nat) (s s' : State)
    (r : ExportResult) :
  export env config fuel s = (Ok r, s') ->
  success r = true ->
  exists info n,
    loadVideo env = inr info
    /\ frame_bound config (duration info) = Binary64.runs n
    /\ flat_map render_call (trace s')
       = flat_map render_call (trace s)
         ++ map (fun i => (i, frame_source_timestamp config i)) (seq 0 n).
Proof.
  intros Hrun Hok.
  destruct (export_success env config fuel _ _ r Hrun Hok) as (s1 & Htry & Hq).
  destruct (export_try_renders_at env config fuel
              (flat_map render_call (trace s)) s eq_refl r s1 Htry Hok)
    as (info & n & Hload & Hn & Hseen).
  exists info, n. split; [exact Hload|]. split; [exact Hn|].
  exact (seen_quiet _ _ render_call_background _ s1 s' Hq Hseen).
Qed.

(** Frame 111 at 30 frames per second has the effective time
    3699.9999999999995 ms: with the stretch from 3.7 s to 5 s trimmed it is
    taken from before the trim, not from its end. *)
Example frame_111_before_the_trim :
  frame_source_timestamp Scenario.late_trim 111 = 3699999.9999999995%float
  /\ frame_source_timestamp Scenario.late_trim 112 = 5033333.333333334%float.
Proof. split; vm_compute; reflexivity. Qed.

(** The run on a 2 s source with the stretch from 0.5 s to 1 s trimmed,
    at 30 frames per second, renders its 45 frames at their mapped
    times. *)
Lemma successful_export_renders_at_mapped_times_witness :
  let run := export (Scenario.video_only 2) Scenario.one_trim 0
               (initial_State new_VideoExporter) in
  exists info n,
    loadVideo (Scenario.video_only 2) = inr info
    /\ frame_bound Scenario.one_trim (duration info) = Binary64.runs n
    /\ flat_map render_call (trace (snd run))
       = flat_map render_call (trace (initial_State new_VideoExporter))
         ++ map (fun i => (i, frame_source_timestamp Scenario.one_trim i))
              (seq 0 n).
Proof.
  apply (successful_export_renders_at_mapped_times
           (Scenario.video_only 2) Scenario.one_trim 0%nat
           (initial_State new_VideoExporter)
           (snd (export (Scenario.video_only 2) Scenario.one_trim 0
                   (initial_State new_VideoExporter)))
           (match fst (export (Scenario.video_only 2) Scenario.one_trim 0
                         (initial_State new_VideoExporter)) with
            | Ok r => r
            | _ => {| success := false; blob := None; error := None |}
            end)).
  - vm_compute. reflexivity.
  - vm_compute. reflexivity.
Defined.

Lemma export_try_reports (env : Env) (config : VideoExporterConfig)
    (fuel : nat) (v : list ExportProgress) :
  ok_triple (seen progress_record v) (export_try env config fuel)
    (fun r s' =>
       success r = true ->
       exists info n,
         loadVideo env = inr info
         /\ frame_bound config (duration info) = Binary64.runs n
         /\ seen progress_record
              (v ++ if onProgress config
                    then map (fun i =>
                                progress_after
                                  (Binary64.totalFrames
                                     (Binary64.getEffectiveDuration
                                        (trimRegions config) (duration info))
                                     (frameRate config)) (S i))
                           (seq 0 n)
                    else []) s').
Proof.
  down_to_the_loop progress_record_background.
  eapply ok_bind;
    [apply (run_frames_shows progress_record
              (fun i => if onProgress config
                        then [progress_after
                                (Binary64.totalFrames
                                   (Binary64.getEffectiveDuration
                                      (trimRegions config) (duration info))
                                   (frameRate config)) (S i)]
                        else []));
     intros; apply frame_shows_progress
    |intro; cbv beta].
  after_the_loop progress_record_background.
  intros s (n & Hn & H). exists info, n. split; [reflexivity|].
  split; [exact Hn|].
  destruct (onProgress config).
  - now rewrite flat_map_single in H.
  - assert (E : forall l : list nat,
               flat_map (fun _ : nat => @nil ExportProgress) l = []).
    { induction l as [|? l IH]; [reflexivity|exact IH]. }
    now rewrite E in H.
Qed.

(** X13. A successful export reports every frame.  Every run of
    [export()], from any state, that resolves [{success: true}] with a
    progress callback configured has called it once per frame, in order,
    with [currentFrame = 1, 2, ..., totalFrames], the percentage
    [(currentFrame / totalFrames) * 100] as binary64 arithmetic gives it
    and no estimate of the remaining time, and with nothing else; without
    a callback nothing is reported. *)
Theorem successful_export_reports_every_frame
    (env : Env) (config : VideoExporterConfig) (fuel : nat) (s s' : State)
    (r : ExportResult) :
  export env config fuel s = (Ok r, s') ->
  success r = true ->
  exists info n,
    loadVideo env = inr info
    /\ frame_bound config (duration info) = Binary64.runs n
    /\ progressed (trace s')
       = progressed (trace s)
         ++ (if onProgress config
             then map (fun i =>
                         {| currentFrame := S i;
                            progressTotalFrames :=
                              Binary64.totalFrames
                                (Binary64.getEffectiveDuration
                                   (trimRegions config) (duration info))
                                (frameRate config);
                            percentage :=
                              ((Binary64.of_nat (S i)
                                / Binary64.totalFrames
                                    (Binary64.getEffectiveDuration
                                       (trimRegions config) (duration info))
                                    (frameRate config)) * 100)%float;
                            estimatedTimeRemaining := 0%float |})
                    (seq 0 n)
             else []).
Proof.
  intros Hrun Hok.
  destruct (export_success env config fuel _ _ r Hrun Hok) as (s1 & Htry & Hq).
  destruct (export_try_reports env config fuel
              (progressed (trace s)) s eq_refl r s1 Htry Hok)
    as (info & n & Hload & Hn & Hseen).
  exists info, n. split; [exact Hload|]. split; [exact Hn|].
  exact (seen_quiet _ _ progress_record_background _ s1 s' Hq Hseen).
Qed.

(** The run on a 2 s source at 30 frames per second reports the frames 1
    to 60. *)
Lemma successful_export_reports_every_frame_witness :
  let run := export (Scenario.video_only 2) Scenario.at_30_fps 0
               (initial_State new_VideoExporter) in
  exists info n,
    loadVideo (Scenario.video_only 2) = inr info
    /\ frame_bound Scenario.at_30_fps (duration info) = Binary64.runs n
    /\ progressed (trace (snd run))
       = progressed (trace (initial_State new_VideoExporter))
         ++ (if onProgress Scenario.at_30_fps
             then map (fun i =>
                         {| currentFrame := S i;
                            progressTotalFrames :=
                              Binary64.totalFrames
                                (Binary64.getEffectiveDuration
                                   (trimRegions Scenario.at_30_fps)
                                   (duration info))
                                (frameRate Scenario.at_30_fps);
                            percentage :=
                              ((Binary64.of_nat (S i)
                                / Binary64.totalFrames
                                    (Binary64.getEffectiveDuration
                                       (trimRegions Scenario.at_30_fps)
                                       (duration info))
                                    (frameRate Scenario.at_30_fps)) * 100)%float;
                            estimatedTimeRemaining := 0%float |})
                    (seq 0 n)
             else []).
Proof.
  apply (successful_export_reports_every_frame
           (Scenario.video_only 2) Scenario.at_30_fps 0%nat
           (initial_State new_VideoExporter)
           (snd (export (Scenario.video_only 2) Scenario.at_30_fps 0
                   (initial_State new_VideoExporter)))
           (match fst (export (Scenario.video_only 2) Scenario.at_30_fps 0
                         (initial_State new_VideoExporter)) with
            | Ok r => r
            | _ => {| success := false; blob := None; error := None |}
            end)).
  - vm_compute. reflexivity.
  - vm_compute. reflexivity.
Defined.

(** ** The frames a successful run has encoded *)

Lemma keeps_deref_bind {A B : Type} (I : State -> Prop)
    (field : VideoExporter -> option A) (k : A -> M B) :
  (forall a s, I s -> field (this s) = Some a -> I (snd (k a s))) ->
  keeps I (bind (deref field) k).
Proof.
  intros H s Hs. unfold bind at 1, deref, bind, read, ret, throw.
  cbn [fst snd]. destruct (field (this s)) as [a|] eqn:E.
  - now apply H.
  - exact Hs.
Qed.

Lemma keeps_when_set_with {A : Type} (I : State -> Prop)
    (field : VideoExporter -> option A) (body : A -> M unit) :
  (forall a s, I s -> field (this s) = Some a -> I (snd (body a s))) ->
  keeps I (when_set field body).
Proof.
  intros H s Hs. unfold when_set, bind, read. cbn [fst snd].
  destruct (field (this s)) as [a|] eqn:E.
  - now apply H.
  - exact Hs.
Qed.

(** The [output] callback leaves a configured encoder configured. *)
Lemma armed_videoOutput (env : Env) (meta : option DecoderConfig) :
  keeps (fun s => armed (this s) = true) (videoOutput env meta).
Proof.
  unfold videoOutput. apply keeps_deref_bind. intros enc s Ha E.
  assert (Hc : is_configured (state enc) = true).
  { unfold armed in Ha. now rewrite E in Ha. }
  match goal with |- armed (this (snd (?m s))) = true =>
    assert (K : keeps (fun s0 => armed (this s0) = true) m);
    [|exact (K s Ha)] end.
  unfold videoMuxingTask, muxer_addVideoChunk, console.
  keeps_walk; first [now intros s0 H0|intros s0 _; exact Hc].
Qed.

Lemma armed_deliver_video_chunk (env : Env) :
  keeps (fun s => armed (this s) = true) (deliver_video_chunk env).
Proof.
  unfold deliver_video_chunk. apply keeps_when_set_with. intros enc s Ha E.
  destruct (is_configured (state enc) && (0 <? pending enc)%nat) eqn:Hb;
    [|exact Ha].
  apply andb_true_iff in Hb. destruct Hb as [Hc _].
  match goal with |- armed (this (snd (?m s))) = true =>
    assert (K : keeps (fun s0 => armed (this s0) = true) m);
    [|exact (K s Ha)] end.
  apply keeps_bind; [intros s0 _; exact Hc|intros _].
  apply keeps_bind; [apply keeps_read|intro count].
  apply keeps_callback, armed_videoOutput.
Qed.

Lemma encoding_emit (v : list (nat * bool)) (e : Event) :
  encode_call e = [] -> keeps (encoding v) (emit e).
Proof.
  intros He s [H|[Ha Hs]]; [now left|right].
  split; [exact Ha|now apply seen_emit].
Qed.

Lemma encoding_assign (v : list (nat * bool))
    (update : VideoExporter -> VideoExporter) :
  (forall t, cancelled (update t) = cancelled t) ->
  (forall t, armed (update t) = armed t) ->
  keeps (encoding v) (assign update).
Proof.
  intros Hc Ha s [H|[H1 H2]]; [left|right].
  - unfold is_cancelled in *. simpl. now rewrite Hc.
  - split; [simpl; now rewrite Ha|exact H2].
Qed.

Lemma encoding_handle (env : Env) (v : list (nat * bool)) (ev : AsyncEvent) :
  keeps (encoding v) (handle env ev).
Proof.
  intros s [H|[Ha Hs]]; [left; now apply is_cancelled_handle|].
  pose proof (seen_quietly _ _ encode_call_background v _
                (quietly_handle env ev) s Hs) as Hs'.
  destruct ev; simpl in *.
  - right. split; [now apply armed_deliver_video_chunk|exact Hs'].
  - left. unfold is_cancelled, fail_video_encoder, when_set, bind at 1, read.
    cbn [fst snd]. unfold armed in Ha.
    destruct (encoder (this s)) as [enc|]; [|discriminate Ha].
    rewrite Ha. reflexivity.
  - right. split; [|exact Hs']. revert s Ha Hs Hs'.
    assert (K : keeps (fun s => armed (this s) = true)
                  (deliver_audio_chunk env)).
    { unfold deliver_audio_chunk, audioOutput, audioMuxingTask,
        muxer_addAudioChunk, console.
      keeps_walk; now intros s H. }
    intros s Ha _ _. exact (K s Ha).
  - right. split; [|exact Hs']. revert s Ha Hs Hs'.
    assert (K : keeps (fun s => armed (this s) = true) fail_audio_encoder).
    { unfold fail_audio_encoder, console. keeps_walk; now intros s H. }
    intros s Ha _ _. exact (K s Ha).
  - right. split; [|exact Hs']. revert s Ha Hs Hs'.
    assert (K : keeps (fun s => armed (this s) = true)
                  (when_set audioProcessor (fun _ => callback onaudioprocess))).
    { unfold onaudioprocess. keeps_walk; now intros s H. }
    intros s Ha _ _. exact (K s Ha).
  - left. unfold is_cancelled, cancel, bind at 1, assign.
    match goal with |- context [cleanup env ?st] =>
      destruct (cleanup_spec env st) as (tr & h & E & _) end.
    rewrite E. reflexivity.
Qed.

Lemma encoding_await (env : Env) (v : list (nat * bool)) :
  keeps (encoding v) (await env).
Proof.
  apply keeps_await; [|apply encoding_handle].
  intros s [H|[Ha Hs]]; [now left|right; now split].
Qed.

Lemma encoding_wait_for_queue (env : Env) (v : list (nat * bool))
    (fuel : nat) :
  keeps (encoding v) (wait_for_queue env fuel).
Proof.
  induction fuel as [|fuel IH]; intros s Hs; rewrite wait_for_queue_eq;
    destruct ((MAX_ENCODE_QUEUE <=? encodeQueue (this s))%Z
              && negb (cancelled (this s))); try exact Hs.
  revert s Hs. apply keeps_bind; [|intros _; exact IH].
  apply encoding_await.
Qed.

(** Walks code that encodes nothing and leaves the encoder and the
    cancellation flag to the callbacks. *)
Ltac encoding_walk :=
  repeat lazymatch goal with
    | |- keeps _ (await _) => apply encoding_await
    | |- keeps _ (wait_for_queue _ _) => apply encoding_wait_for_queue
    | |- keeps _ (emit _) => apply encoding_emit; reflexivity
    | |- keeps _ (assign _) => apply encoding_assign; intro; reflexivity
    | |- keeps _ (console _ _) => unfold console
    | |- keeps _ (ret _) => apply keeps_ret
    | |- keeps _ (read _) => apply keeps_read
    | |- keeps _ (throw _) => apply keeps_throw
    | |- keeps _ timeout => apply keeps_timeout
    | |- keeps _ (settle _) => apply keeps_settle
    | |- keeps _ (deref _) => apply keeps_deref
    | |- keeps _ (try_catch _ _) => apply keeps_try_catch; [|intro]
    | |- keeps _ (bind _ _) => apply keeps_bind; [|intro]
    | |- keeps _ (match ?x with _ => _ end) => destruct x
    end.

Lemma encoding_processSegment (env : Env) (v : list (nat * bool)) (a b : float) :
  keeps (encoding v) (processSegment env a b).
Proof. unfold processSegment. encoding_walk. Qed.

Lemma encoding_extract_segments (env : Env) (v : list (nat * bool))
    (l : list Binary64.TrimRegion) :
  forall pos, keeps (encoding v) (extract_segments env l pos).
Proof.
  induction l as [|trim rest IH]; intro pos; simpl.
  - apply keeps_ret.
  - apply keeps_bind; [|intros _; apply IH].
    apply keeps_if; [apply encoding_processSegment|apply keeps_ret].
Qed.

Lemma encoding_extractAudio (env : Env) (config : VideoExporterConfig)
    (v : list (nat * bool)) (d : float) :
  keeps (encoding v) (extractAudio env config d).
Proof.
  unfold extractAudio.
  do 3 (apply keeps_bind; [apply keeps_read|intro]).
  destruct a as [?|]; [|apply keeps_ret].
  destruct a0 as [?|]; [|apply keeps_ret].
  destruct a1 as [?|]; [|apply keeps_ret].
  apply keeps_if; [encoding_walk|].
  apply keeps_bind; [apply encoding_extract_segments|intro pos].
  apply keeps_if; [apply encoding_processSegment|apply keeps_ret].
Qed.

Lemma encoding_initializeAudioEncoder (env : Env) (v : list (nat * bool)) :
  keeps (encoding v) (initializeAudioEncoder env).
Proof. unfold initializeAudioEncoder. encoding_walk. Qed.

(** [initializeEncoder] returns with a configured encoder. *)
Lemma initializeEncoder_arms (env : Env) (v : list (nat * bool)) :
  ok_triple (seen encode_call v) (initializeEncoder env)
    (fun _ => encoding v).
Proof.
  unfold initializeEncoder, encoder_configure.
  repeat lazymatch goal with
    | |- ok_triple _ (bind _ _) _ =>
        eapply ok_bind;
        [solve [apply ok_keeps; seen_walk encode_call_background]
        |intro; cbv beta]
    | |- ok_triple _ (throw _) _ => apply ok_throw
    | |- ok_triple _ (match state ?a with _ => _ end) _ => destruct (state a)
    | |- ok_triple _ (if ?b then _ else _) _ => destruct b
    end;
    intros s H u s' Hrun; inversion Hrun; subst; right;
    (split; [reflexivity|exact H]).
Qed.

Lemma submit_frame_encodes (i : nat) (v : list (nat * bool)) :
  ok_triple (encoding v) (submit_frame i)
    (fun _ => encoding (v ++ [(i, (i mod 150 =? 0)%nat)])).
Proof.
  intros s [H|[Ha Hs]] u s' Hrun.
  - left.
    assert (K : keeps is_cancelled (submit_frame i)).
    { unfold submit_frame, encoder_encode, console. keeps_walk;
        now intros s0 H0. }
    specialize (K s H). now rewrite Hrun in K.
  - right. revert Hrun.
    unfold submit_frame, encoder_encode, bind, read, assign, emit.
    cbn [fst snd this trace history awaits].
    unfold armed in Ha. destruct (encoder (this s)) as [enc|];
      [|discriminate Ha].
    rewrite Ha. cbn [fst snd this trace history awaits].
    intro Hrun. inversion Hrun; subst. split; [exact Ha|].
    unfold seen in *. cbn [trace]. rewrite flat_map_app, Hs. simpl.
    reflexivity.
Qed.

Lemma frame_encodes (env : Env) (config : VideoExporterConfig) (fuel : nat)
    (totalFrames : float) (i : nat) (v : list (nat * bool)) :
  ok_triple (encoding v) (frame env config fuel totalFrames i)
    (fun _ => encoding (v ++ [(i, (i mod 150 =? 0)%nat)])).
Proof.
  unfold frame, report_progress.
  repeat lazymatch goal with
    | |- ok_triple _ (bind (submit_frame _) _) _ => fail
    | |- ok_triple _ (bind _ _) _ =>
        eapply ok_bind;
        [solve [apply ok_keeps; encoding_walk]|intro; cbv beta]
    end.
  eapply ok_bind; [apply submit_frame_encodes|intro; cbv beta].
  apply ok_keeps. encoding_walk.
Qed.

Lemma frame_loop_encodes (env : Env) (config : VideoExporterConfig)
    (fuel : nat) (totalFrames : float) (remaining : nat) :
  forall (frameIndex : nat) (v : list (nat * bool)),
    ok_triple (encoding v)
      (frame_loop env config fuel totalFrames remaining frameIndex)
      (fun _ =>
         encoding (v ++ map (fun i => (i, (i mod 150 =? 0)%nat))
                          (seq frameIndex remaining))).
Proof.
  induction remaining as [|remaining IH]; intros frameIndex v; simpl.
  - intros s H b s' Hrun. inversion Hrun; subst. now rewrite app_nil_r.
  - apply ok_read_bind. intros c. destruct c.
    + intros s [_ Hc] b s' Hrun. inversion Hrun; subst. now left.
    + eapply ok_bind.
      * eapply ok_weaken; [apply frame_encodes| |intros b s H; exact H].
        intros s [H _]. exact H.
      * intro; cbv beta.
        eapply ok_weaken;
          [apply (IH (S frameIndex)
                    (v ++ [(frameIndex, (frameIndex mod 150 =? 0)%nat)]))
          |auto|].
        intros b s H. now rewrite <- app_assoc in H.
Qed.

Lemma run_frames_encodes (env : Env) (config : VideoExporterConfig)
    (fuel : nat) (totalFrames : float) (v : list (nat * bool)) :
  ok_triple (encoding v) (run_frames env config fuel totalFrames)
    (fun _ s' =>
       is_cancelled s'
       \/ shown encode_call (fun i => [(i, (i mod 150 =? 0)%nat)])
            totalFrames v s').
Proof.
  unfold run_frames, shown.
  destruct (Binary64.iterations totalFrames) as [n|].
  - eapply ok_weaken;
      [apply frame_loop_encodes|intros s H; exact H|].
    intros b s [H|[_ H]]; [now left|right]. exists n.
    split; [reflexivity|]. now rewrite flat_map_single.
  - eapply ok_bind; [apply frame_loop_encodes|intro; cbv beta].
    apply ok_read_bind. intros c. destruct c.
    + intros s [_ Hc] b s' Hrun. inversion Hrun; subst. now left.
    + intros s _ b s' Hrun. discriminate Hrun.
Qed.

Lemma export_try_encodes (env : Env) (config : VideoExporterConfig)
    (fuel : nat) (v : list (nat * bool)) :
  ok_triple (seen encode_call v) (export_try env config fuel)
    (fun r s' =>
       success r = true ->
       exists info n,
         loadVideo env = inr info
         /\ frame_bound config (duration info) = Binary64.runs n
         /\ seen encode_call
              (v ++ map (fun i => (i, (i mod 150 =? 0)%nat)) (seq 0 n)) s').
Proof.
  unfold export_try.
  repeat lazymatch goal with
    | |- ok_triple _ (bind (initializeEncoder _) _) _ => fail
    | |- ok_triple _ (bind _ _) _ =>
        eapply ok_bind;
        [solve [apply ok_keeps; seen_walk encode_call_background]
        |intro; cbv beta]
    | |- ok_triple _ (match loadVideo ?env with _ => _ end) _ =>
        let e := fresh "e" in
        let info := fresh "info" in
        destruct (loadVideo env) as [e|info]; [apply ok_throw|]
    end.
  eapply ok_bind; [apply initializeEncoder_arms|intro; cbv beta].
  repeat lazymatch goal with
    | |- ok_triple _ (bind (run_frames _ _ _ _) _) _ => fail
    | |- ok_triple _ (bind _ _) _ =>
        eapply ok_bind;
        [solve [apply ok_keeps;
                first [apply encoding_initializeAudioEncoder
                      |apply encoding_extractAudio
                      |encoding_walk;
                       first [apply encoding_initializeAudioEncoder
                             |apply encoding_extractAudio];
                       encoding_walk
                      |encoding_walk]]
        |intro; cbv beta]
    | |- ok_triple _ (if ?b then throw _ else _) _ =>
        destruct b; [apply ok_throw|]
    end.
  eapply ok_bind; [apply run_frames_encodes|intro; cbv beta].
  after_the_loop encode_call_background.
  intros s (n & Hn & H). exists info, n. split; [reflexivity|].
  split; [exact Hn|]. now rewrite flat_map_single in H.
Qed.

(** X14. A successful export encodes every frame, with a key frame every
    150 frames.  Every run of [export()], from any state and whatever the
    callbacks do, that resolves [{success: true}] has handed to the video
    encoder the frames [0, 1, ..., totalFrames - 1], in this order and
    once each, frame [i] as a key frame exactly when [i] is a multiple of
    150; no frame was skipped with the warning [Encoder not ready!]. *)
Theorem successful_export_encodes_every_frame
    (env : Env) (config : VideoExporterConfig) (fuel : nat) (s s' : State)
    (r : ExportResult) :
  export env config fuel s = (Ok r, s') ->
  success r = true ->
  exists info n,
    loadVideo env = inr info
    /\ frame_bound config (duration info) = Binary64.runs n
    /\ encoded (trace s')
       = encoded (trace s)
         ++ map (fun i => (i, (i mod 150 =? 0)%nat)) (seq 0 n).
Proof.
  intros Hrun Hok.
  destruct (export_success env config fuel _ _ r Hrun Hok) as (s1 & Htry & Hq).
  destruct (export_try_encodes env config fuel
              (encoded (trace s)) s eq_refl r s1 Htry Hok)
    as (info & n & Hload & Hn & Hseen).
  exists info, n. split; [exact Hload|]. split; [exact Hn|].
  exact (seen_quiet _ _ encode_call_background _ s1 s' Hq Hseen).
Qed.

(** The run with a slow encoder on a 5 s source at 30 frames per second
    encodes the frames 0 to 149, the first one as a key frame. *)
Lemma successful_export_encodes_every_frame_witness :
  let run := export Scenario.slow_encoder Scenario.at_30_fps 10
               (initial_State new_VideoExporter) in
  exists info n,
    loadVideo Scenario.slow_encoder = inr info
    /\ frame_bound Scenario.at_30_fps (duration info) = Binary64.runs n
    /\ encoded (trace (snd run))
       = encoded (trace (initial_State new_VideoExporter))
         ++ map (fun i => (i, (i mod 150 =? 0)%nat)) (seq 0 n).
Proof.
  apply (successful_export_encodes_every_frame
           Scenario.slow_encoder Scenario.at_30_fps 10%nat
           (initial_State new_VideoExporter)
           (snd (export Scenario.slow_encoder Scenario.at_30_fps 10
                   (initial_State new_VideoExporter)))
           (match fst (export Scenario.slow_encoder Scenario.at_30_fps 10
                         (initial_State new_VideoExporter)) with
            | Ok r => r
            | _ => {| success := false; blob := None; error := None |}
            end)).
  - vm_compute. reflexivity.
  - vm_compute. reflexivity.
Defined.

(** ** The video file decoder *)

Lemma has_audio_track (stream : Decoder.MediaStream) :
  (0 <? List.length (Decoder.getAudioTracks stream))%nat = true
  <-> Exists (fun track => Decoder.kind track = Decoder.audio_kind) stream.
Proof.
  unfold Decoder.getAudioTracks.
  induction stream as [|track stream IH]; simpl.
  - split; [discriminate|intro H; inversion H].
  - unfold Decoder.is_audio at 1.
    destruct (Decoder.kind track) eqn:E; simpl.
    + split; [intros _; now constructor|reflexivity].
    + rewrite IH. split.
      * intro H. now apply Exists_cons_tl.
      * intro H. inversion H as [? ? Hk|? ? Ht]; subst; [congruence|exact Ht].
Qed.

Lemma audio_tracks_are_audio (stream : Decoder.MediaStream) :
  Forall (fun track => Decoder.kind track = Decoder.audio_kind)
    (Decoder.getAudioTracks stream).
Proof.
  unfold Decoder.getAudioTracks. apply Forall_forall. intros track Hin.
  apply filter_In in Hin. destruct Hin as [_ H].
  unfold Decoder.is_audio in H. now destruct (Decoder.kind track).
Qed.

(** X15. [loadVideo] resolves once the metadata is loaded, whatever
    [captureStream] does.  The info it resolves with is the one [getInfo]
    returns afterwards; it carries the duration of the element, and the
    frame rate [60] and the codec [avc1.640033] whatever the source.
    [hasAudio] is true exactly when [captureStream] returned a stream with
    an audio track (a call that throws is logged and counts as no audio),
    and only then is the stream kept for [destroy]. *)
Theorem loadVideo_reports_the_source
    (browser : Decoder.Browser) (videoUrl : string)
    (d : Decoder.VideoFileDecoder) (video : Decoder.Metadata) :
  Decoder.metadata browser = Some video ->
  exists i d' calls,
    Decoder.loadVideo browser videoUrl d = (inr i, d', calls)
    /\ Decoder.getInfo d' = Some i
    /\ Decoder.duration i = Decoder.videoDuration video
    /\ Decoder.frameRate i = 60
    /\ Decoder.codec i = "avc1.640033"%string
    /\ (Decoder.hasAudio i = true
        <-> exists stream,
              Decoder.captureStream browser = Some stream
              /\ Exists (fun track => Decoder.kind track = Decoder.audio_kind)
                   stream)
    /\ (Decoder.hasAudio i = true ->
        Decoder.audioStream d' = Decoder.captureStream browser)
    /\ (Decoder.hasAudio i = false ->
        Decoder.audioStream d' = Decoder.audioStream d).
Proof.
  intro Hm. unfold Decoder.loadVideo, Decoder.on_loadedmetadata. rewrite Hm.
  destruct (Decoder.captureStream browser) as [stream|] eqn:Hc.
  - destruct (0 <? List.length (Decoder.getAudioTracks stream))%nat eqn:Hb;
      do 3 eexists; (split; [reflexivity|]); simpl;
      repeat (split; [reflexivity|]).
    + split; [|split; [reflexivity|discriminate]].
      split; [|reflexivity]. intros _. exists stream.
      split; [reflexivity|]. now apply has_audio_track.
    + split; [|split; [discriminate|reflexivity]].
      split; [discriminate|]. intros (stream' & E & Hex).
      inversion E; subst. apply has_audio_track in Hex. congruence.
  - do 3 eexists. split; [reflexivity|]. simpl.
    repeat (split; [reflexivity|]).
    split; [|split; [discriminate|reflexivity]].
    split; [discriminate|]. intros (stream' & E & _). discriminate E.
Qed.

(** A source of 12 s whose stream holds a video and an audio track. *)
Lemma loadVideo_reports_the_source_witness :
  let browser :=
    {| Decoder.metadata :=
         Some {| Decoder.videoWidth := 1920; Decoder.videoHeight := 1080;
                 Decoder.videoDuration := 12 |};
       Decoder.captureStream :=
         Some [Decoder.mkTrack Decoder.video_kind 0;
               Decoder.mkTrack Decoder.audio_kind 1] |} in
  exists i d' calls,
    Decoder.loadVideo browser "blob:recording" Decoder.new_VideoFileDecoder
    = (inr i, d', calls)
    /\ Decoder.getInfo d' = Some i
    /\ Decoder.duration i
       = Decoder.videoDuration
           {| Decoder.videoWidth := 1920; Decoder.videoHeight := 1080;
              Decoder.videoDuration := 12 |}
    /\ Decoder.frameRate i = 60
    /\ Decoder.codec i = "avc1.640033"%string
    /\ (Decoder.hasAudio i = true
        <-> exists stream,
              Decoder.captureStream browser = Some stream
              /\ Exists (fun track => Decoder.kind track = Decoder.audio_kind)
                   stream)
    /\ (Decoder.hasAudio i = true ->
        Decoder.audioStream d' = Decoder.captureStream browser)
    /\ (Decoder.hasAudio i = false ->
        Decoder.audioStream d'
        = Decoder.audioStream Decoder.new_VideoFileDecoder).
Proof.
  apply (loadVideo_reports_the_source
           {| Decoder.metadata :=
                Some {| Decoder.videoWidth := 1920;
                        Decoder.videoHeight := 1080;
                        Decoder.videoDuration := 12 |};
              Decoder.captureStream :=
                Some [Decoder.mkTrack Decoder.video_kind 0;
                      Decoder.mkTrack Decoder.audio_kind 1] |}
           "blob:recording" Decoder.new_VideoFileDecoder
           {| Decoder.videoWidth := 1920; Decoder.videoHeight := 1080;
              Decoder.videoDuration := 12 |}).
  reflexivity.
Defined.

(** X16. [destroy] is idempotent.  It stops every track of the stream
    that [loadVideo] kept, audio or video; afterwards [getVideoElement]
    returns [null] and [getAudioStream] returns [null] without asking the
    element for its stream, while [getInfo] still returns the info of the
    source; and a second [destroy] makes no call and changes nothing. *)
Theorem destroy_is_idempotent
    (browser : Decoder.Browser) (d : Decoder.VideoFileDecoder) :
  let d1 := fst (Decoder.destroy d) in
  Decoder.destroy d1 = (d1, [])
  /\ Decoder.getVideoElement d1 = None
  /\ Decoder.getAudioStream browser d1 = (None, [])
  /\ Decoder.getInfo d1 = Decoder.getInfo d
  /\ (forall stream track,
        Decoder.audioStream d = Some stream ->
        In track stream ->
        In (Decoder.track_stop (Decoder.trackId track))
          (snd (Decoder.destroy d))).
Proof.
  destruct d as [i [element|] [stream|]]; cbv zeta; simpl;
    repeat (split; [reflexivity|]); intros stream' track E Hin;
    try discriminate E; inversion E; subst;
    try (apply in_or_app; left);
    exact (in_map (fun t => Decoder.track_stop (Decoder.trackId t)) _ _ Hin).
Qed.

(** X17. [getAudioStream] agrees with [hasAudio] as long as the element
    answers alike.  [loadVideo] and [getAudioStream] each call
    [captureStream()], at different moments.  When the later call returns
    what the earlier one returned, or throws as it threw, [getAudioStream]
    on the loaded decoder returns a stream exactly when the info says
    [hasAudio]; when the later call throws after the earlier one found an
    audio track, [hasAudio] is true and [getAudioStream] returns [null].
    The stream [getAudioStream] returns is a new one that holds the audio
    tracks of the stream of its own call, all of them and no video track;
    and on a decoder without a video element it returns [null] without
    any call. *)
Theorem getAudioStream_agrees_with_hasAudio
    (browser later : Decoder.Browser) (videoUrl : string)
    (d : Decoder.VideoFileDecoder) :
  (forall i d' calls,
      Decoder.loadVideo browser videoUrl d = (inr i, d', calls) ->
      (Decoder.captureStream later = Decoder.captureStream browser ->
       (fst (Decoder.getAudioStream later d') <> None
        <-> Decoder.hasAudio i = true))
      /\ (Decoder.captureStream later = None ->
          Decoder.getAudioStream later d'
          = (None,
             [Decoder.call_captureStream;
              Decoder.console_warn
                "[VideoFileDecoder] Failed to get audio stream:"])))
  /\ (forall audio,
        fst (Decoder.getAudioStream later d) = Some audio ->
        audio <> []
        /\ Forall (fun track => Decoder.kind track = Decoder.audio_kind) audio
        /\ exists stream,
             Decoder.captureStream later = Some stream
             /\ audio = Decoder.getAudioTracks stream)
  /\ (Decoder.getVideoElement d = None ->
      Decoder.getAudioStream later d = (None, []))
  /\ (let first := {| Decoder.metadata :=
                        Some {| Decoder.videoWidth := 1920;
                                Decoder.videoHeight := 1080;
                                Decoder.videoDuration := 12 |};
                      Decoder.captureStream :=
                        Some [Decoder.mkTrack Decoder.video_kind 0;
                              Decoder.mkTrack Decoder.audio_kind 1] |} in
      let second := {| Decoder.metadata := Decoder.metadata first;
                       Decoder.captureStream := None |} in
      let loaded := Decoder.loadVideo first "blob:recording"
                      Decoder.new_VideoFileDecoder in
      option_map Decoder.hasAudio (Decoder.getInfo (snd (fst loaded)))
      = Some true
      /\ fst (Decoder.getAudioStream second (snd (fst loaded))) = None).
Proof.
  split; [|split; [|split]].
  - intros i d' calls.
    unfold Decoder.loadVideo, Decoder.on_loadedmetadata,
      Decoder.getAudioStream.
    destruct (Decoder.metadata browser) as [video|]; [|discriminate].
    destruct (Decoder.captureStream browser) as [stream|].
    + destruct (0 <? List.length (Decoder.getAudioTracks stream))%nat eqn:Hb;
        intro H; inversion H; subst; simpl;
        (split; [intro E; rewrite E, Hb; simpl; split; congruence
                |intro E; now rewrite E]).
    + intro H. inversion H; subst. simpl.
      split; [intro E; rewrite E; simpl; split; congruence
             |intro E; now rewrite E].
  - intros audio. unfold Decoder.getAudioStream.
    destruct (Decoder.videoElement d); [|discriminate].
    destruct (Decoder.captureStream later) as [stream|]; [|discriminate].
    destruct (0 <? List.length (Decoder.getAudioTracks stream))%nat eqn:Hb;
      [|discriminate].
    simpl. intro H. inversion H; subst. split; [|split].
    + intro E. rewrite E in Hb. discriminate Hb.
    + apply audio_tracks_are_audio.
    + now exists stream.
  - unfold Decoder.getVideoElement, Decoder.getAudioStream. intro E.
    now rewrite E.
  - cbv zeta. split; reflexivity.
Qed.

(** ** The audio frame *)

Lemma store_length (a : list Q) :
  forall (k : nat) (x : Q), List.length (AudioFrame.store a k x) = List.length a.
Proof.
  induction a as [|y a IH]; intros [|k] x; simpl; try reflexivity.
  now rewrite IH.
Qed.

Lemma nth_store_same (a : list Q) :
  forall (k : nat) (x : Q),
    (k < List.length a)%nat -> nth k (AudioFrame.store a k x) 0 = x.
Proof.
  induction a as [|y a IH]; intros [|k] x H; simpl in *; try lia.
  - reflexivity.
  - apply IH. lia.
Qed.

Lemma nth_store_other (a : list Q) :
  forall (k k' : nat) (x : Q),
    k <> k' -> nth k' (AudioFrame.store a k x) 0 = nth k' a 0.
Proof.
  induction a as [|y a IH]; intros [|k] [|k'] x H; simpl; try reflexivity.
  - contradiction.
  - apply IH. lia.
Qed.

Lemma slot_injective (channels c c' i j : nat) :
  (c < channels)%nat -> (c' < channels)%nat ->
  (i * channels + c = j * channels + c')%nat -> i = j /\ c = c'.
Proof. intros Hc Hc' E. assert (i = j) by nia. subst. lia. Qed.

(** One pass of the inner loop, over the sample indices [l]. *)
Lemma copy_samples (input : nat -> nat -> Q) (channels c : nat)
    (l : list nat) :
  (c < channels)%nat -> NoDup l ->
  forall a : list Q,
    let r := fold_left
               (fun audioData i =>
                  AudioFrame.store audioData (i * channels + c) (input c i))
               l a in
    List.length r = List.length a
    /\ (forall k, (forall i, In i l -> k <> (i * channels + c)%nat) ->
                  nth k r 0 = nth k a 0)
    /\ (forall i, In i l -> (i * channels + c < List.length a)%nat ->
                  nth (i * channels + c) r 0 = input c i).
Proof.
  intros Hc Hnd. induction Hnd as [|x l Hx Hnd IH]; intro a; cbv zeta; simpl.
  - split; [reflexivity|]. split; [reflexivity|]. intros i [].
  - destruct (IH (AudioFrame.store a (x * channels + c) (input c x)))
      as (H1 & H2 & H3).
    rewrite store_length in *. split; [exact H1|]. split.
    + intros k Hk. rewrite H2 by (intros i Hi; apply Hk; now right).
      apply nth_store_other. intro E. apply (Hk x); [now left|now symmetry].
    + intros i [E|Hi] Hlt.
      * subst i. rewrite H2.
        -- now apply nth_store_same.
        -- intros j Hj E.
           destruct (slot_injective channels c c x j Hc Hc E) as [E' _].
           subst j. contradiction.
      * now apply H3.
Qed.

(** The outer loop, over the channels [lc]. *)
Lemma copy_channels (input : nat -> nat -> Q) (length channels : nat)
    (lc : list nat) :
  NoDup lc -> Forall (fun c => (c < channels)%nat) lc ->
  forall a : list Q,
    let r := fold_left (AudioFrame.copy_channel input length channels) lc a in
    List.length r = List.length a
    /\ (forall k,
          (forall c i, In c lc -> (i < length)%nat ->
                       k <> (i * channels + c)%nat) ->
          nth k r 0 = nth k a 0)
    /\ (forall c i, In c lc -> (i < length)%nat ->
                    (i * channels + c < List.length a)%nat ->
                    nth (i * channels + c) r 0 = input c i).
Proof.
  intros Hnd. induction Hnd as [|x lc Hx Hnd IH]; intros Hlt a; cbv zeta;
    simpl.
  - split; [reflexivity|]. split; [reflexivity|]. intros c i [].
  - inversion Hlt as [|? ? Hxc Hlt']; subst.
    destruct (copy_samples input channels x (seq 0 length) Hxc
                (seq_NoDup length 0) a) as (S1 & S2 & S3).
    fold (AudioFrame.copy_channel input length channels a x) in S1, S2, S3.
    destruct (IH Hlt' (AudioFrame.copy_channel input length channels a x))
      as (H1 & H2 & H3).
    rewrite S1 in *. split; [exact H1|]. split.
    + intros k Hk. rewrite H2 by (intros c i Hc Hi; apply Hk; [now right|exact Hi]).
      apply S2. intros i Hi. apply Hk; [now left|].
      apply in_seq in Hi. lia.
    + intros c i [E|Hc] Hi Hlen.
      * subst c. rewrite H2.
        -- apply S3; [apply in_seq; lia|exact Hlen].
        -- intros c j Hc Hj E.
           assert (Hcc : (c < channels)%nat).
           { rewrite Forall_forall in Hlt'. now apply Hlt'. }
           destruct (slot_injective channels x c i j Hxc Hcc E) as [_ E'].
           subst c. contradiction.
      * now apply H3.
Qed.

Lemma pack_layout (input : nat -> nat -> Q) (length channels : nat) :
  List.length (AudioFrame.pack input length channels) = (length * channels)%nat
  /\ forall c i, (c < channels)%nat -> (i < length)%nat ->
       nth (i * channels + c) (AudioFrame.pack input length channels) 0
       = input c i.
Proof.
  unfold AudioFrame.pack.
  destruct (copy_channels input length channels (seq 0 channels)
              (seq_NoDup channels 0)) with
    (a := AudioFrame.new_Float32Array (length * channels))
    as (H1 & _ & H3).
  { apply Forall_forall. intros c Hc. apply in_seq in Hc. lia. }
  unfold AudioFrame.new_Float32Array in *. rewrite repeat_length in *.
  split; [exact H1|]. intros c i Hc Hi.
  apply H3; [apply in_seq; lia|exact Hi|nia].
Qed.

(** X18. [onaudioprocess] interleaves the channels.  The array it builds
    has [length * channels] samples, and sample [i] of channel [c] is at
    index [i * channels + c]: every store is inside the array and no slot
    is written twice.  With two channels or more and two samples or more
    this is not the layout of the format [f32-planar] that the
    [AudioData] is created with: index 1 holds the first sample of
    channel 1, where a planar frame holds the second sample of
    channel 0. *)
Theorem audio_frame_is_interleaved
    (input : nat -> nat -> Q) (length channels : nat) :
  List.length (AudioFrame.pack input length channels) = (length * channels)%nat
  /\ (forall c i, (c < channels)%nat -> (i < length)%nat ->
        nth (i * channels + c) (AudioFrame.pack input length channels) 0
        = input c i)
  /\ ((2 <= channels)%nat -> (2 <= length)%nat ->
      nth 1 (AudioFrame.pack input length channels) 0 = input 1%nat 0%nat
      /\ nth 1 (AudioFrame.planar input length channels) 0
         = input 0%nat 1%nat).
Proof.
  destruct (pack_layout input length channels) as [H1 H2].
  split; [exact H1|]. split; [exact H2|]. intros Hc Hl. split.
  - apply (H2 1%nat 0%nat); lia.
  - unfold AudioFrame.planar.
    destruct channels as [|channels]; [lia|].
    destruct length as [|[|length]]; try lia. reflexivity.
Qed.

(** ** Audio set-up that fails early *)

(** X19. Audio set-up that fails before the encoder is created leaves the
    exporter as it was.  When the decoder has no audio stream,
    [initializeAudioEncoder] logs a warning and returns at once, creating
    nothing; when creating the audio context or its source throws, the
    error is logged and swallowed.  Either way no field of the exporter
    is assigned and no suspension point is passed. *)
Theorem audio_setup_fails_softly (env : Env) (s : State) :
  let available :=
    match decoder (this s) with
    | Some dec => getAudioStream env dec
    | None => false
    end in
  (available = false ->
   initializeAudioEncoder env s
   = (Ok tt,
      {| this := this s;
         trace := trace s
                  ++ [E_console console_warn
                        "[VideoExporter] No audio stream available"];
         history := history s; awaits := awaits s |}))
  /\ (available = true ->
      forall e, createAudioGraph env = Some e ->
      initializeAudioEncoder env s
      = (Ok tt,
         {| this := this s;
            trace := trace s
                     ++ [E_newAudioContext;
                         E_console console_error
                           "[VideoExporter] Failed to initialize audio encoder:"];
            history := history s; awaits := awaits s |})).
Proof.
  cbv zeta. split.
  - intro H. unfold initializeAudioEncoder, bind at 1, read. cbn [fst snd].
    cbv beta zeta. rewrite H. reflexivity.
  - intros H e He.
    unfold initializeAudioEncoder, bind at 1, read at 1. cbn [fst snd].
    cbv beta zeta. rewrite H. simpl negb. cbv iota.
    unfold try_catch, bind at 1 2, emit at 1, settle.
    cbn [fst snd this trace history awaits]. rewrite He.
    unfold throw, console, emit. cbn [this trace history awaits negb].
    now rewrite <- app_assoc.
Qed.

